(** * Chinese chess engine: board, move generator, search and frontend checks

    A shallow embedding of [Chinese_chess_with_elysia.cpp] and the proofs of
    its specified properties.

    Conventions of the embedding:
    - [Piece] is [char] in the source and [ascii] here;
    - [int32_t] coordinates are [Z]; every coordinate the program computes
      stays within a few units of the 14 x 13 storage, so no wrap-around
      can occur on them; scores are [Z] kept in the [int32_t] range by
      [wrap32] where the source adds;
    - [Board::data] is a [std::string] of [row_num * col_num] characters,
      here a [list Piece] read with [!!] and written with [<[_:=_]>];
    - the generators append to one [std::vector<Move>]; here each generator
      returns the block of moves it appends and its caller concatenates the
      blocks in call order;
    - the search mutates one board through [move]/[undo]; here the board is
      passed through every call and returned with the score. *)

From Stdlib Require Import ZArith Ascii String Lia Bool.
From stdpp Require Import base tactics option list numbers.

Local Open Scope Z_scope.

(** ** Pieces, sides and types *)

Inductive Side := Side_up | Side_down | Side_extra.

Inductive PieceType :=
  | Type_pawn | Type_cannon | Type_rook | Type_knight | Type_bishop
  | Type_advisor | Type_general | Type_empty | Type_out.

Definition Piece := ascii.

Definition P_UP : Piece := "P"%char.
Definition P_UC : Piece := "C"%char.
Definition P_UR : Piece := "R"%char.
Definition P_UN : Piece := "N"%char.
Definition P_UB : Piece := "B"%char.
Definition P_UA : Piece := "A"%char.
Definition P_UG : Piece := "G"%char.
Definition P_DP : Piece := "p"%char.
Definition P_DC : Piece := "c"%char.
Definition P_DR : Piece := "r"%char.
Definition P_DN : Piece := "n"%char.
Definition P_DB : Piece := "b"%char.
Definition P_DA : Piece := "a"%char.
Definition P_DG : Piece := "g"%char.
Definition P_EE : Piece := "."%char.
Definition P_EO : Piece := "#"%char.

Definition piece_eqb (p q : Piece) : bool := Ascii.eqb p q.

Definition piece_side (p : Piece) : Side :=
  match p with
  | "P"%char | "C"%char | "R"%char | "N"%char | "B"%char | "A"%char
  | "G"%char => Side_up
  | "p"%char | "c"%char | "r"%char | "n"%char | "b"%char | "a"%char
  | "g"%char => Side_down
  | _ => Side_extra
  end.

Definition piece_type (p : Piece) : PieceType :=
  if piece_eqb p P_UP || piece_eqb p P_DP then Type_pawn
  else if piece_eqb p P_UC || piece_eqb p P_DC then Type_cannon
  else if piece_eqb p P_UR || piece_eqb p P_DR then Type_rook
  else if piece_eqb p P_UN || piece_eqb p P_DN then Type_knight
  else if piece_eqb p P_UB || piece_eqb p P_DB then Type_bishop
  else if piece_eqb p P_UA || piece_eqb p P_DA then Type_advisor
  else if piece_eqb p P_UG || piece_eqb p P_DG then Type_general
  else if piece_eqb p P_EE then Type_empty
  else Type_out.

Definition side_eqb (a b : Side) : bool :=
  match a, b with
  | Side_up, Side_up | Side_down, Side_down | Side_extra, Side_extra => true
  | _, _ => false
  end.

(** The source asserts [s != Side::extra]; with assertions compiled out the
    [else] branch answers [Side::up] for it. *)
Definition piece_side_reverse (s : Side) : Side :=
  match s with
  | Side_up => Side_down
  | _ => Side_up
  end.

(** ** Positions, moves, history *)

Record Pos := mkPos { row : Z; col : Z }.

Record Move := mkMove { from : Pos; to : Pos }.

Definition Move4 (beginRow beginCol endRow endCol : Z) : Move :=
  mkMove (mkPos beginRow beginCol) (mkPos endRow endCol).

(** [Move()]: both positions default to (0, 0). *)
Definition Move0 : Move := Move4 0 0 0 0.

Definition pos_eqb (a b : Pos) : bool :=
  (row a =? row b) && (col a =? col b).

Definition move_eqb (a b : Move) : bool :=
  pos_eqb (from a) (from b) && pos_eqb (to a) (to b).

Record HistoryNode := mkHistoryNode { mv : Move; fp : Piece; tp : Piece }.

(** ** Board *)

Definition row_num : Z := 14.
Definition col_num : Z := 13.
Definition real_row_num : Z := 10.
Definition real_col_num : Z := 9.
Definition row_begin : Z := 2.
Definition col_begin : Z := 2.
Definition row_end : Z := 11.
Definition col_end : Z := 10.
Definition river_up : Z := 6.
Definition river_down : Z := 7.
Definition nine_palace_up_top : Z := 2.
Definition nine_palace_up_bottom : Z := 4.
Definition nine_palace_up_left : Z := 5.
Definition nine_palace_up_right : Z := 7.
Definition nine_palace_down_top : Z := 9.
Definition nine_palace_down_bottom : Z := 11.
Definition nine_palace_down_left : Z := 5.
Definition nine_palace_down_right : Z := 7.

Record Board := mkBoard { data : list Piece; history : list HistoryNode }.

(** [data[r * col_num + c]].  Indexing a [std::string] outside its length is
    undefined in C++; the model reads the sentinel there and leaves the
    string alone on a write.  On a well-formed board (see [wf_board]) the
    generators never index outside the storage. *)
Definition cell_index (r c : Z) : option nat :=
  let i := r * col_num + c in
  if 0 <=? i then Some (Z.to_nat i) else None.

Definition get (b : Board) (r c : Z) : Piece :=
  match cell_index r c with
  | Some i => default P_EO (data b !! i)
  | None => P_EO
  end.

Definition get_pos (b : Board) (pos : Pos) : Piece := get b (row pos) (col pos).

Definition set_data (d : list Piece) (r c : Z) (p : Piece) : list Piece :=
  match cell_index r c with
  | Some i => <[i:=p]> d
  | None => d
  end.

Definition set (b : Board) (pos : Pos) (p : Piece) : Board :=
  mkBoard (set_data (data b) (row pos) (col pos) p) (history b).

Definition opening_data : list Piece :=
  list_ascii_of_string
    ("#############" ++
     "#############" ++
     "##RNBAGABNR##" ++
     "##.........##" ++
     "##.C.....C.##" ++
     "##P.P.P.P.P##" ++
     "##.........##" ++
     "##.........##" ++
     "##p.p.p.p.p##" ++
     "##.c.....c.##" ++
     "##.........##" ++
     "##rnbagabnr##" ++
     "#############" ++
     "#############")%string.

(** [Board::clear], which is also what the constructor runs. *)
Definition clear (b : Board) : Board := mkBoard opening_data [].

Definition new_board : Board := mkBoard opening_data [].

Definition move (b : Board) (m : Move) : Board :=
  let fp := get_pos b (from m) in
  let tp := get_pos b (to m) in
  let b1 := mkBoard (data b) (history b ++ [mkHistoryNode m fp tp]) in
  let b2 := set b1 (from m) P_EE in
  set b2 (to m) fp.

Definition undo (b : Board) : Board :=
  match list.last (history b) with
  | Some hist =>
      let b1 := set b (from (mv hist)) (fp hist) in
      let b2 := set b1 (to (mv hist)) (tp hist) in
      mkBoard (data b2) (removelast (history b2))
  | None => b
  end.

Definition interior (r c : Z) : Prop :=
  row_begin <= r <= row_end /\ col_begin <= c <= col_end.

Definition interiorb (r c : Z) : bool :=
  (row_begin <=? r) && (r <=? row_end) && (col_begin <=? c) && (c <=? col_end).

Definition storage_size : nat := Z.to_nat (row_num * col_num).

(** ** Move generator *)

Module MovesGen.

(** A candidate is inserted when its destination is not the sentinel and
    does not hold a piece of the side of the moving piece. *)
Definition check_possible_move_and_insert
    (cb : Board) (beginRow beginCol endRow endCol : Z) : list Move :=
  let beginP := get cb beginRow beginCol in
  let endP := get cb endRow endCol in
  if negb (piece_eqb endP P_EO)
     && negb (side_eqb (piece_side beginP) (piece_side endP))
  then [Move4 beginRow beginCol endRow endCol]
  else [].

Definition gen_moves_pawn (cb : Board) (r c : Z) (side : Side) : list Move :=
  match side with
  | Side_up =>
      check_possible_move_and_insert cb r c (r + 1) c
      ++ (if r >? river_up
          then check_possible_move_and_insert cb r c r (c - 1)
               ++ check_possible_move_and_insert cb r c r (c + 1)
          else [])
  | Side_down =>
      check_possible_move_and_insert cb r c (r - 1) c
      ++ (if r <? river_down
          then check_possible_move_and_insert cb r c r (c - 1)
               ++ check_possible_move_and_insert cb r c r (c + 1)
          else [])
  | Side_extra => []
  end.

(** The first loop of the cannon and of the rook: ride over empty cells from
    [(row, col)] on, and stop at the first cell that is not empty.  The
    result is the moves emitted and the values of [row], [col] and [p] at
    the [break].  The source loop has no bound of its own and ends at the
    sentinel border; [fuel] bounds the number of cells visited, and a walk
    that exhausts it is treated as having met the sentinel. *)
Fixpoint ride (fuel : nat) (cb : Board) (r c row col rGap cGap : Z)
    : list Move * (Z * Z * Piece) :=
  match fuel with
  | O => ([], (row, col, P_EO))
  | S fuel' =>
      let p := get cb row col in
      if piece_eqb p P_EE
      then
        let '(ms, st) := ride fuel' cb r c (row + rGap) (col + cGap) rGap cGap in
        (Move4 r c row col :: ms, st)
      else ([], (row, col, p))
  end.

(** The second loop of the cannon: skip empty cells beyond the screen; the
    first cell that is not empty is a capture when it holds an enemy. *)
Fixpoint jump (fuel : nat) (cb : Board) (r c row col rGap cGap : Z)
    (side : Side) : list Move :=
  match fuel with
  | O => []
  | S fuel' =>
      let p := get cb row col in
      if piece_eqb p P_EE
      then jump fuel' cb r c (row + rGap) (col + cGap) rGap cGap side
      else if side_eqb (piece_side p) (piece_side_reverse side)
      then [Move4 r c row col]
      else []
  end.

(** More cells than any walk inside the storage can visit. *)
Definition walk_fuel : nat := Z.to_nat row_num.

Definition gen_moves_cannon_one_direction
    (cb : Board) (r c rGap cGap : Z) (side : Side) : list Move :=
  let '(ms, (row, col, p)) :=
    ride walk_fuel cb r c (r + rGap) (c + cGap) rGap cGap in
  ms ++ (if negb (piece_eqb p P_EO)
         then jump walk_fuel cb r c (row + rGap) (col + cGap) rGap cGap side
         else []).

Definition gen_moves_cannon (cb : Board) (r c : Z) (side : Side) : list Move :=
  gen_moves_cannon_one_direction cb r c (-1) 0 side
  ++ gen_moves_cannon_one_direction cb r c 1 0 side
  ++ gen_moves_cannon_one_direction cb r c 0 (-1) side
  ++ gen_moves_cannon_one_direction cb r c 0 1 side.

Definition gen_moves_rook_one_direction
    (cb : Board) (r c rGap cGap : Z) (side : Side) : list Move :=
  let '(ms, (row, col, p)) :=
    ride walk_fuel cb r c (r + rGap) (c + cGap) rGap cGap in
  ms ++ (if side_eqb (piece_side p) (piece_side_reverse side)
         then [Move4 r c row col]
         else []).

Definition gen_moves_rook (cb : Board) (r c : Z) (side : Side) : list Move :=
  gen_moves_rook_one_direction cb r c (-1) 0 side
  ++ gen_moves_rook_one_direction cb r c 1 0 side
  ++ gen_moves_rook_one_direction cb r c 0 (-1) side
  ++ gen_moves_rook_one_direction cb r c 0 1 side.

Definition gen_moves_knight (cb : Board) (r c : Z) (side : Side) : list Move :=
  (if piece_eqb (get cb (r + 1) c) P_EE
   then check_possible_move_and_insert cb r c (r + 2) (c + 1)
        ++ check_possible_move_and_insert cb r c (r + 2) (c - 1)
   else [])
  ++ (if piece_eqb (get cb (r - 1) c) P_EE
      then check_possible_move_and_insert cb r c (r - 2) (c + 1)
           ++ check_possible_move_and_insert cb r c (r - 2) (c - 1)
      else [])
  ++ (if piece_eqb (get cb r (c + 1)) P_EE
      then check_possible_move_and_insert cb r c (r + 1) (c + 2)
           ++ check_possible_move_and_insert cb r c (r - 1) (c + 2)
      else [])
  ++ (if piece_eqb (get cb r (c - 1)) P_EE
      then check_possible_move_and_insert cb r c (r + 1) (c - 2)
           ++ check_possible_move_and_insert cb r c (r - 1) (c - 2)
      else []).

(** One diagonal of the bishop: the eye [(r + dr, c + dc)] must be empty. *)
Definition bishop_step (cb : Board) (r c dr dc : Z) : list Move :=
  if piece_eqb (get cb (r + dr) (c + dc)) P_EE
  then check_possible_move_and_insert cb r c (r + 2 * dr) (c + 2 * dc)
  else [].

Definition gen_moves_bishop (cb : Board) (r c : Z) (side : Side) : list Move :=
  match side with
  | Side_up =>
      (if r + 2 <=? river_up
       then bishop_step cb r c 1 1 ++ bishop_step cb r c 1 (-1)
       else [])
      ++ bishop_step cb r c (-1) 1
      ++ bishop_step cb r c (-1) (-1)
  | Side_down =>
      (if r - 2 >=? river_down
       then bishop_step cb r c (-1) 1 ++ bishop_step cb r c (-1) (-1)
       else [])
      ++ bishop_step cb r c 1 1
      ++ bishop_step cb r c 1 (-1)
  | Side_extra => []
  end.

Definition palace_top (side : Side) : Z :=
  match side with Side_up => nine_palace_up_top | _ => nine_palace_down_top end.
Definition palace_bottom (side : Side) : Z :=
  match side with Side_up => nine_palace_up_bottom | _ => nine_palace_down_bottom end.
Definition palace_left (side : Side) : Z :=
  match side with Side_up => nine_palace_up_left | _ => nine_palace_down_left end.
Definition palace_right (side : Side) : Z :=
  match side with Side_up => nine_palace_up_right | _ => nine_palace_down_right end.

(** The two branches of the source differ only in the palace constants. *)
Definition gen_moves_advisor (cb : Board) (r c : Z) (side : Side) : list Move :=
  match side with
  | Side_extra => []
  | _ =>
      (if (r + 1 <=? palace_bottom side) && (c + 1 <=? palace_right side)
       then check_possible_move_and_insert cb r c (r + 1) (c + 1) else [])
      ++ (if (r + 1 <=? palace_bottom side) && (c - 1 >=? palace_left side)
          then check_possible_move_and_insert cb r c (r + 1) (c - 1) else [])
      ++ (if (r - 1 >=? palace_top side) && (c + 1 <=? palace_right side)
          then check_possible_move_and_insert cb r c (r - 1) (c + 1) else [])
      ++ (if (r - 1 >=? palace_top side) && (c - 1 >=? palace_left side)
          then check_possible_move_and_insert cb r c (r - 1) (c - 1) else [])
  end.

(** The facing-generals loop: from [row] walk by [step] over [n] rows at
    most (the rows up to [row_end], or down to [row_begin]); empty cells are
    skipped and the walk ends at the first cell that is not empty, which is
    a destination when it is the general [target]. *)
Fixpoint facing (n : nat) (cb : Board) (r c row step : Z) (target : Piece)
    : list Move :=
  match n with
  | O => []
  | S n' =>
      let p := get cb row c in
      if piece_eqb p P_EE then facing n' cb r c (row + step) step target
      else if piece_eqb p target then [Move4 r c row c]
      else []
  end.

Definition gen_moves_general (cb : Board) (r c : Z) (side : Side) : list Move :=
  match side with
  | Side_extra => []
  | _ =>
      (if r + 1 <=? palace_bottom side
       then check_possible_move_and_insert cb r c (r + 1) c else [])
      ++ (if r - 1 >=? palace_top side
          then check_possible_move_and_insert cb r c (r - 1) c else [])
      ++ (if c + 1 <=? palace_right side
          then check_possible_move_and_insert cb r c r (c + 1) else [])
      ++ (if c - 1 >=? palace_left side
          then check_possible_move_and_insert cb r c r (c - 1) else [])
      ++ match side with
         | Side_up =>
             facing (Z.to_nat (row_end - r)) cb r c (r + 1) 1 P_DG
         | _ =>
             facing (Z.to_nat (r - row_begin)) cb r c (r - 1) (-1) P_UG
         end
  end.

(** What the double loop does at one interior cell. *)
Definition gen_cell (cb : Board) (side : Side) (r c : Z) : list Move :=
  let p := get cb r c in
  if side_eqb (piece_side p) side then
    match piece_type p with
    | Type_pawn => gen_moves_pawn cb r c side
    | Type_cannon => gen_moves_cannon cb r c side
    | Type_rook => gen_moves_rook cb r c side
    | Type_knight => gen_moves_knight cb r c side
    | Type_bishop => gen_moves_bishop cb r c side
    | Type_advisor => gen_moves_advisor cb r c side
    | Type_general => gen_moves_general cb r c side
    | _ => []
    end
  else [].

(** The source first asserts [side != Side::extra] and aborts when the
    assertion fails.  The definition is the double loop that follows the
    assertion; it stands for the function on [Side_up] and [Side_down], the
    two sides that pass it. *)
Definition gen_possible_moves (cb : Board) (side : Side) : list Move :=
  flat_map
    (fun r => flat_map (fun c => gen_cell cb side r c) (seqZ col_begin real_col_num))
    (seqZ row_begin real_row_num).

End MovesGen.

(** ** Evaluator *)

Definition INT32_MIN : Z := - 2 ^ 31.
Definition INT32_MAX : Z := 2 ^ 31 - 1.

(** [int32_t] addition as two's complement hardware performs it. *)
Definition wrap32 (z : Z) : Z := (z + 2 ^ 31) mod 2 ^ 32 - 2 ^ 31.

(** The two process-wide maps that [ScoreEvaluator::init_values] fills from
    the weight files.  The files are not part of the sources, so the tables
    are a parameter of everything that evaluates. *)
Record Tables := mkTables {
  piece_value_mapping : Piece -> Z;
  piece_pos_value_mapping : Piece -> Z -> Z -> Z
}.

Definition interior_cells : list (Z * Z) :=
  flat_map (fun r => map (fun c => (r, c)) (seqZ col_begin real_col_num))
           (seqZ row_begin real_row_num).

Module ScoreEvaluator.

Definition evaluate (tb : Tables) (board : Board) : Z :=
  fold_left
    (fun totalScore '(r, c) =>
       let p := get board r c in
       if negb (piece_eqb p P_EE) then
         let totalScore := wrap32 (totalScore + piece_value_mapping tb p) in
         wrap32 (totalScore
                 + piece_pos_value_mapping tb p (r - row_begin) (c - col_begin))
       else totalScore)
    interior_cells 0.

End ScoreEvaluator.

(** ** Search *)

(** The loops of [min_max] and of the root, over the recursive call [rec]. *)
Section SearchLoops.

Variable rec : Board -> Z -> Z -> Z * Board.

Fixpoint max_loop (beta : Z) (moves : list Move) (board : Board)
    (maxValue alpha : Z) : Z * Board :=
  match moves with
  | [] => (maxValue, board)
  | mv :: rest =>
      let '(v, board) := rec (move board mv) alpha beta in
      let maxValue := Z.max maxValue v in
      let board := undo board in
      let alpha := Z.max alpha maxValue in
      if alpha >=? beta then (maxValue, board)
      else max_loop beta rest board maxValue alpha
  end.

Fixpoint min_loop (alpha : Z) (moves : list Move) (board : Board)
    (minValue beta : Z) : Z * Board :=
  match moves with
  | [] => (minValue, board)
  | mv :: rest =>
      let '(v, board) := rec (move board mv) alpha beta in
      let minValue := Z.min minValue v in
      let board := undo board in
      let beta := Z.min beta minValue in
      if alpha >=? beta then (minValue, board)
      else min_loop alpha rest board minValue beta
  end.

(** The root loops: [alpha] and [beta] are never updated there. *)
Fixpoint root_min_loop (alpha beta : Z) (moves : list Move) (board : Board)
    (minValue : Z) (bestMove : Move) : Z * Move * Board :=
  match moves with
  | [] => (minValue, bestMove, board)
  | mv :: rest =>
      let '(temp, board) := rec (move board mv) alpha beta in
      let board := undo board in
      if temp <=? minValue
      then root_min_loop alpha beta rest board temp mv
      else root_min_loop alpha beta rest board minValue bestMove
  end.

Fixpoint root_max_loop (alpha beta : Z) (moves : list Move) (board : Board)
    (maxValue : Z) (bestMove : Move) : Z * Move * Board :=
  match moves with
  | [] => (maxValue, bestMove, board)
  | mv :: rest =>
      let '(temp, board) := rec (move board mv) alpha beta in
      let board := undo board in
      if temp >=? maxValue
      then root_max_loop alpha beta rest board temp mv
      else root_max_loop alpha beta rest board maxValue bestMove
  end.

End SearchLoops.

Module BestMoveGen.

Fixpoint min_max (tb : Tables) (searchDepth : nat) (board : Board)
    (alpha beta : Z) (isMax : bool) : Z * Board :=
  match searchDepth with
  | O => (ScoreEvaluator.evaluate tb board, board)
  | S depth' =>
      if isMax then
        max_loop (fun b a be => min_max tb depth' b a be (negb isMax))
          beta (MovesGen.gen_possible_moves board Side_down) board
          INT32_MIN alpha
      else
        min_loop (fun b a be => min_max tb depth' b a be (negb isMax))
          alpha (MovesGen.gen_possible_moves board Side_up) board
          INT32_MAX beta
  end.

(** The loop of [gen], with the best value it holds at the end. *)
Definition gen_search (tb : Tables) (board : Board) (s : Side)
    (searchDepth : nat) : Z * Move * Board :=
  let alpha := INT32_MIN in
  let beta := INT32_MAX in
  match s with
  | Side_up =>
      root_min_loop (fun b a be => min_max tb searchDepth b a be true)
        alpha beta (MovesGen.gen_possible_moves board Side_up) board
        INT32_MAX Move0
  | _ =>
      root_max_loop (fun b a be => min_max tb searchDepth b a be false)
        alpha beta (MovesGen.gen_possible_moves board Side_down) board
        INT32_MIN Move0
  end.

Definition gen (tb : Tables) (board : Board) (s : Side) (searchDepth : nat)
    : Move :=
  snd (fst (gen_search tb board s searchDepth)).

End BestMoveGen.

Module BestMoveGenParallel.

Definition split_chunk_num : nat := 32.

(** [split_vector].  With an empty [vec] the source sets [chunkNum] to 0 and
    its loop bound [chunkNum - 1] wraps around in [size_t]: the call does
    not return a result, which is [None] here.  A chunk is the block of
    moves a [std::span] covers. *)
Definition split_vector (vec : list Move) (chunkNum : nat)
    : option (list (list Move)) :=
  let chunkLength := (length vec / chunkNum)%nat in
  let '(chunkNum, chunkLength) :=
    if (chunkLength =? 0)%nat then (length vec, 1%nat)
    else (chunkNum, chunkLength) in
  match chunkNum with
  | O => None
  | S last_counter =>
      Some (map (fun counter => take chunkLength (drop (counter * chunkLength) vec))
                (seq 0 last_counter)
            ++ [drop (last_counter * chunkLength) vec])
  end.

(** The source repeats [BestMoveGen::min_max] word for word. *)
Fixpoint min_max (tb : Tables) (searchDepth : nat) (board : Board)
    (alpha beta : Z) (isMax : bool) : Z * Board :=
  match searchDepth with
  | O => (ScoreEvaluator.evaluate tb board, board)
  | S depth' =>
      if isMax then
        max_loop (fun b a be => min_max tb depth' b a be (negb isMax))
          beta (MovesGen.gen_possible_moves board Side_down) board
          INT32_MIN alpha
      else
        min_loop (fun b a be => min_max tb depth' b a be (negb isMax))
          alpha (MovesGen.gen_possible_moves board Side_up) board
          INT32_MAX beta
  end.

(** The value of [(float) z] for an [int32_t] [z]: the nearest number with
    a 24-bit significand, ties to even.  It is an integer, so the [float]
    accumulator of the reducer is followed exactly. *)
Definition float_of_int32 (z : Z) : Z :=
  let a := Z.abs z in
  if a <? 2 ^ 24 then z
  else
    let e := Z.log2 a - 23 in
    let q := a / 2 ^ e in
    let rem := a mod 2 ^ e in
    let half := 2 ^ (e - 1) in
    let q' := if (half <? rem) || ((rem =? half) && Z.odd q) then q + 1 else q in
    Z.sgn z * (q' * 2 ^ e).

(** One task for the upper side: it works on its own copy of the board. *)
Definition task_up (tb : Tables) (board : Board) (searchDepth : nat)
    (chunk : list Move) : Move * Z :=
  let tempBoard := board in
  let '(minValue, bestMove, _) :=
    root_min_loop (fun b a be => min_max tb searchDepth b a be true)
      INT32_MIN INT32_MAX chunk tempBoard INT32_MAX Move0 in
  (bestMove, minValue).

(** One task for the lower side; the recursive call is made with
    [isMax = true] here as well. *)
Definition task_down (tb : Tables) (board : Board) (searchDepth : nat)
    (chunk : list Move) : Move * Z :=
  let tempBoard := board in
  let '(maxValue, bestMove, _) :=
    root_max_loop (fun b a be => min_max tb searchDepth b a be true)
      INT32_MIN INT32_MAX chunk tempBoard INT32_MIN Move0 in
  (bestMove, maxValue).

(** The reducers.  [minVal] and [maxVal] are [float] in the source, so every
    comparison converts the [int32_t] on its left.  [minIndex] has no
    initial value in the source: it is [None] until first assigned. *)
Fixpoint reduce_min (bestValues : list Z) (i : nat) (minVal : Z)
    (minIndex : option nat) : Z * option nat :=
  match bestValues with
  | [] => (minVal, minIndex)
  | v :: rest =>
      if float_of_int32 v <=? minVal
      then reduce_min rest (S i) (float_of_int32 v) (Some i)
      else reduce_min rest (S i) minVal minIndex
  end.

Fixpoint reduce_max (bestValues : list Z) (i : nat) (maxVal : Z)
    (maxIndex : option nat) : Z * option nat :=
  match bestValues with
  | [] => (maxVal, maxIndex)
  | v :: rest =>
      if float_of_int32 v >=? maxVal
      then reduce_max rest (S i) (float_of_int32 v) (Some i)
      else reduce_max rest (S i) maxVal maxIndex
  end.

(** The tasks write to separate slots of [bestMoves] and [bestValues] and
    are all joined before the reduction, so their results are the map of the
    task over the chunks.  The result is the chosen move with the value
    [bestValues] holds for it. *)
Definition gen_search (tb : Tables) (board : Board) (s : Side)
    (searchDepth : nat) : option (Move * Z) :=
  match s with
  | Side_up =>
      splitMoves ← split_vector (MovesGen.gen_possible_moves board Side_up)
                                split_chunk_num;
      let results := map (task_up tb board searchDepth) splitMoves in
      minIndex ← snd (reduce_min (map snd results) 0
                                 (float_of_int32 INT32_MAX) None);
      results !! minIndex
  | _ =>
      splitMoves ← split_vector (MovesGen.gen_possible_moves board Side_down)
                                split_chunk_num;
      let results := map (task_down tb board searchDepth) splitMoves in
      maxIndex ← snd (reduce_max (map snd results) 0
                                 (float_of_int32 INT32_MIN) None);
      results !! maxIndex
  end.

Definition gen (tb : Tables) (board : Board) (s : Side) (searchDepth : nat)
    : option Move :=
  fst <$> gen_search tb board s searchDepth.

End BestMoveGenParallel.

(** ** Game frontend *)

Record Game := mkGame {
  board : Board;
  searchDepth : nat;
  userSide : Side;
  elysiaSide : Side;
  running : bool
}.

(** What [handle_move] prints, and [search_failed] for an engine search
    that returns no move. *)
Inductive Outcome :=
  | unknown_command
  | not_your_piece
  | not_fit_rule
  | user_wins
  | elysia_wins
  | elysia_moved (m : Move)
  | search_failed.

Module GameOps.

Definition new_game : Game := mkGame new_board 3 Side_down Side_up true.

Definition check_rule (g : Game) (m : Move) : bool :=
  existsb (move_eqb m) (MovesGen.gen_possible_moves (board g) (userSide g)).

(** [lo <= ch && ch <= hi] on characters.  All four bounds are ASCII, so the
    signedness of [char] does not change the answer. *)
Definition char_between (lo hi ch : ascii) : bool :=
  ((N_of_ascii lo <=? N_of_ascii ch) && (N_of_ascii ch <=? N_of_ascii hi))%N.

Definition is_input_a_move (input : string) : bool :=
  if (String.length input <? 4)%nat then false
  else
    match String.get 0 input, String.get 1 input,
          String.get 2 input, String.get 3 input with
    | Some c0, Some c1, Some c2, Some c3 =>
        char_between "a" "i" c0 && char_between "0" "9" c1
        && char_between "a" "i" c2 && char_between "0" "9" c3
    | _, _, _, _ => false
    end.

Definition char_diff (ch base : ascii) : Z :=
  Z.of_N (N_of_ascii ch) - Z.of_N (N_of_ascii base).

Definition char_at (input : string) (i : nat) : ascii :=
  default zero (String.get i input).

Definition input_to_move (input : string) : Move :=
  Move4 (row_begin + 9 - char_diff (char_at input 1) "0")
        (col_begin + char_diff (char_at input 0) "a")
        (row_begin + 9 - char_diff (char_at input 3) "0")
        (col_begin + char_diff (char_at input 2) "a").

Definition palace_has (b : Board) (top left : Z) (p : Piece) : bool :=
  existsb (fun r => existsb (fun c => piece_eqb (get b r c) p) (seqZ left 3))
          (seqZ top 3).

Definition is_win (b : Board) (s : Side) : bool :=
  let up_general_alive :=
    palace_has b nine_palace_up_top nine_palace_up_left P_UG in
  let down_general_alive :=
    palace_has b nine_palace_down_top nine_palace_down_left P_DG in
  if up_general_alive && down_general_alive then false
  else match s with
       | Side_up => up_general_alive
       | _ => down_general_alive
       end.

Definition with_board (g : Game) (b : Board) (run : bool) : Game :=
  mkGame b (searchDepth g) (userSide g) (elysiaSide g) run.

Definition handle_move (tb : Tables) (g : Game) (input : string)
    : Game * Outcome :=
  if negb (is_input_a_move input) then (g, unknown_command)
  else
    let m := input_to_move input in
    if negb (side_eqb (piece_side (get_pos (board g) (from m))) (userSide g))
    then (g, not_your_piece)
    else if negb (check_rule g m) then (g, not_fit_rule)
    else
      let b1 := move (board g) m in
      if is_win b1 (userSide g) then (with_board g b1 false, user_wins)
      else
        match BestMoveGenParallel.gen tb b1 (elysiaSide g) (searchDepth g) with
        | None => (with_board g b1 (running g), search_failed)
        | Some elysiaMove =>
            let b2 := move b1 elysiaMove in
            if is_win b2 (elysiaSide g)
            then (with_board g b2 false, elysia_wins)
            else (with_board g b2 (running g), elysia_moved elysiaMove)
        end.

End GameOps.


(** ** Well-formed boards and the notions the generator properties use *)

(** The storage has its full size, the two-cell border holds the sentinel
    and no interior cell does. *)
Definition wf_board (b : Board) : bool :=
  (length (data b) =? storage_size)%nat
  && forallb
       (fun r =>
          forallb
            (fun c => eqb (piece_eqb (get b r c) P_EO) (negb (interiorb r c)))
            (seqZ 0 col_num))
       (seqZ 0 row_num).

(** The four directions a cannon or a rook walks in. *)
Definition cardinal (rGap cGap : Z) : Prop :=
  (rGap = -1 /\ cGap = 0) \/ (rGap = 1 /\ cGap = 0)
  \/ (rGap = 0 /\ cGap = -1) \/ (rGap = 0 /\ cGap = 1).

(** The cell [k] steps away from [(r, c)] in a direction. *)
Definition cell_at (b : Board) (r c rGap cGap k : Z) : Piece :=
  get b (r + k * rGap) (c + k * cGap).

(** The move from [(r, c)] to the cell [k] steps away. *)
Definition move_at (r c rGap cGap k : Z) : Move :=
  Move4 r c (r + k * rGap) (c + k * cGap).

(** The moves from [(r, c)] to the cells 1, ..., [n] steps away, nearest
    first. *)
Definition rides (r c rGap cGap : Z) (n : nat) : list Move :=
  map (move_at r c rGap cGap) (seqZ 1 (Z.of_nat n)).

(** The acceptance test of [check_possible_move_and_insert], as a
    proposition: the destination is not the sentinel and holds no piece of
    the side of the piece that moves. *)
Definition accepted (b : Board) (r c tr tc : Z) : Prop :=
  get b tr tc <> P_EO /\ piece_side (get b r c) <> piece_side (get b tr tc).

(** The horse leg of an L-shaped step, in the words of the rule: the leg of
    a (+-2, +-1) step is the (+-1, 0) neighbour, the leg of a (+-1, +-2)
    step is the (0, +-1) neighbour; no other step is a knight step. *)
Definition knight_leg (dr dc : Z) : option (Z * Z) :=
  if (Z.abs dr =? 2) && (Z.abs dc =? 1) then Some (Z.sgn dr, 0)
  else if (Z.abs dr =? 1) && (Z.abs dc =? 2) then Some (0, Z.sgn dc)
  else None.

(** What every pseudo-move of side [s] satisfies: it leaves an interior cell
    that holds a piece of [s] and arrives on another interior cell, which
    is not the sentinel and holds no piece of [s]. *)
Definition good_move (cb : Board) (s : Side) (m : Move) : Prop :=
  interior (row (from m)) (col (from m))
  /\ piece_side (get_pos cb (from m)) = s
  /\ interior (row (to m)) (col (to m))
  /\ get_pos cb (to m) <> P_EO
  /\ piece_side (get_pos cb (to m)) <> s
  /\ from m <> to m.

(** Every bishop stands on its own side of the river. *)
Definition bishops_at_home (b : Board) : Prop :=
  forall r c, interior r c ->
    (get b r c = P_UB -> r <= river_up)
    /\ (get b r c = P_DB -> r >= river_down).

Definition bishops_at_homeb (b : Board) : bool :=
  forallb
    (fun '(r, c) =>
       (negb (piece_eqb (get b r c) P_UB) || (r <=? river_up))
       && (negb (piece_eqb (get b r c) P_DB) || (r >=? river_down)))
    interior_cells.

(** ** Play from the opening *)

(** A game played from a position: the sides alternate and every move is
    taken from the pseudo-move list of the side to move. *)
Fixpoint play (b : Board) (s : Side) (ms : list Move) : option Board :=
  match ms with
  | [] => Some b
  | m :: rest =>
      if existsb (move_eqb m) (MovesGen.gen_possible_moves b s)
      then play (move b m) (piece_side_reverse s) rest
      else None
  end.

(** A position is reachable when some game from the opening ends in it. *)
Definition reachable (b : Board) : Prop :=
  exists s ms, s <> Side_extra /\ play new_board s ms = Some b.

(** ** Scores at the root *)

(** The score the sequential root gives to a root move: the child is
    searched with the full window, as a maximizing node after a move of the
    upper side and as a minimizing node after a move of the lower side. *)
Definition child_score (tb : Tables) (board : Board) (s : Side)
    (searchDepth : nat) (m : Move) : Z :=
  fst (BestMoveGen.min_max tb searchDepth (move board m) INT32_MIN INT32_MAX
         (side_eqb s Side_up)).

(** The value the root loop reads for a move: the first component of the
    recursive call on the board after the move. *)
Definition root_score (rec : Board -> Z -> Z -> Z * Board) (alpha beta : Z)
    (board : Board) (m : Move) : Z :=
  fst (rec (move board m) alpha beta).

(** ** The wire form of a move *)

(** The wire form of a move, in the words of the specification: files are
    the letters a to i and ranks the digits 0 to 9. *)
Definition is_file (ch : ascii) : Prop :=
  (N_of_ascii "a" <= N_of_ascii ch <= N_of_ascii "i")%N.

Definition is_rank (ch : ascii) : Prop :=
  (N_of_ascii "0" <= N_of_ascii ch <= N_of_ascii "9")%N.

(** Exactly four characters: file, rank, file, rank. *)
Definition exact_move_form (input : string) : Prop :=
  exists f1 r1 f2 r2,
    input = String f1 (String r1 (String f2 (String r2 EmptyString)))
    /\ is_file f1 /\ is_rank r1 /\ is_file f2 /\ is_rank r2.

(** File, rank, file, rank, followed by anything. *)
Definition move_form_prefix (input : string) : Prop :=
  exists f1 r1 f2 r2 rest,
    input = String f1 (String r1 (String f2 (String r2 rest)))
    /\ is_file f1 /\ is_rank r1 /\ is_file f2 /\ is_rank r2.

(** ** Concrete positions, games and weight tables *)

(** A board built from the text of its fourteen rows, with no history. *)
Definition board_of_rows (rows : list string) : Board :=
  mkBoard (flat_map list_ascii_of_string rows) [].


(** An endgame: the lower rook can take a pawn that the upper rook guards.
    The generals stand on different files and an advisor covers the upper
    general. *)
Definition guarded_pawn_board : Board :=
  board_of_rows
    ["#############"; "#############";
     "##R...G....##";
     "##....A....##";
     "##.........##";
     "##P........##";
     "##.........##";
     "##.........##";
     "##r........##";
     "##.........##";
     "##.........##";
     "##.....g...##";
     "#############"; "#############"]%string.

(** Only the upper general is left: the lower side has no move. *)
Definition lone_general_board : Board :=
  board_of_rows
    ["#############"; "#############";
     "##....G....##";
     "##.........##";
     "##.........##";
     "##.........##";
     "##.........##";
     "##.........##";
     "##.........##";
     "##.........##";
     "##.........##";
     "##.........##";
     "#############"; "#############"]%string.

(** A game from the opening that clears the middle file: the lower middle
    pawn advances, takes the upper middle pawn and steps aside. *)
Definition open_file_game : list Move :=
  [Move4 8 6 7 6; Move4 5 6 6 6; Move4 7 6 6 6; Move4 5 2 6 2; Move4 6 6 6 5].

(** The upper general's capture along the open file. *)
Definition flying_capture : Move := Move4 2 6 11 6.

(** Weight tables that count material only: a piece is worth its usual
    exchange value, negative for the upper side and positive for the lower
    side as in [piece_value.txt], and every positional bonus is 0. *)
Definition material_value (p : Piece) : Z :=
  let v := match piece_type p with
           | Type_pawn => 1
           | Type_cannon => 4
           | Type_rook => 9
           | Type_knight => 4
           | Type_bishop => 2
           | Type_advisor => 2
           | Type_general => 100
           | _ => 0
           end in
  match piece_side p with
  | Side_up => - v
  | Side_down => v
  | Side_extra => 0
  end.

Definition material_tables : Tables :=
  mkTables material_value (fun _ _ _ => 0).

(** ** The last move of least score *)

(** [m] is the last move of [l], in list order, among those of least score
    [v] under [f]. *)
Definition last_min (f : Move -> Z) (l : list Move) (v : Z) (m : Move) : Prop :=
  exists i : nat,
    l !! i = Some m /\ v = f m
    /\ (forall (j : nat) mv, l !! j = Some mv -> f m <= f mv)
    /\ (forall (j : nat) mv, l !! j = Some mv -> (i < j)%nat -> f m < f mv).

(** ** The rest of the frontend *)

(** [static_cast<char>] of an [int]; the values it is given for a move on
    the board are ASCII letters and digits, other values are reduced modulo
    256. *)
Definition char_of_int (z : Z) : ascii := ascii_of_N (Z.to_N (z mod 256)).

Definition char_code (ch : ascii) : Z := Z.of_N (N_of_ascii ch).

(** [Game::desc_move]: the four characters appended to [buf]. *)
Definition desc_move (m : Move) : string :=
  String (char_of_int (col (from m) - col_begin + char_code "a"))
    (String (char_of_int (9 - (row (from m) - row_begin) + char_code "0"))
       (String (char_of_int (col (to m) - col_begin + char_code "a"))
          (String (char_of_int (9 - (row (to m) - row_begin) + char_code "0"))
             EmptyString))).

(** [Game::show_prompt]: the move suggested to the user; the board is not
    changed. *)
Definition show_prompt (tb : Tables) (g : Game) : option Move :=
  BestMoveGenParallel.gen tb (board g) (userSide g) (searchDepth g).

(** What one turn of the loop of [Game::run] answers. *)
Inductive Reply :=
  | reply_help
  | reply_undone
  | reply_bye
  | reply_remade
  | reply_prompt (m : option Move)
  | reply_move (o : Outcome).

(** One turn of the loop of [Game::run] on the line read. *)
Definition run_command (tb : Tables) (g : Game) (input : string)
    : Game * Reply :=
  if String.eqb input "help" then (g, reply_help)
  else if String.eqb input "undo" then
    (GameOps.with_board g (undo (undo (board g))) (running g), reply_undone)
  else if String.eqb input "quit" then (g, reply_bye)
  else if String.eqb input "exit" then (g, reply_bye)
  else if String.eqb input "remake" then
    (GameOps.with_board g (clear (board g)) (running g), reply_remade)
  else if String.eqb input "prompt" then (g, reply_prompt (show_prompt tb g))
  else
    let '(g', o) := GameOps.handle_move tb g input in
    (g', reply_move o).

(** ** Reference notions for the search and the rules *)

(** Minimax without pruning, the reference the alpha-beta search is
    compared with: the evaluation at depth 0, otherwise the greatest value
    of the children for the lower side to move and the least for the upper
    side, over the pseudo-moves in generator order, starting from
    [INT32_MIN] and [INT32_MAX]. *)
Fixpoint minimax (tb : Tables) (depth : nat) (board : Board) (isMax : bool)
    : Z :=
  match depth with
  | O => ScoreEvaluator.evaluate tb board
  | S depth' =>
      if isMax then
        fold_left (fun acc m => Z.max acc (minimax tb depth' (move board m) false))
                  (MovesGen.gen_possible_moves board Side_down) INT32_MIN
      else
        fold_left (fun acc m => Z.min acc (minimax tb depth' (move board m) true))
                  (MovesGen.gen_possible_moves board Side_up) INT32_MAX
  end.

(** How a value [v] returned for the window ([alpha], [beta]) stands to the
    exact value [t]: equal inside the window, and on the same side of the
    window, no further out, outside it. *)
Definition window_bounds (v t alpha beta : Z) : Prop :=
  (t <= alpha -> t <= v <= alpha)
  /\ (beta <= t -> beta <= v <= t)
  /\ (alpha < t < beta -> v = t).

(** The general of a side and the cells of its palace. *)
Definition general_of (s : Side) : Piece :=
  match s with Side_up => P_UG | _ => P_DG end.

Definition in_palace (s : Side) (r c : Z) : Prop :=
  MovesGen.palace_top s <= r <= MovesGen.palace_bottom s
  /\ MovesGen.palace_left s <= c <= MovesGen.palace_right s.

(** The board after the moves [ms], applied in order. *)
Definition apply_moves (b : Board) (ms : list Move) : Board :=
  fold_left move ms b.

(** [n] calls of [undo]. *)
Definition undo_times (n : nat) (b : Board) : Board := Nat.iter n undo b.

(** A game on [guarded_pawn_board] with the user on the lower side and the
    engine searching one ply beyond its reply. *)
Definition endgame_game : Game :=
  mkGame guarded_pawn_board 1 Side_down Side_up true.

(** ** The geometry of a move *)

Definition move_dr (m : Move) : Z := row (to m) - row (from m).
Definition move_dc (m : Move) : Z := col (to m) - col (from m).

(** The step a piece of type [t] and side [s] standing on row [r] may take,
    as a difference of rows [dr] and of columns [dc]. *)
Definition obeys_geometry (s : Side) (t : PieceType) (r dr dc : Z) : Prop :=
  match t with
  | Type_pawn =>
      match s with
      | Side_up => (dr = 1 /\ dc = 0) \/ (r > river_up /\ dr = 0 /\ Z.abs dc = 1)
      | Side_down =>
          (dr = -1 /\ dc = 0) \/ (r < river_down /\ dr = 0 /\ Z.abs dc = 1)
      | Side_extra => False
      end
  | Type_cannon | Type_rook => (dr = 0 /\ dc <> 0) \/ (dc = 0 /\ dr <> 0)
  | Type_knight =>
      (Z.abs dr = 2 /\ Z.abs dc = 1) \/ (Z.abs dr = 1 /\ Z.abs dc = 2)
  | Type_bishop => Z.abs dr = 2 /\ Z.abs dc = 2
  | Type_advisor => Z.abs dr = 1 /\ Z.abs dc = 1
  | Type_general =>
      Z.abs dr + Z.abs dc = 1
      \/ (dc = 0 /\ match s with Side_up => 0 < dr | _ => dr < 0 end)
  | Type_empty | Type_out => False
  end.

(** The direction in which the rows of a side advance. *)
Definition forward (s : Side) : Z :=
  match s with Side_up => 1 | _ => -1 end.

(** The lower rook attacks the upper general along an open file; the lower
    general stands on another file. *)
Definition rook_check_board : Board :=
  board_of_rows
    ["#############"; "#############";
     "##....G....##";
     "##.........##";
     "##.........##";
     "##....r....##";
     "##.........##";
     "##.........##";
     "##.........##";
     "##.........##";
     "##.........##";
     "##.....g...##";
     "#############"; "#############"]%string.

(** The place of the cell a move leaves in the scan of the board: rows first,
    then columns. *)
Definition from_index (m : Move) : Z :=
  row (from m) * col_num + col (from m).

(** A list of moves whose departure cells follow the scan order. *)
Definition in_scan_order (l : list Move) : Prop :=
  forall (i j : nat) mi mj,
    (i < j)%nat -> l !! i = Some mi -> l !! j = Some mj ->
    from_index mi <= from_index mj.

(** A game in which the upper bishop of file 4 goes to the bank of the
    river, row [river_up], by way of (4, 6); the upper side moves first. *)
Definition bishop_river_game : list Move :=
  [Move4 2 4 4 6; Move4 8 2 7 2; Move4 4 6 6 8; Move4 7 2 6 2].

(** Two games, the upper side moving first, that make the same four moves
    in a different order (one of them the capture of a knight by a cannon),
    and the positions they end in.  In the second position a cell of the
    border has been overwritten as well. *)
Definition transposed_game_a : list Move :=
  [Move4 4 3 11 3; Move4 8 2 7 2; Move4 2 4 4 6; Move4 8 10 7 10].

Definition transposed_game_b : list Move :=
  [Move4 2 4 4 6; Move4 8 10 7 10; Move4 4 3 11 3; Move4 8 2 7 2].

Definition transposed_position_a : Board :=
  apply_moves new_board transposed_game_a.

Definition transposed_position_b : Board :=
  let b := apply_moves new_board transposed_game_b in
  mkBoard (<[0%nat := P_EE]> (data b)) (history b).

(** Tables that agree with [material_tables] only where the evaluation of
    [transposed_position_a] looks: the value of a piece without a side is
    99 instead of 0, and the positional bonus of a piece on a cell where it
    does not stand in that position is 5 instead of 0. *)
Definition off_path_tables : Tables :=
  mkTables
    (fun p => if side_eqb (piece_side p) Side_extra then 99
              else material_value p)
    (fun p r c =>
       if piece_eqb (get transposed_position_a (r + row_begin) (c + col_begin)) p
       then 0 else 5).

(** * Properties *)

(** ** Board: characters, cells, and the move/undo round trip *)

Ltac unfold_consts :=
  unfold row_num, col_num, real_row_num, real_col_num, row_begin, col_begin,
    row_end, col_end, river_up, river_down, nine_palace_up_top,
    nine_palace_up_bottom, nine_palace_up_left, nine_palace_up_right,
    nine_palace_down_top, nine_palace_down_bottom, nine_palace_down_left,
    nine_palace_down_right in *.

Ltac solve_interior := unfold interior; cbn; unfold_consts; lia.

Lemma piece_eqb_eq (p q : Piece) : piece_eqb p q = true <-> p = q.
Proof. apply Ascii.eqb_eq. Qed.

Lemma piece_eqb_neq (p q : Piece) : piece_eqb p q = false <-> p <> q.
Proof. apply Ascii.eqb_neq. Qed.

Lemma side_eqb_eq (a b : Side) : side_eqb a b = true <-> a = b.
Proof. destruct a, b; simpl; split; congruence. Qed.

Lemma side_eqb_neq (a b : Side) : side_eqb a b = false <-> a <> b.
Proof. destruct a, b; simpl; split; congruence. Qed.

Lemma insert_default_id (d : list Piece) (i : nat) :
  <[i := default P_EO (d !! i)]> d = d.
Proof.
  destruct (d !! i) as [x|] eqn:E; simpl.
  - by apply list_insert_id.
  - apply list_insert_ge. by apply lookup_ge_None.
Qed.

(** Writing back what was read from the two cells restores the storage,
    whether or not the cells coincide. *)
Lemma insert_back (d : list Piece) (i j : nat) (x : Piece) :
  <[j := default P_EO (d !! j)]>
    (<[i := default P_EO (d !! i)]>
       (<[j := default P_EO (d !! i)]> (<[i := x]> d))) = d.
Proof.
  destruct (decide (i = j)) as [->|Hne].
  - rewrite !list_insert_insert_eq. apply insert_default_id.
  - rewrite (list_insert_insert_ne _ i j) by done.
    rewrite !list_insert_insert_eq.
    rewrite insert_default_id. apply insert_default_id.
Qed.

Lemma set_data_back (d : list Piece) (fr fc tr tc : Z) :
  let fp := match cell_index fr fc with
            | Some i => default P_EO (d !! i) | None => P_EO end in
  let tp := match cell_index tr tc with
            | Some i => default P_EO (d !! i) | None => P_EO end in
  set_data (set_data (set_data (set_data d fr fc P_EE) tr tc fp) fr fc fp)
           tr tc tp = d.
Proof.
  unfold set_data.
  destruct (cell_index fr fc) as [i|], (cell_index tr tc) as [j|]; simpl.
  - apply insert_back.
  - rewrite list_insert_insert_eq. apply insert_default_id.
  - rewrite list_insert_insert_eq. apply insert_default_id.
  - done.
Qed.

(** [move] then [undo] is the identity of the model on every board. *)
Lemma undo_move (b : Board) (m : Move) : undo (move b m) = b.
Proof.
  destruct b as [d h], m as [[fr fc] [tr tc]].
  unfold undo, move, set, get_pos, get; simpl.
  rewrite last_snoc; simpl.
  rewrite removelast_last.
  f_equal. apply set_data_back.
Qed.

(** C3. For a board with its full storage and a move between two interior
    positions, [move] followed by [undo] gives back the board: the storage
    is the same, so every cell reads as before, and the history is the
    same sequence. *)
Theorem move_undo_restores (b : Board) (m : Move) :
  length (data b) = storage_size ->
  interior (row (from m)) (col (from m)) ->
  interior (row (to m)) (col (to m)) ->
  undo (move b m) = b
  /\ (forall r c, get (undo (move b m)) r c = get b r c)
  /\ history (undo (move b m)) = history b.
Proof.
  intros _ _ _. rewrite undo_move. done.
Qed.

Lemma move_undo_restores_witness :
  undo (move new_board (Move4 8 6 7 6)) = new_board
  /\ (forall r c, get (undo (move new_board (Move4 8 6 7 6))) r c
                  = get new_board r c)
  /\ history (undo (move new_board (Move4 8 6 7 6))) = history new_board.
Proof.
  apply (move_undo_restores new_board (Move4 8 6 7 6)).
  - reflexivity.
  - solve_interior.
  - solve_interior.
Defined.

(** ** Move generator: the single-step pieces *)

Lemma elem_of_check (cb : Board) (br bc er ec : Z) (m : Move) :
  m ∈ MovesGen.check_possible_move_and_insert cb br bc er ec
  <-> m = Move4 br bc er ec /\ accepted cb br bc er ec.
Proof.
  unfold MovesGen.check_possible_move_and_insert, accepted.
  destruct (piece_eqb (get cb er ec) P_EO) eqn:Ho; simpl.
  - apply piece_eqb_eq in Ho. rewrite elem_of_nil. tauto.
  - apply piece_eqb_neq in Ho.
    destruct (side_eqb _ _) eqn:Hs; simpl.
    + apply side_eqb_eq in Hs. rewrite elem_of_nil. tauto.
    + apply side_eqb_neq in Hs. rewrite list_elem_of_singleton. tauto.
Qed.

Lemma elem_of_gated (cb : Board) (lr lc : Z) (l : list Move) (m : Move) :
  m ∈ (if piece_eqb (get cb lr lc) P_EE then l else [])
  <-> get cb lr lc = P_EE /\ m ∈ l.
Proof.
  destruct (piece_eqb _ _) eqn:E.
  - apply piece_eqb_eq in E. tauto.
  - apply piece_eqb_neq in E. rewrite elem_of_nil. tauto.
Qed.

Lemma elem_of_if (t : bool) (l : list Move) (m : Move) :
  m ∈ (if t then l else []) <-> t = true /\ m ∈ l.
Proof. destruct t; rewrite ?elem_of_nil; intuition congruence. Qed.

Lemma Move4_inj (r c tr tc r' c' tr' tc' : Z) :
  Move4 r c tr tc = Move4 r' c' tr' tc'
  <-> r = r' /\ c = c' /\ tr = tr' /\ tc = tc'.
Proof. unfold Move4. split; [intros [= -> -> -> ->]|intros (-> & -> & -> & ->)]; done. Qed.

Lemma knight_leg_cases (dr dc lr lc : Z) :
  knight_leg dr dc = Some (lr, lc) <->
  (dr = 2 /\ (dc = 1 \/ dc = -1) /\ lr = 1 /\ lc = 0)
  \/ (dr = -2 /\ (dc = 1 \/ dc = -1) /\ lr = -1 /\ lc = 0)
  \/ ((dr = 1 \/ dr = -1) /\ dc = 2 /\ lr = 0 /\ lc = 1)
  \/ ((dr = 1 \/ dr = -1) /\ dc = -2 /\ lr = 0 /\ lc = -1).
Proof.
  unfold knight_leg.
  destruct (Z.abs dr =? 2) eqn:E1, (Z.abs dc =? 1) eqn:E2,
           (Z.abs dr =? 1) eqn:E3, (Z.abs dc =? 2) eqn:E4; simpl;
    rewrite ?Z.eqb_eq, ?Z.eqb_neq in *;
    (split; [intros [= <- <-] | intros H; try f_equal; try f_equal]); lia.
Qed.

Lemma knight_elem (cb : Board) (r c : Z) (side : Side) (m : Move) :
  m ∈ MovesGen.gen_moves_knight cb r c side
  <-> exists dr dc lr lc,
        m = Move4 r c (r + dr) (c + dc)
        /\ knight_leg dr dc = Some (lr, lc)
        /\ get cb (r + lr) (c + lc) = P_EE
        /\ accepted cb r c (r + dr) (c + dc).
Proof.
  unfold MovesGen.gen_moves_knight.
  rewrite !elem_of_app, !elem_of_gated, !elem_of_app, !elem_of_check.
  split.
  - intros H.
    repeat match goal with
           | H : _ \/ _ |- _ => destruct H as [H|H]
           | H : _ /\ _ |- _ => destruct H as [? H]
           end; subst m.
    + exists 2, 1, 1, 0. by rewrite Z.add_0_r.
    + exists 2, (-1), 1, 0. by rewrite Z.add_0_r.
    + exists (-2), 1, (-1), 0. by rewrite Z.add_0_r.
    + exists (-2), (-1), (-1), 0. by rewrite Z.add_0_r.
    + exists 1, 2, 0, 1. by rewrite Z.add_0_r.
    + exists (-1), 2, 0, 1. by rewrite Z.add_0_r.
    + exists 1, (-2), 0, (-1). by rewrite Z.add_0_r.
    + exists (-1), (-2), 0, (-1). by rewrite Z.add_0_r.
  - intros (dr & dc & lr & lc & -> & Hleg & Hempty & Hacc).
    apply knight_leg_cases in Hleg.
    destruct Hleg as [H|[H|[H|H]]];
      repeat match goal with
             | H : _ \/ _ |- _ => destruct H as [H|H]
             | H : _ /\ _ |- _ => destruct H as [? H]
             end; subst; rewrite ?Z.add_0_r in Hempty; tauto.
Qed.

(** C7. The knight at [(r, c)] emits exactly the L-shaped steps whose leg
    cell is empty and whose destination is accepted; so when the leg
    [(r +- 1, c)] is not empty (a piece or the sentinel) neither
    [(r +- 2, c + 1)] nor [(r +- 2, c - 1)] is emitted, and likewise for
    the leg [(r, c +- 1)] and the steps [(r +- 1, c +- 2)], whatever the
    destinations hold. *)
Theorem knight_moves_gated_by_leg (cb : Board) (r c : Z) (side : Side) :
  (forall m,
     m ∈ MovesGen.gen_moves_knight cb r c side
     <-> exists dr dc lr lc,
           m = Move4 r c (r + dr) (c + dc)
           /\ knight_leg dr dc = Some (lr, lc)
           /\ get cb (r + lr) (c + lc) = P_EE
           /\ accepted cb r c (r + dr) (c + dc))
  /\ (forall dr dc lr lc,
        knight_leg dr dc = Some (lr, lc) ->
        get cb (r + lr) (c + lc) <> P_EE ->
        Move4 r c (r + dr) (c + dc) ∉ MovesGen.gen_moves_knight cb r c side).
Proof.
  split.
  - intros m. apply knight_elem.
  - intros dr dc lr lc Hleg Hocc Hin.
    apply knight_elem in Hin
      as (dr' & dc' & lr' & lc' & Heq & Hleg' & Hempty & _).
    apply Move4_inj in Heq as (_ & _ & Hr & Hc).
    assert (dr' = dr) as -> by lia. assert (dc' = dc) as -> by lia.
    congruence.
Qed.

(** ** Move generator: the bishop *)

Lemma elem_of_bishop_step (cb : Board) (r c dr dc : Z) (m : Move) :
  m ∈ MovesGen.bishop_step cb r c dr dc
  <-> get cb (r + dr) (c + dc) = P_EE
      /\ m = Move4 r c (r + 2 * dr) (c + 2 * dc)
      /\ accepted cb r c (r + 2 * dr) (c + 2 * dc).
Proof.
  unfold MovesGen.bishop_step. rewrite elem_of_gated, elem_of_check. tauto.
Qed.

(** The bishop's moves, one by one. *)
Lemma bishop_elem (cb : Board) (r c : Z) (side : Side) (m : Move) :
  m ∈ MovesGen.gen_moves_bishop cb r c side ->
  exists dr dc,
    (dr = 1 \/ dr = -1) /\ (dc = 1 \/ dc = -1)
    /\ m = Move4 r c (r + 2 * dr) (c + 2 * dc)
    /\ get cb (r + dr) (c + dc) = P_EE
    /\ accepted cb r c (r + 2 * dr) (c + 2 * dc)
    /\ (side = Side_up -> dr = 1 -> r + 2 <= river_up)
    /\ (side = Side_down -> dr = -1 -> r - 2 >= river_down).
Proof.
  unfold MovesGen.gen_moves_bishop.
  destruct side; rewrite ?elem_of_app, ?elem_of_if, ?elem_of_app,
    ?elem_of_bishop_step, ?elem_of_nil; intros H;
    repeat match goal with
           | H : _ \/ _ |- _ => destruct H as [H|H]
           | H : _ /\ _ |- _ => destruct H as [? H]
           | H : False |- _ => destruct H
           | H : (_ <=? _) = true |- _ => apply Z.leb_le in H
           | H : (_ >=? _) = true |- _ => apply Z.geb_le in H
           end; subst m;
    match goal with
    | _ : get cb (r + ?dr) (c + ?dc) = P_EE |- _ => exists dr, dc
    end;
    (split_and!; try done; try (intros; cbn; unfold_consts; lia)).
Qed.

Lemma bishop_moves_home (cb : Board) (r c : Z) (side : Side) (m : Move) :
  m ∈ MovesGen.gen_moves_bishop cb r c side ->
  (side = Side_up -> r <= river_up -> row (to m) <= river_up)
  /\ (side = Side_down -> r >= river_down -> row (to m) >= river_down).
Proof.
  intros (dr & dc & Hdr & _ & -> & _ & _ & Hup & Hdown)%bishop_elem.
  cbn. unfold_consts. split; intros Hs Hr; destruct Hdr as [->| ->]; try lia.
  - specialize (Hup Hs eq_refl). lia.
  - specialize (Hdown Hs eq_refl). lia.
Qed.


(** ** Well-formed boards and the walks of the cannon and the rook *)

Lemma interiorb_spec (r c : Z) : interiorb r c = true <-> interior r c.
Proof.
  unfold interiorb, interior.
  rewrite !andb_true_iff, !Z.leb_le. tauto.
Qed.

Lemma wf_board_spec (b : Board) :
  wf_board b = true ->
  length (data b) = storage_size
  /\ forall r c, 0 <= r < row_num -> 0 <= c < col_num ->
       (get b r c = P_EO <-> ~ interior r c).
Proof.
  unfold wf_board. rewrite andb_true_iff, Nat.eqb_eq.
  intros [Hlen Hall]. split; [done|].
  intros r c Hr Hc.
  rewrite forallb_forall in Hall.
  assert (In r (seqZ 0 row_num)) as Hinr
    by (apply list_elem_of_In, elem_of_seqZ; lia).
  specialize (Hall r Hinr). rewrite forallb_forall in Hall.
  assert (In c (seqZ 0 col_num)) as Hinc
    by (apply list_elem_of_In, elem_of_seqZ; lia).
  specialize (Hall c Hinc).
  apply eqb_prop in Hall.
  rewrite <- interiorb_spec.
  destruct (interiorb r c); simpl in Hall.
  - apply piece_eqb_neq in Hall. split; [done|]. intros H; by destruct H.
  - apply piece_eqb_eq in Hall. split; [intros _; discriminate | done].
Qed.

Lemma wf_border (b : Board) (r c : Z) :
  wf_board b = true -> 0 <= r < row_num -> 0 <= c < col_num ->
  ~ interior r c -> get b r c = P_EO.
Proof. intros Hwf Hr Hc Hni. by apply (wf_board_spec b Hwf). Qed.

Lemma wf_interior (b : Board) (r c : Z) :
  wf_board b = true -> 0 <= r < row_num -> 0 <= c < col_num ->
  get b r c <> P_EO -> interior r c.
Proof.
  intros Hwf Hr Hc Hne.
  destruct (interiorb r c) eqn:E; [by apply interiorb_spec|].
  exfalso. apply Hne. apply wf_border; try done.
  rewrite <- interiorb_spec. congruence.
Qed.

Lemma wf_interior_not_out (b : Board) (r c : Z) :
  wf_board b = true -> interior r c -> get b r c <> P_EO.
Proof.
  intros Hwf Hi Ho.
  assert (0 <= r < row_num /\ 0 <= c < col_num) as [Hr Hc]
    by (unfold interior in Hi; unfold_consts; lia).
  destruct (wf_board_spec b Hwf) as [_ H].
  by apply (H r c Hr Hc) in Ho.
Qed.

(** From an interior cell, each of the four directions meets the sentinel
    after at most ten steps, with only interior cells before it. *)
Lemma border_distance (b : Board) (r c rGap cGap : Z) :
  wf_board b = true -> interior r c -> cardinal rGap cGap ->
  exists D : nat,
    (1 <= D <= 10)%nat
    /\ (forall k : Z, 0 <= k < Z.of_nat D ->
          interior (r + k * rGap) (c + k * cGap))
    /\ cell_at b r c rGap cGap (Z.of_nat D) = P_EO.
Proof.
  intros Hwf Hi Hc. unfold cell_at.
  unfold interior in *. unfold_consts.
  destruct Hc as [[-> ->]|[[-> ->]|[[-> ->]|[-> ->]]]].
  - exists (Z.to_nat (r - 1)). split_and!; try lia.
    apply wf_border; try done; unfold interior; unfold_consts; lia.
  - exists (Z.to_nat (12 - r)). split_and!; try lia.
    apply wf_border; try done; unfold interior; unfold_consts; lia.
  - exists (Z.to_nat (c - 1)). split_and!; try lia.
    apply wf_border; try done; unfold interior; unfold_consts; lia.
  - exists (Z.to_nat (11 - c)). split_and!; try lia.
    apply wf_border; try done; unfold interior; unfold_consts; lia.
Qed.

(** Below a cell that is not empty there is a first one. *)
Lemma first_nonempty (b : Board) (r c rGap cGap : Z) (n : nat) (j : Z) :
  cell_at b r c rGap cGap (j + Z.of_nat n) <> P_EE ->
  exists n' : nat,
    (n' <= n)%nat
    /\ (forall k, j <= k < j + Z.of_nat n' -> cell_at b r c rGap cGap k = P_EE)
    /\ cell_at b r c rGap cGap (j + Z.of_nat n') <> P_EE.
Proof.
  revert j. induction n as [|n IH]; intros j Hne.
  - exists 0%nat. split_and!; [lia | intros; lia | done].
  - destruct (piece_eqb (cell_at b r c rGap cGap j) P_EE) eqn:He;
      [apply piece_eqb_eq in He | apply piece_eqb_neq in He].
    + destruct (IH (j + 1)) as (n' & Hle & Hbefore & Hat).
      { by replace (j + 1 + Z.of_nat n) with (j + Z.of_nat (S n)) by lia. }
      exists (S n'). split_and!; [lia | |].
      * intros k Hk. destruct (decide (k = j)) as [->|]; [done|].
        apply Hbefore. lia.
      * by replace (j + Z.of_nat (S n')) with (j + 1 + Z.of_nat n') by lia.
    + exists 0%nat. split_and!; [lia | intros; lia |].
      by rewrite Z.add_0_r.
Qed.

Lemma ride_spec (fuel : nat) (cb : Board) (r c rGap cGap : Z) (n : nat) (j : Z) :
  (forall k, j <= k < j + Z.of_nat n -> cell_at cb r c rGap cGap k = P_EE) ->
  cell_at cb r c rGap cGap (j + Z.of_nat n) <> P_EE ->
  (n < fuel)%nat ->
  MovesGen.ride fuel cb r c (r + j * rGap) (c + j * cGap) rGap cGap
  = (map (move_at r c rGap cGap) (seqZ j (Z.of_nat n)),
     (r + (j + Z.of_nat n) * rGap, c + (j + Z.of_nat n) * cGap,
      cell_at cb r c rGap cGap (j + Z.of_nat n))).
Proof.
  revert n j. induction fuel as [|fuel IH]; intros n j Hbefore Hat Hlt; [lia|].
  simpl. destruct n as [|n].
  - simpl in *. rewrite Z.add_0_r in *. unfold cell_at in Hat.
    destruct (piece_eqb _ _) eqn:E; [by apply piece_eqb_eq in E|done].
  - assert (cell_at cb r c rGap cGap j = P_EE) as Hj by (apply Hbefore; lia).
    unfold cell_at in Hj. rewrite Hj. simpl.
    replace (r + j * rGap + rGap) with (r + (j + 1) * rGap) by lia.
    replace (c + j * cGap + cGap) with (c + (j + 1) * cGap) by lia.
    rewrite (IH n (j + 1)).
    + rewrite (seqZ_cons j (Z.of_nat (S n))) by lia. simpl.
      replace (Z.pred (Z.of_nat (S n))) with (Z.of_nat n) by lia.
      replace (j + 1 + Z.of_nat n) with (j + Z.of_nat (S n)) by lia.
      done.
    + intros k Hk. apply Hbefore. lia.
    + by replace (j + 1 + Z.of_nat n) with (j + Z.of_nat (S n)) by lia.
    + lia.
Qed.

Lemma jump_spec (fuel : nat) (cb : Board) (r c rGap cGap : Z) (side : Side)
    (n : nat) (j : Z) :
  (forall k, j <= k < j + Z.of_nat n -> cell_at cb r c rGap cGap k = P_EE) ->
  cell_at cb r c rGap cGap (j + Z.of_nat n) <> P_EE ->
  (n < fuel)%nat ->
  MovesGen.jump fuel cb r c (r + j * rGap) (c + j * cGap) rGap cGap side
  = if side_eqb (piece_side (cell_at cb r c rGap cGap (j + Z.of_nat n)))
                (piece_side_reverse side)
    then [move_at r c rGap cGap (j + Z.of_nat n)]
    else [].
Proof.
  revert n j. induction fuel as [|fuel IH]; intros n j Hbefore Hat Hlt; [lia|].
  simpl. destruct n as [|n].
  - simpl in *. rewrite Z.add_0_r in *. unfold cell_at in *.
    destruct (piece_eqb _ _) eqn:E; [by apply piece_eqb_eq in E|done].
  - assert (cell_at cb r c rGap cGap j = P_EE) as Hj by (apply Hbefore; lia).
    unfold cell_at in Hj. rewrite Hj. simpl.
    replace (r + j * rGap + rGap) with (r + (j + 1) * rGap) by lia.
    replace (c + j * cGap + cGap) with (c + (j + 1) * cGap) by lia.
    rewrite (IH n (j + 1)).
    + by replace (j + 1 + Z.of_nat n) with (j + Z.of_nat (S n)) by lia.
    + intros k Hk. apply Hbefore. lia.
    + by replace (j + 1 + Z.of_nat n) with (j + Z.of_nat (S n)) by lia.
    + lia.
Qed.

(** The walk of a cannon in one direction on a well-formed board, with the
    distance [D] at which the direction meets the border. *)
Lemma cannon_walk (cb : Board) (r c rGap cGap : Z) (side : Side) :
  wf_board cb = true -> interior r c -> cardinal rGap cGap ->
  exists D k1 : nat,
    (1 <= k1 <= D)%nat /\ (D <= 10)%nat
    /\ (forall k : Z, 0 <= k < Z.of_nat D ->
          interior (r + k * rGap) (c + k * cGap))
    /\ cell_at cb r c rGap cGap (Z.of_nat D) = P_EO
    /\ (forall k, 1 <= k < Z.of_nat k1 -> cell_at cb r c rGap cGap k = P_EE)
    /\ cell_at cb r c rGap cGap (Z.of_nat k1) <> P_EE
    /\ ((cell_at cb r c rGap cGap (Z.of_nat k1) = P_EO
         /\ MovesGen.gen_moves_cannon_one_direction cb r c rGap cGap side
            = rides r c rGap cGap (k1 - 1))
        \/ (cell_at cb r c rGap cGap (Z.of_nat k1) <> P_EO
            /\ exists k2 : nat,
                 (k1 < k2 <= D)%nat
                 /\ (forall k, Z.of_nat k1 < k < Z.of_nat k2 ->
                       cell_at cb r c rGap cGap k = P_EE)
                 /\ cell_at cb r c rGap cGap (Z.of_nat k2) <> P_EE
                 /\ MovesGen.gen_moves_cannon_one_direction cb r c rGap cGap side
                    = rides r c rGap cGap (k1 - 1)
                      ++ (if side_eqb
                               (piece_side (cell_at cb r c rGap cGap (Z.of_nat k2)))
                               (piece_side_reverse side)
                          then [move_at r c rGap cGap (Z.of_nat k2)]
                          else []))).
Proof.
  intros Hwf Hi Hcard.
  destruct (border_distance cb r c rGap cGap Hwf Hi Hcard)
    as (D & HD & Hint & Hborder).
  destruct (first_nonempty cb r c rGap cGap (D - 1) 1)
    as (n1 & Hn1 & Hbefore1 & Hat1).
  { replace (1 + Z.of_nat (D - 1)) with (Z.of_nat D) by lia.
    rewrite Hborder. discriminate. }
  replace (1 + Z.of_nat n1) with (Z.of_nat (S n1)) in * by lia.
  exists D, (S n1).
  assert (MovesGen.ride MovesGen.walk_fuel cb r c (r + rGap) (c + cGap) rGap cGap
          = (rides r c rGap cGap n1,
             (r + Z.of_nat (S n1) * rGap, c + Z.of_nat (S n1) * cGap,
              cell_at cb r c rGap cGap (Z.of_nat (S n1))))) as Hride.
  { replace (r + rGap) with (r + 1 * rGap) by lia.
    replace (c + cGap) with (c + 1 * cGap) by lia.
    rewrite (ride_spec _ cb r c rGap cGap n1 1).
    - by replace (1 + Z.of_nat n1) with (Z.of_nat (S n1)) by lia.
    - intros k Hk. apply Hbefore1. lia.
    - by replace (1 + Z.of_nat n1) with (Z.of_nat (S n1)) by lia.
    - unfold MovesGen.walk_fuel. unfold_consts. lia. }
  unfold MovesGen.gen_moves_cannon_one_direction. rewrite Hride.
  cbv beta iota zeta.
  replace (S n1 - 1)%nat with n1 by lia.
  split_and!; try done; try lia.
  destruct (piece_eqb (cell_at cb r c rGap cGap (Z.of_nat (S n1))) P_EO) eqn:Ho;
    cbv beta iota delta [negb].
  - left. apply piece_eqb_eq in Ho. by rewrite app_nil_r.
  - right. apply piece_eqb_neq in Ho. split; [done|].
    assert (S n1 < D)%nat as Hlt.
    { destruct (decide (S n1 = D)) as [E|E]; [|lia].
      rewrite E in Ho. done. }
    destruct (first_nonempty cb r c rGap cGap (D - S n1 - 1) (Z.of_nat (S n1) + 1))
      as (n2 & Hn2 & Hbefore2 & Hat2).
    { replace (Z.of_nat (S n1) + 1 + Z.of_nat (D - S n1 - 1))
        with (Z.of_nat D) by lia.
      rewrite Hborder. discriminate. }
    exists (S n1 + 1 + n2)%nat.
    replace (Z.of_nat (S n1 + 1 + n2)) with (Z.of_nat (S n1) + 1 + Z.of_nat n2)
      by lia.
    split_and!; try done; try lia.
    + intros k Hk. apply Hbefore2. lia.
    + f_equal.
      replace (r + Z.of_nat (S n1) * rGap + rGap)
        with (r + (Z.of_nat (S n1) + 1) * rGap) by lia.
      replace (c + Z.of_nat (S n1) * cGap + cGap)
        with (c + (Z.of_nat (S n1) + 1) * cGap) by lia.
      apply jump_spec; try done.
      unfold MovesGen.walk_fuel. unfold_consts. lia.
Qed.

(** C5. On a well-formed board, the cannon at the interior cell [(r, c)]
    walking in one of the four directions meets a first cell that is not
    empty, [k1] steps away.  It emits the rides to the [k1 - 1] empty cells
    before it, nearest first.  If that cell is the sentinel border nothing
    more is emitted.  Otherwise it is the screen: the walk goes on to the
    first cell beyond it that is not empty, [k2] steps away, and emits that
    cell exactly when it holds a piece of the side [piece_side_reverse side],
    the opponent of [side].  The screen itself is never a destination. *)
Theorem cannon_one_direction_screen (cb : Board) (r c rGap cGap : Z)
    (side : Side) :
  wf_board cb = true -> interior r c -> cardinal rGap cGap ->
  exists k1 : nat,
    (1 <= k1)%nat
    /\ (forall k, 1 <= k < Z.of_nat k1 -> cell_at cb r c rGap cGap k = P_EE)
    /\ cell_at cb r c rGap cGap (Z.of_nat k1) <> P_EE
    /\ (move_at r c rGap cGap (Z.of_nat k1)
        ∉ MovesGen.gen_moves_cannon_one_direction cb r c rGap cGap side)
    /\ ((cell_at cb r c rGap cGap (Z.of_nat k1) = P_EO
         /\ MovesGen.gen_moves_cannon_one_direction cb r c rGap cGap side
            = rides r c rGap cGap (k1 - 1))
        \/ (cell_at cb r c rGap cGap (Z.of_nat k1) <> P_EO
            /\ exists k2 : nat,
                 (k1 < k2)%nat
                 /\ (forall k, Z.of_nat k1 < k < Z.of_nat k2 ->
                       cell_at cb r c rGap cGap k = P_EE)
                 /\ cell_at cb r c rGap cGap (Z.of_nat k2) <> P_EE
                 /\ MovesGen.gen_moves_cannon_one_direction cb r c rGap cGap side
                    = rides r c rGap cGap (k1 - 1)
                      ++ (if side_eqb
                               (piece_side (cell_at cb r c rGap cGap (Z.of_nat k2)))
                               (piece_side_reverse side)
                          then [move_at r c rGap cGap (Z.of_nat k2)]
                          else []))).
Proof.
  intros Hwf Hi Hcard.
  destruct (cannon_walk cb r c rGap cGap side Hwf Hi Hcard)
    as (D & k1 & Hk1 & HD & Hint & Hborder & Hbefore & Hat & Hgen).
  exists k1. split_and!; try done; try lia.
  - (* the screen is not among the destinations *)
    assert (forall n : nat,
               move_at r c rGap cGap (Z.of_nat k1) ∈ rides r c rGap cGap n ->
               (n < k1)%nat -> False) as Hrides.
    { intros n Hin Hn. unfold rides in Hin.
      apply list_elem_of_fmap in Hin as (k & Heq & Hk).
      apply elem_of_seqZ in Hk.
      unfold move_at in Heq. apply Move4_inj in Heq as (_ & _ & Hr & Hc).
      destruct Hcard as [[-> ->]|[[-> ->]|[[-> ->]|[-> ->]]]]; lia. }
    destruct Hgen as [[_ ->]|[_ (k2 & Hk2 & _ & _ & ->)]].
    + intros Hin. apply (Hrides _ Hin). lia.
    + rewrite elem_of_app. intros [Hin|Hin].
      * apply (Hrides _ Hin). lia.
      * destruct (side_eqb _ _); [|by apply elem_of_nil in Hin].
        apply list_elem_of_singleton in Hin.
        unfold move_at in Hin. apply Move4_inj in Hin as (_ & _ & Hr & Hc).
        destruct Hcard as [[-> ->]|[[-> ->]|[[-> ->]|[-> ->]]]]; lia.
  - destruct Hgen as [Hgen|(Hno & k2 & Hk2 & Hgen)]; [by left|].
    right. split; [done|]. exists k2. split_and!; try tauto; lia.
Qed.

Lemma cannon_one_direction_screen_witness :
  exists k1 : nat,
    (1 <= k1)%nat
    /\ (forall k, 1 <= k < Z.of_nat k1 -> cell_at new_board 4 3 1 0 k = P_EE)
    /\ cell_at new_board 4 3 1 0 (Z.of_nat k1) <> P_EE
    /\ (move_at 4 3 1 0 (Z.of_nat k1)
        ∉ MovesGen.gen_moves_cannon_one_direction new_board 4 3 1 0 Side_up)
    /\ ((cell_at new_board 4 3 1 0 (Z.of_nat k1) = P_EO
         /\ MovesGen.gen_moves_cannon_one_direction new_board 4 3 1 0 Side_up
            = rides 4 3 1 0 (k1 - 1))
        \/ (cell_at new_board 4 3 1 0 (Z.of_nat k1) <> P_EO
            /\ exists k2 : nat,
                 (k1 < k2)%nat
                 /\ (forall k, Z.of_nat k1 < k < Z.of_nat k2 ->
                       cell_at new_board 4 3 1 0 k = P_EE)
                 /\ cell_at new_board 4 3 1 0 (Z.of_nat k2) <> P_EE
                 /\ MovesGen.gen_moves_cannon_one_direction new_board 4 3 1 0 Side_up
                    = rides 4 3 1 0 (k1 - 1)
                      ++ (if side_eqb
                               (piece_side (cell_at new_board 4 3 1 0 (Z.of_nat k2)))
                               (piece_side_reverse Side_up)
                          then [move_at 4 3 1 0 (Z.of_nat k2)]
                          else []))).
Proof.
  apply (cannon_one_direction_screen new_board 4 3 1 0 Side_up).
  - vm_compute; reflexivity.
  - solve_interior.
  - unfold cardinal. right. left. split; reflexivity.
Defined.

(** ** Move generator: every pseudo-move is well placed *)

Lemma rook_walk (cb : Board) (r c rGap cGap : Z) (side : Side) :
  wf_board cb = true -> interior r c -> cardinal rGap cGap ->
  exists D k1 : nat,
    (1 <= k1 <= D)%nat /\ (D <= 10)%nat
    /\ (forall k : Z, 0 <= k < Z.of_nat D ->
          interior (r + k * rGap) (c + k * cGap))
    /\ cell_at cb r c rGap cGap (Z.of_nat D) = P_EO
    /\ (forall k, 1 <= k < Z.of_nat k1 -> cell_at cb r c rGap cGap k = P_EE)
    /\ cell_at cb r c rGap cGap (Z.of_nat k1) <> P_EE
    /\ MovesGen.gen_moves_rook_one_direction cb r c rGap cGap side
       = rides r c rGap cGap (k1 - 1)
         ++ (if side_eqb (piece_side (cell_at cb r c rGap cGap (Z.of_nat k1)))
                         (piece_side_reverse side)
             then [move_at r c rGap cGap (Z.of_nat k1)]
             else []).
Proof.
  intros Hwf Hi Hcard.
  destruct (border_distance cb r c rGap cGap Hwf Hi Hcard)
    as (D & HD & Hint & Hborder).
  destruct (first_nonempty cb r c rGap cGap (D - 1) 1)
    as (n1 & Hn1 & Hbefore1 & Hat1).
  { replace (1 + Z.of_nat (D - 1)) with (Z.of_nat D) by lia.
    rewrite Hborder. discriminate. }
  replace (1 + Z.of_nat n1) with (Z.of_nat (S n1)) in * by lia.
  exists D, (S n1).
  unfold MovesGen.gen_moves_rook_one_direction.
  replace (r + rGap) with (r + 1 * rGap) by lia.
  replace (c + cGap) with (c + 1 * cGap) by lia.
  rewrite (ride_spec _ cb r c rGap cGap n1 1).
  - cbv beta iota zeta.
    replace (1 + Z.of_nat n1) with (Z.of_nat (S n1)) by lia.
    replace (S n1 - 1)%nat with n1 by lia.
    split_and!; try done; lia.
  - intros k Hk. apply Hbefore1. lia.
  - by replace (1 + Z.of_nat n1) with (Z.of_nat (S n1)) by lia.
  - unfold MovesGen.walk_fuel. unfold_consts. lia.
Qed.

Lemma facing_elem (n : nat) (cb : Board) (r c row step : Z) (target : Piece)
    (m : Move) :
  m ∈ MovesGen.facing n cb r c row step target ->
  exists k, 0 <= k < Z.of_nat n
            /\ m = Move4 r c (row + k * step) c
            /\ get cb (row + k * step) c = target.
Proof.
  revert row. induction n as [|n IH]; intros row Hin; simpl in Hin.
  - by apply elem_of_nil in Hin.
  - destruct (piece_eqb (get cb row c) P_EE).
    + apply IH in Hin as (k & Hk & -> & Hget).
      exists (k + 1).
      replace (row + (k + 1) * step) with (row + step + k * step) by lia.
      split_and!; try done; lia.
    + destruct (piece_eqb (get cb row c) target) eqn:E;
        [|by apply elem_of_nil in Hin].
      apply piece_eqb_eq in E. apply list_elem_of_singleton in Hin.
      exists 0. rewrite Z.add_0_r. split_and!; try done; lia.
Qed.

Lemma piece_side_out (p : Piece) : piece_side p <> Side_extra -> p <> P_EO.
Proof. intros H ->. by apply H. Qed.

Section GoodMoves.

Variables (cb : Board) (s : Side) (r c : Z).
Hypothesis Hwf : wf_board cb = true.
Hypothesis Hs : s <> Side_extra.
Hypothesis Hi : interior r c.
Hypothesis Hp : piece_side (get cb r c) = s.

Lemma check_good (tr tc : Z) (m : Move) :
  -2 <= tr - r <= 2 -> -2 <= tc - c <= 2 ->
  m ∈ MovesGen.check_possible_move_and_insert cb r c tr tc ->
  good_move cb s m.
Proof using Hwf Hi Hp.
  intros Hr Hc Hin. apply elem_of_check in Hin as [-> [Hout Hside]].
  unfold good_move, get_pos; cbn.
  split_and!; try done.
  - apply (wf_interior cb); try done;
      unfold interior in Hi; unfold_consts; lia.
  - congruence.
  - intros [= -> ->]. done.
Qed.

Lemma ride_good (rGap cGap : Z) (D : nat) (k : Z) :
  cardinal rGap cGap ->
  (forall k : Z, 0 <= k < Z.of_nat D ->
     interior (r + k * rGap) (c + k * cGap)) ->
  1 <= k < Z.of_nat D ->
  piece_side (cell_at cb r c rGap cGap k) <> s ->
  good_move cb s (move_at r c rGap cGap k).
Proof using Hwf Hi Hp.
  intros Hcard Hint Hk Hside.
  unfold good_move, move_at, get_pos; cbn.
  split_and!; try done.
  - apply Hint. lia.
  - apply wf_interior_not_out; [done|]. apply Hint. lia.
  - intros [= Hr Hc].
    destruct Hcard as [[-> ->]|[[-> ->]|[[-> ->]|[-> ->]]]]; lia.
Qed.

Lemma rides_good (rGap cGap : Z) (D n : nat) (m : Move) :
  cardinal rGap cGap ->
  (forall k : Z, 0 <= k < Z.of_nat D ->
     interior (r + k * rGap) (c + k * cGap)) ->
  (n < D)%nat ->
  (forall k, 1 <= k < 1 + Z.of_nat n -> cell_at cb r c rGap cGap k = P_EE) ->
  m ∈ rides r c rGap cGap n ->
  good_move cb s m.
Proof using Hwf Hs Hi Hp.
  intros Hcard Hint Hn Hempty Hin. unfold rides in Hin.
  apply list_elem_of_fmap in Hin as (k & -> & Hk).
  apply elem_of_seqZ in Hk.
  apply (ride_good rGap cGap D); try done; try lia.
  rewrite Hempty by lia. cbn. congruence.
Qed.

Lemma capture_good (rGap cGap : Z) (D k : nat) :
  cardinal rGap cGap ->
  (forall k : Z, 0 <= k < Z.of_nat D ->
     interior (r + k * rGap) (c + k * cGap)) ->
  cell_at cb r c rGap cGap (Z.of_nat D) = P_EO ->
  (1 <= k <= D)%nat ->
  piece_side (cell_at cb r c rGap cGap (Z.of_nat k)) = piece_side_reverse s ->
  good_move cb s (move_at r c rGap cGap (Z.of_nat k)).
Proof using Hwf Hs Hi Hp.
  intros Hcard Hint Hborder Hk Hside.
  assert (piece_side (cell_at cb r c rGap cGap (Z.of_nat k)) <> s) as Hne
    by (rewrite Hside; destruct s; done).
  apply (ride_good rGap cGap D); try done.
  destruct (decide (k = D)) as [->|]; [|lia].
  rewrite Hborder in Hside. destruct s; done.
Qed.

Lemma cannon_one_direction_good (rGap cGap : Z) (m : Move) :
  cardinal rGap cGap ->
  m ∈ MovesGen.gen_moves_cannon_one_direction cb r c rGap cGap s ->
  good_move cb s m.
Proof using Hwf Hs Hi Hp.
  intros Hcard Hin.
  destruct (cannon_walk cb r c rGap cGap s Hwf Hi Hcard)
    as (D & k1 & Hk1 & HD & Hint & Hborder & Hbefore & Hat & Hgen).
  assert (forall m, m ∈ rides r c rGap cGap (k1 - 1) -> good_move cb s m)
    as Hrides.
  { intros m' Hm'. apply (rides_good rGap cGap D (k1 - 1)); try done; try lia.
    intros k Hk. apply Hbefore. lia. }
  destruct Hgen as [[_ Hgen]|[_ (k2 & Hk2 & _ & _ & Hgen)]];
    rewrite Hgen in Hin; [by apply Hrides|].
  apply elem_of_app in Hin as [Hin|Hin]; [by apply Hrides|].
  destruct (side_eqb _ _) eqn:E; [|by apply elem_of_nil in Hin].
  apply side_eqb_eq in E. apply list_elem_of_singleton in Hin as ->.
  apply (capture_good rGap cGap D); try done. lia.
Qed.

Lemma rook_one_direction_good (rGap cGap : Z) (m : Move) :
  cardinal rGap cGap ->
  m ∈ MovesGen.gen_moves_rook_one_direction cb r c rGap cGap s ->
  good_move cb s m.
Proof using Hwf Hs Hi Hp.
  intros Hcard Hin.
  destruct (rook_walk cb r c rGap cGap s Hwf Hi Hcard)
    as (D & k1 & Hk1 & HD & Hint & Hborder & Hbefore & Hat & Hgen).
  rewrite Hgen in Hin.
  apply elem_of_app in Hin as [Hin|Hin].
  - apply (rides_good rGap cGap D (k1 - 1)); try done; try lia.
    intros k Hk. apply Hbefore. lia.
  - destruct (side_eqb _ _) eqn:E; [|by apply elem_of_nil in Hin].
    apply side_eqb_eq in E. apply list_elem_of_singleton in Hin as ->.
    apply (capture_good rGap cGap D); try done.
Qed.

Lemma facing_good (n : nat) (step : Z) (target : Piece) (m : Move) :
  (step = 1 /\ Z.of_nat n <= row_end - r
   \/ step = -1 /\ Z.of_nat n <= r - row_begin) ->
  piece_side target <> s -> piece_side target <> Side_extra ->
  m ∈ MovesGen.facing n cb r c (r + step) step target ->
  good_move cb s m.
Proof using Hwf Hi Hp.
  intros Hstep Hts Hte Hin.
  apply facing_elem in Hin as (k & Hk & -> & Hget).
  unfold good_move, get_pos; cbn. rewrite Hget.
  split_and!; try done.
  - unfold interior in *. unfold_consts. lia.
  - by apply piece_side_out.
  - intros [= Hr]. lia.
Qed.

End GoodMoves.

Ltac split_moves :=
  repeat match goal with
         | H : _ ∈ _ ++ _ |- _ => apply elem_of_app in H as [H|H]
         | H : _ ∈ (if piece_eqb _ _ then _ else []) |- _ =>
             apply elem_of_gated in H as [_ H]
         | H : _ ∈ (if _ then _ else []) |- _ =>
             apply elem_of_if in H as [_ H]
         | H : _ ∈ [] |- _ => by apply elem_of_nil in H
         end.

Lemma gen_cell_good (cb : Board) (s : Side) (r c : Z) (m : Move) :
  wf_board cb = true -> s <> Side_extra -> interior r c ->
  m ∈ MovesGen.gen_cell cb s r c -> good_move cb s m.
Proof.
  intros Hwf Hs Hi Hin. unfold MovesGen.gen_cell in Hin.
  destruct (side_eqb _ _) eqn:Hp; [|by apply elem_of_nil in Hin].
  apply side_eqb_eq in Hp.
  assert (forall tr tc, -2 <= tr - r <= 2 -> -2 <= tc - c <= 2 ->
            m ∈ MovesGen.check_possible_move_and_insert cb r c tr tc ->
            good_move cb s m) as Hcheck
    by (intros; by eapply check_good).
  destruct (piece_type (get cb r c)).
  - (* pawn *)
    unfold MovesGen.gen_moves_pawn in Hin.
    destruct s; [| |done]; split_moves; (eapply Hcheck; [| |exact Hin]; lia).
  - (* cannon *)
    unfold MovesGen.gen_moves_cannon in Hin. split_moves;
      (eapply cannon_one_direction_good; [done..| |exact Hin]);
      unfold cardinal; lia.
  - (* rook *)
    unfold MovesGen.gen_moves_rook in Hin. split_moves;
      (eapply rook_one_direction_good; [done..| |exact Hin]);
      unfold cardinal; lia.
  - (* knight *)
    unfold MovesGen.gen_moves_knight in Hin.
    split_moves; (eapply Hcheck; [| |exact Hin]; lia).
  - (* bishop *)
    unfold MovesGen.gen_moves_bishop, MovesGen.bishop_step in Hin.
    destruct s; [| |done]; split_moves; (eapply Hcheck; [| |exact Hin]; lia).
  - (* advisor *)
    unfold MovesGen.gen_moves_advisor in Hin.
    destruct s; [| |done]; split_moves; (eapply Hcheck; [| |exact Hin]; lia).
  - (* general *)
    unfold MovesGen.gen_moves_general in Hin.
    destruct s; [| |done]; split_moves;
      try (eapply Hcheck; [| |exact Hin]; lia).
    + eapply (facing_good cb Side_up r c); [done..| | | |exact Hin];
        [unfold interior in Hi; unfold_consts; lia|done|done].
    + eapply (facing_good cb Side_down r c); [done..| | | |exact Hin];
        [unfold interior in Hi; unfold_consts; lia|done|done].
  - by apply elem_of_nil in Hin.
  - by apply elem_of_nil in Hin.
Qed.

Lemma gen_possible_moves_elem (cb : Board) (s : Side) (m : Move) :
  m ∈ MovesGen.gen_possible_moves cb s
  <-> exists r c, interior r c /\ m ∈ MovesGen.gen_cell cb s r c.
Proof.
  unfold MovesGen.gen_possible_moves.
  rewrite list_elem_of_In, in_flat_map. split.
  - intros (r & Hr & Hin). apply in_flat_map in Hin as (c & Hc & Hin).
    apply list_elem_of_In, elem_of_seqZ in Hr.
    apply list_elem_of_In, elem_of_seqZ in Hc.
    exists r, c. split; [unfold interior; unfold_consts; lia|].
    by apply list_elem_of_In.
  - intros (r & c & Hi & Hin). unfold interior in Hi. unfold_consts.
    exists r. split; [apply list_elem_of_In, elem_of_seqZ; lia|].
    apply in_flat_map. exists c.
    split; [apply list_elem_of_In, elem_of_seqZ; lia|].
    by apply list_elem_of_In.
Qed.

Lemma pseudo_moves_good (cb : Board) (s : Side) (m : Move) :
  wf_board cb = true -> s <> Side_extra ->
  m ∈ MovesGen.gen_possible_moves cb s -> good_move cb s m.
Proof.
  intros Hwf Hs Hin.
  apply gen_possible_moves_elem in Hin as (r & c & Hi & Hin).
  by apply (gen_cell_good cb s r c).
Qed.

(** C4. On a well-formed board, every move that [gen_possible_moves] lists
    for the upper or the lower side leaves an interior cell holding a piece
    of that side and arrives on a different cell, which is interior, is not
    the sentinel, and holds no piece of that side. *)
Theorem gen_possible_moves_well_placed (cb : Board) (s : Side) (m : Move) :
  wf_board cb = true -> s <> Side_extra ->
  m ∈ MovesGen.gen_possible_moves cb s ->
  interior (row (from m)) (col (from m))
  /\ piece_side (get_pos cb (from m)) = s
  /\ interior (row (to m)) (col (to m))
  /\ get_pos cb (to m) <> P_EO
  /\ piece_side (get_pos cb (to m)) <> s
  /\ from m <> to m.
Proof.
  intros Hwf Hs Hin.
  apply gen_possible_moves_elem in Hin as (r & c & Hi & Hin).
  by apply (gen_cell_good cb s r c).
Qed.

Lemma gen_possible_moves_well_placed_witness :
  interior (row (from (Move4 9 3 2 3))) (col (from (Move4 9 3 2 3)))
  /\ piece_side (get_pos new_board (from (Move4 9 3 2 3))) = Side_down
  /\ interior (row (to (Move4 9 3 2 3))) (col (to (Move4 9 3 2 3)))
  /\ get_pos new_board (to (Move4 9 3 2 3)) <> P_EO
  /\ piece_side (get_pos new_board (to (Move4 9 3 2 3))) <> Side_down
  /\ from (Move4 9 3 2 3) <> to (Move4 9 3 2 3).
Proof.
  apply (gen_possible_moves_well_placed new_board Side_down (Move4 9 3 2 3)).
  - vm_compute; reflexivity.
  - discriminate.
  - apply list_elem_of_In. vm_compute. tauto.
Defined.

(** ** Search *)

Lemma wrap32_range (z : Z) : INT32_MIN <= wrap32 z <= INT32_MAX.
Proof.
  unfold wrap32, INT32_MIN, INT32_MAX.
  pose proof (Z.mod_pos_bound (z + 2 ^ 31) (2 ^ 32)). lia.
Qed.

Lemma evaluate_range (tb : Tables) (board : Board) :
  INT32_MIN <= ScoreEvaluator.evaluate tb board <= INT32_MAX.
Proof.
  unfold ScoreEvaluator.evaluate.
  assert (forall (cells : list (Z * Z)) (acc : Z),
            INT32_MIN <= acc <= INT32_MAX ->
            INT32_MIN
            <= fold_left
                 (fun totalScore '(r, c) =>
                    let p := get board r c in
                    if negb (piece_eqb p P_EE) then
                      let totalScore :=
                        wrap32 (totalScore + piece_value_mapping tb p) in
                      wrap32 (totalScore
                              + piece_pos_value_mapping tb p (r - row_begin)
                                  (c - col_begin))
                    else totalScore)
                 cells acc
            <= INT32_MAX) as Hfold.
  { induction cells as [|[r c] cells IH]; intros acc Hacc; simpl; [done|].
    apply IH. destruct (negb _); [apply wrap32_range|done]. }
  apply Hfold. unfold INT32_MIN, INT32_MAX; lia.
Qed.

(** The loops hand back the board they were given when the recursive call
    does, and their value stays in range when its value does. *)
Section LoopFacts.

Variable rec : Board -> Z -> Z -> Z * Board.
Hypothesis rec_board : forall b a be, snd (rec b a be) = b.

Lemma max_loop_board beta moves board maxValue alpha :
  snd (max_loop rec beta moves board maxValue alpha) = board.
Proof using rec_board.
  revert board maxValue alpha.
  induction moves as [|m moves IH]; intros board maxValue alpha; simpl; [done|].
  pose proof (rec_board (move board m) alpha beta) as Hb.
  destruct (rec (move board m) alpha beta) as [v b']. simpl in Hb. subst b'.
  rewrite undo_move. destruct (_ >=? _); [done|apply IH].
Qed.

Lemma min_loop_board alpha moves board minValue beta :
  snd (min_loop rec alpha moves board minValue beta) = board.
Proof using rec_board.
  revert board minValue beta.
  induction moves as [|m moves IH]; intros board minValue beta; simpl; [done|].
  pose proof (rec_board (move board m) alpha beta) as Hb.
  destruct (rec (move board m) alpha beta) as [v b']. simpl in Hb. subst b'.
  rewrite undo_move. destruct (_ >=? _); [done|apply IH].
Qed.

Hypothesis rec_range :
  forall b a be, INT32_MIN <= fst (rec b a be) <= INT32_MAX.

Lemma max_loop_range beta moves board maxValue alpha :
  INT32_MIN <= maxValue <= INT32_MAX ->
  INT32_MIN <= fst (max_loop rec beta moves board maxValue alpha) <= INT32_MAX.
Proof using rec_range.
  revert board maxValue alpha.
  induction moves as [|m moves IH]; intros board maxValue alpha Hv; simpl;
    [done|].
  pose proof (rec_range (move board m) alpha beta) as Hr.
  destruct (rec (move board m) alpha beta) as [v b']. simpl in Hr.
  destruct (_ >=? _); [simpl; lia|apply IH; lia].
Qed.

Lemma min_loop_range alpha moves board minValue beta :
  INT32_MIN <= minValue <= INT32_MAX ->
  INT32_MIN <= fst (min_loop rec alpha moves board minValue beta) <= INT32_MAX.
Proof using rec_range.
  revert board minValue beta.
  induction moves as [|m moves IH]; intros board minValue beta Hv; simpl;
    [done|].
  pose proof (rec_range (move board m) alpha beta) as Hr.
  destruct (rec (move board m) alpha beta) as [v b']. simpl in Hr.
  destruct (_ >=? _); [simpl; lia|apply IH; lia].
Qed.

End LoopFacts.

Lemma min_max_board (tb : Tables) (searchDepth : nat) (board : Board)
    (alpha beta : Z) (isMax : bool) :
  snd (BestMoveGen.min_max tb searchDepth board alpha beta isMax) = board.
Proof.
  revert board alpha beta isMax.
  induction searchDepth as [|d IH]; intros board alpha beta isMax; simpl; [done|].
  destruct isMax.
  - apply max_loop_board. intros; apply IH.
  - apply min_loop_board. intros; apply IH.
Qed.

Lemma min_max_range (tb : Tables) (searchDepth : nat) (board : Board)
    (alpha beta : Z) (isMax : bool) :
  INT32_MIN <= fst (BestMoveGen.min_max tb searchDepth board alpha beta isMax)
            <= INT32_MAX.
Proof.
  revert board alpha beta isMax.
  induction searchDepth as [|d IH]; intros board alpha beta isMax; simpl.
  - apply evaluate_range.
  - destruct isMax.
    + apply max_loop_range; [intros; apply IH|].
      unfold INT32_MIN, INT32_MAX; lia.
    + apply min_loop_range; [intros; apply IH|].
      unfold INT32_MIN, INT32_MAX; lia.
Qed.

(** C10. At depth at least one, when the side to move (the lower side at a
    maximizing node, the upper side at a minimizing node) has no pseudo-move,
    [min_max] returns [INT32_MIN] at the maximizing node and [INT32_MAX] at
    the minimizing node, whatever the window, the weight tables and the
    position are: the position is not evaluated.  The board is unchanged. *)
Theorem min_max_no_moves (tb : Tables) (depth : nat) (board : Board)
    (alpha beta : Z) (isMax : bool) :
  MovesGen.gen_possible_moves board (if isMax then Side_down else Side_up) = [] ->
  BestMoveGen.min_max tb (S depth) board alpha beta isMax
  = (if isMax then INT32_MIN else INT32_MAX, board).
Proof.
  intros Hnone. simpl. destruct isMax; rewrite Hnone; reflexivity.
Qed.

Lemma min_max_no_moves_witness :
  BestMoveGen.min_max material_tables 3 lone_general_board INT32_MIN INT32_MAX true
  = (INT32_MIN, lone_general_board).
Proof.
  apply (min_max_no_moves material_tables 2 lone_general_board
           INT32_MIN INT32_MAX true).
  vm_compute. reflexivity.
Defined.

(** The root loops keep the last move, in list order, among those of least
    (greatest) score; a move replaces the held one when its score is not
    worse. *)
Section RootLoopFacts.

Variable rec : Board -> Z -> Z -> Z * Board.
Hypothesis rec_board : forall b a be, snd (rec b a be) = b.
Variables (alpha beta : Z) (board : Board).

Local Abbreviation f := (root_score rec alpha beta board).

Lemma root_min_loop_spec (moves : list Move) (v0 : Z) (m0 : Move) :
  exists v m,
    root_min_loop rec alpha beta moves board v0 m0 = (v, m, board)
    /\ ((v = v0 /\ m = m0 /\ forall mv, mv ∈ moves -> v0 < f mv)
        \/ (exists i : nat,
              moves !! i = Some m /\ v = f m /\ v <= v0
              /\ (forall (j : nat) mv, moves !! j = Some mv -> f m <= f mv)
              /\ (forall (j : nat) mv, moves !! j = Some mv -> (i < j)%nat ->
                    f m < f mv))).
Proof using rec_board.
  revert v0 m0. induction moves as [|mv moves IH]; intros v0 m0; simpl.
  - exists v0, m0. split; [done|]. left. split_and!; try done.
    intros mv Hin. by apply elem_of_nil in Hin.
  - pose proof (rec_board (move board mv) alpha beta) as Hb.
    assert (f mv = fst (rec (move board mv) alpha beta)) as Hf by done.
    destruct (rec (move board mv) alpha beta) as [temp b']. simpl in Hb, Hf.
    subst b'. rewrite undo_move.
    destruct (temp <=? v0) eqn:Hcmp;
      [apply Z.leb_le in Hcmp | apply Z.leb_gt in Hcmp].
    + destruct (IH temp mv) as (v & m & Heq & Hcases).
      exists v, m. split; [done|]. right.
      destruct Hcases as [(-> & -> & Hrest)
                         |(i & Hi & -> & Hle & Hall & Hlater)].
      * exists 0%nat. split_and!; try done; try lia.
        -- intros [|j] mv' Hj; simpl in Hj; [injection Hj as <-; lia|].
           apply list_elem_of_lookup_2 in Hj. apply Hrest in Hj. lia.
        -- intros [|j] mv' Hj Hlt; simpl in Hj; [lia|].
           apply list_elem_of_lookup_2 in Hj. apply Hrest in Hj. lia.
      * exists (S i). split_and!; try done; try lia.
        -- intros [|j] mv' Hj; simpl in Hj; [injection Hj as <-; lia|].
           by apply (Hall j).
        -- intros [|j] mv' Hj Hlt; simpl in Hj; [lia|].
           apply (Hlater j); [done|lia].
    + destruct (IH v0 m0) as (v & m & Heq & Hcases).
      exists v, m. split; [done|].
      destruct Hcases as [(-> & -> & Hrest)
                         |(i & Hi & -> & Hle & Hall & Hlater)].
      * left. split_and!; try done.
        intros mv' Hin. apply elem_of_cons in Hin as [->|Hin]; [lia|].
        by apply Hrest.
      * right. exists (S i). split_and!; try done.
        -- intros [|j] mv' Hj; simpl in Hj; [injection Hj as <-; lia|].
           by apply (Hall j).
        -- intros [|j] mv' Hj Hlt; simpl in Hj; [lia|].
           apply (Hlater j); [done|lia].
Qed.

Lemma root_max_loop_spec (moves : list Move) (v0 : Z) (m0 : Move) :
  exists v m,
    root_max_loop rec alpha beta moves board v0 m0 = (v, m, board)
    /\ ((v = v0 /\ m = m0 /\ forall mv, mv ∈ moves -> f mv < v0)
        \/ (exists i : nat,
              moves !! i = Some m /\ v = f m /\ v0 <= v
              /\ (forall (j : nat) mv, moves !! j = Some mv -> f mv <= f m)
              /\ (forall (j : nat) mv, moves !! j = Some mv -> (i < j)%nat ->
                    f mv < f m))).
Proof using rec_board.
  revert v0 m0. induction moves as [|mv moves IH]; intros v0 m0; simpl.
  - exists v0, m0. split; [done|]. left. split_and!; try done.
    intros mv Hin. by apply elem_of_nil in Hin.
  - pose proof (rec_board (move board mv) alpha beta) as Hb.
    assert (f mv = fst (rec (move board mv) alpha beta)) as Hf by done.
    destruct (rec (move board mv) alpha beta) as [temp b']. simpl in Hb, Hf.
    subst b'. rewrite undo_move.
    destruct (temp >=? v0) eqn:Hcmp;
      [apply Z.geb_le in Hcmp
      | rewrite Z.geb_leb in Hcmp; apply Z.leb_gt in Hcmp].
    + destruct (IH temp mv) as (v & m & Heq & Hcases).
      exists v, m. split; [done|]. right.
      destruct Hcases as [(-> & -> & Hrest)
                         |(i & Hi & -> & Hle & Hall & Hlater)].
      * exists 0%nat. split_and!; try done; try lia.
        -- intros [|j] mv' Hj; simpl in Hj; [injection Hj as <-; lia|].
           apply list_elem_of_lookup_2 in Hj. apply Hrest in Hj. lia.
        -- intros [|j] mv' Hj Hlt; simpl in Hj; [lia|].
           apply list_elem_of_lookup_2 in Hj. apply Hrest in Hj. lia.
      * exists (S i). split_and!; try done; try lia.
        -- intros [|j] mv' Hj; simpl in Hj; [injection Hj as <-; lia|].
           by apply (Hall j).
        -- intros [|j] mv' Hj Hlt; simpl in Hj; [lia|].
           apply (Hlater j); [done|lia].
    + destruct (IH v0 m0) as (v & m & Heq & Hcases).
      exists v, m. split; [done|].
      destruct Hcases as [(-> & -> & Hrest)
                         |(i & Hi & -> & Hle & Hall & Hlater)].
      * left. split_and!; try done.
        intros mv' Hin. apply elem_of_cons in Hin as [->|Hin]; [lia|].
        by apply Hrest.
      * right. exists (S i). split_and!; try done.
        -- intros [|j] mv' Hj; simpl in Hj; [injection Hj as <-; lia|].
           by apply (Hall j).
        -- intros [|j] mv' Hj Hlt; simpl in Hj; [lia|].
           apply (Hlater j); [done|lia].
Qed.

End RootLoopFacts.

(** C6. When the side has a pseudo-move, the sequential root search walks
    the pseudo-moves of the side in generator order, scores each by the
    search of its child with the window ([INT32_MIN], [INT32_MAX]), and
    returns a move of least score for the upper side and of greatest score
    for the lower side; among the moves of that score it returns the one
    generated last.  The value held at the end is the score of that move
    and the board is as before. *)
Theorem gen_returns_last_optimum (tb : Tables) (board : Board) (s : Side)
    (searchDepth : nat) :
  s <> Side_extra ->
  MovesGen.gen_possible_moves board s <> [] ->
  let moves := MovesGen.gen_possible_moves board s in
  let score := child_score tb board s searchDepth in
  let best := BestMoveGen.gen tb board s searchDepth in
  BestMoveGen.gen_search tb board s searchDepth = (score best, best, board)
  /\ exists i : nat,
       moves !! i = Some best
       /\ (forall (j : nat) mv, moves !! j = Some mv ->
             match s with
             | Side_up => score best <= score mv
             | _ => score mv <= score best
             end)
       /\ (forall (j : nat) mv, moves !! j = Some mv -> (i < j)%nat ->
             match s with
             | Side_up => score best < score mv
             | _ => score mv < score best
             end).
Proof.
  intros Hs Hne moves score best.
  assert (exists m1 rest, moves = m1 :: rest) as (m1 & rest & Hmoves).
  { unfold moves. destruct (MovesGen.gen_possible_moves board s); [done|eauto]. }
  subst best score. unfold BestMoveGen.gen, child_score.
  destruct s; [| |done]; unfold BestMoveGen.gen_search; cbv zeta;
    simpl side_eqb; fold moves.
  - destruct (root_min_loop_spec
                (fun b a be => BestMoveGen.min_max tb searchDepth b a be true)
                (fun b a be => min_max_board tb searchDepth b a be true)
                INT32_MIN INT32_MAX board moves INT32_MAX Move0)
      as (v & m & Heq & Hcases).
    unfold root_score in Hcases. rewrite Heq. simpl.
    destruct Hcases as [(_ & _ & Hall)|(i & Hi & -> & _ & Hall & Hlater)].
    + exfalso. specialize (Hall m1). rewrite Hmoves in Hall.
      specialize (Hall ltac:(left)).
      pose proof (min_max_range tb searchDepth (move board m1)
                    INT32_MIN INT32_MAX true). lia.
    + split; [done|]. exists i. split_and!; done.
  - destruct (root_max_loop_spec
                (fun b a be => BestMoveGen.min_max tb searchDepth b a be false)
                (fun b a be => min_max_board tb searchDepth b a be false)
                INT32_MIN INT32_MAX board moves INT32_MIN Move0)
      as (v & m & Heq & Hcases).
    unfold root_score in Hcases. rewrite Heq. simpl.
    destruct Hcases as [(_ & _ & Hall)|(i & Hi & -> & _ & Hall & Hlater)].
    + exfalso. specialize (Hall m1). rewrite Hmoves in Hall.
      specialize (Hall ltac:(left)).
      pose proof (min_max_range tb searchDepth (move board m1)
                    INT32_MIN INT32_MAX false). lia.
    + split; [done|]. exists i. split_and!; done.
Qed.

(** ** Positions reachable in play *)

Lemma ride_from (fuel : nat) (cb : Board) (r c row col rGap cGap : Z) (m : Move) :
  m ∈ fst (MovesGen.ride fuel cb r c row col rGap cGap) -> from m = mkPos r c.
Proof.
  revert row col. induction fuel as [|fuel IH]; intros row col; simpl.
  - intros H. by apply elem_of_nil in H.
  - destruct (piece_eqb _ _); [|intros H; by apply elem_of_nil in H].
    specialize (IH (row + rGap) (col + cGap)).
    destruct (MovesGen.ride fuel cb r c (row + rGap) (col + cGap) rGap cGap)
      as [ms st]. simpl in *.
    intros [->|H]%elem_of_cons; [done|by apply IH].
Qed.

Lemma jump_from (fuel : nat) (cb : Board) (r c row col rGap cGap : Z)
    (side : Side) (m : Move) :
  m ∈ MovesGen.jump fuel cb r c row col rGap cGap side -> from m = mkPos r c.
Proof.
  revert row col. induction fuel as [|fuel IH]; intros row col; simpl.
  - intros H. by apply elem_of_nil in H.
  - destruct (piece_eqb _ _); [apply IH|].
    destruct (side_eqb _ _); [|intros H; by apply elem_of_nil in H].
    by intros ->%list_elem_of_singleton.
Qed.

Lemma gen_cell_from (cb : Board) (s : Side) (r c : Z) (m : Move) :
  m ∈ MovesGen.gen_cell cb s r c -> from m = mkPos r c.
Proof.
  intros Hin. unfold MovesGen.gen_cell in Hin.
  destruct (side_eqb _ _); [|by apply elem_of_nil in Hin].
  assert (forall tr tc,
            m ∈ MovesGen.check_possible_move_and_insert cb r c tr tc ->
            from m = mkPos r c) as Hcheck
    by (intros tr tc [-> _]%elem_of_check; done).
  assert (forall rGap cGap,
            m ∈ MovesGen.gen_moves_cannon_one_direction cb r c rGap cGap s ->
            from m = mkPos r c) as Hcannon.
  { intros rGap cGap. unfold MovesGen.gen_moves_cannon_one_direction.
    pose proof (ride_from MovesGen.walk_fuel cb r c (r + rGap) (c + cGap)
                  rGap cGap m) as Hride.
    destruct (MovesGen.ride _ _ _ _ _ _ _ _) as [ms [[row col] p]].
    simpl in Hride. intros [H|H]%elem_of_app; [by apply Hride|].
    destruct (negb _); [by apply jump_from in H|by apply elem_of_nil in H]. }
  assert (forall rGap cGap,
            m ∈ MovesGen.gen_moves_rook_one_direction cb r c rGap cGap s ->
            from m = mkPos r c) as Hrook.
  { intros rGap cGap. unfold MovesGen.gen_moves_rook_one_direction.
    pose proof (ride_from MovesGen.walk_fuel cb r c (r + rGap) (c + cGap)
                  rGap cGap m) as Hride.
    destruct (MovesGen.ride _ _ _ _ _ _ _ _) as [ms [[row col] p]].
    simpl in Hride. intros [H|H]%elem_of_app; [by apply Hride|].
    destruct (side_eqb _ _); [|by apply elem_of_nil in H].
    by apply list_elem_of_singleton in H as ->. }
  destruct (piece_type (get cb r c)).
  - unfold MovesGen.gen_moves_pawn in Hin.
    destruct s; [| |by apply elem_of_nil in Hin]; split_moves; by eapply Hcheck.
  - unfold MovesGen.gen_moves_cannon in Hin. split_moves; by eapply Hcannon.
  - unfold MovesGen.gen_moves_rook in Hin. split_moves; by eapply Hrook.
  - unfold MovesGen.gen_moves_knight in Hin. split_moves; by eapply Hcheck.
  - unfold MovesGen.gen_moves_bishop, MovesGen.bishop_step in Hin.
    destruct s; [| |by apply elem_of_nil in Hin]; split_moves; by eapply Hcheck.
  - unfold MovesGen.gen_moves_advisor in Hin.
    destruct s; [| |by apply elem_of_nil in Hin]; split_moves; by eapply Hcheck.
  - unfold MovesGen.gen_moves_general in Hin.
    destruct s; [| |by apply elem_of_nil in Hin]; split_moves; try (by eapply Hcheck);
      by apply facing_elem in Hin as (k & _ & -> & _).
  - by apply elem_of_nil in Hin.
  - by apply elem_of_nil in Hin.
Qed.

Lemma cell_index_storage (r c : Z) :
  0 <= r < row_num -> 0 <= c < col_num ->
  exists i : nat, cell_index r c = Some i /\ Z.of_nat i = r * col_num + c
                  /\ (i < storage_size)%nat.
Proof.
  intros Hr Hc. unfold cell_index, storage_size. unfold_consts.
  exists (Z.to_nat (r * 13 + c)).
  destruct (0 <=? r * 13 + c) eqn:E; [|apply Z.leb_gt in E; lia].
  split_and!; [done|lia|lia].
Qed.

(** The cells of a board after a move between two cells of the storage. *)
Lemma get_move (b : Board) (m : Move) (r c : Z) :
  length (data b) = storage_size ->
  0 <= row (from m) < row_num -> 0 <= col (from m) < col_num ->
  0 <= row (to m) < row_num -> 0 <= col (to m) < col_num ->
  0 <= r < row_num -> 0 <= c < col_num ->
  get (move b m) r c
  = if pos_eqb (mkPos r c) (to m) then get_pos b (from m)
    else if pos_eqb (mkPos r c) (from m) then P_EE
    else get b r c.
Proof.
  destruct b as [d h], m as [[fr fc] [tr tc]]. cbn.
  intros Hlen Hfr Hfc Htr Htc Hr Hc.
  destruct (cell_index_storage fr fc Hfr Hfc) as (i & Hi & Hiz & Hilt).
  destruct (cell_index_storage tr tc Htr Htc) as (j & Hj & Hjz & Hjlt).
  destruct (cell_index_storage r c Hr Hc) as (k & Hk & Hkz & Hklt).
  unfold move, set, get_pos, get, set_data, pos_eqb; cbn.
  rewrite Hi, Hj, Hk.
  destruct (decide (k = j)) as [->|Hkj].
  - assert (r = tr /\ c = tc) as [-> ->] by (unfold_consts; lia).
    rewrite !Z.eqb_refl. cbn.
    rewrite list_lookup_insert_eq by (rewrite length_insert; lia). done.
  - rewrite list_lookup_insert_ne by done.
    assert ((r =? tr) && (c =? tc) = false) as ->.
    { apply andb_false_iff. rewrite !Z.eqb_neq.
      destruct (decide (r = tr)); [right|left]; [|done].
      intros ->. subst r. apply Hkj. lia. }
    destruct (decide (k = i)) as [->|Hki].
    + assert (r = fr /\ c = fc) as [-> ->] by (unfold_consts; lia).
      rewrite !Z.eqb_refl. cbn.
      rewrite list_lookup_insert_eq by lia. done.
    + rewrite list_lookup_insert_ne by done.
      assert ((r =? fr) && (c =? fc) = false) as ->; [|done].
      apply andb_false_iff. rewrite !Z.eqb_neq.
      destruct (decide (r = fr)); [right|left]; [|done].
      intros ->. subst r. apply Hki. lia.
Qed.

Lemma wf_board_intro (b : Board) :
  length (data b) = storage_size ->
  (forall r c, 0 <= r < row_num -> 0 <= c < col_num ->
     (get b r c = P_EO <-> ~ interior r c)) ->
  wf_board b = true.
Proof.
  intros Hlen Hall. unfold wf_board.
  apply andb_true_iff. split; [by apply Nat.eqb_eq|].
  apply forallb_forall. intros r Hr%list_elem_of_In%elem_of_seqZ.
  apply forallb_forall. intros c Hc%list_elem_of_In%elem_of_seqZ.
  specialize (Hall r c ltac:(lia) ltac:(lia)).
  rewrite <- interiorb_spec in Hall.
  destruct (interiorb r c); simpl.
  - destruct (piece_eqb _ _) eqn:E; [|done].
    apply piece_eqb_eq in E. apply Hall in E. by destruct E.
  - destruct (piece_eqb _ _) eqn:E; [done|].
    apply piece_eqb_neq in E. destruct E. apply Hall. discriminate.
Qed.

Lemma pos_eqb_eq (a b : Pos) : pos_eqb a b = true <-> a = b.
Proof.
  destruct a, b. unfold pos_eqb; cbn.
  rewrite andb_true_iff, !Z.eqb_eq. split; [intros [-> ->]|intros [= -> ->]]; done.
Qed.

Lemma move_eqb_eq (a b : Move) : move_eqb a b = true <-> a = b.
Proof.
  destruct a, b. unfold move_eqb; cbn.
  rewrite andb_true_iff, !pos_eqb_eq. split; [intros [-> ->]|intros [= -> ->]]; done.
Qed.

Lemma interior_storage (r c : Z) :
  interior r c -> 0 <= r < row_num /\ 0 <= c < col_num.
Proof. unfold interior. unfold_consts. lia. Qed.

(** A pseudo-move keeps the board well formed. *)
Lemma wf_move (b : Board) (s : Side) (m : Move) :
  wf_board b = true -> s <> Side_extra -> good_move b s m ->
  wf_board (move b m) = true.
Proof.
  intros Hwf Hs (Hfi & Hfs & Hti & Hto & Hts & Hne).
  destruct (wf_board_spec b Hwf) as [Hlen Hcells].
  destruct (interior_storage _ _ Hfi) as [Hfr Hfc].
  destruct (interior_storage _ _ Hti) as [Htr Htc].
  apply wf_board_intro.
  - destruct b as [d h], m as [[fr fc] [tr tc]].
    unfold move, set, set_data; cbn in *.
    destruct (cell_index tr tc), (cell_index fr fc);
      rewrite ?length_insert; done.
  - intros r c Hr Hc. rewrite get_move by done.
    destruct (pos_eqb (mkPos r c) (to m)) eqn:E1.
    + apply pos_eqb_eq in E1. rewrite <- E1 in Hti. cbn in Hti.
      split; [|done]. intros Ho.
      assert (piece_side (get_pos b (from m)) = Side_extra) by (by rewrite Ho).
      congruence.
    + destruct (pos_eqb (mkPos r c) (from m)) eqn:E2.
      * apply pos_eqb_eq in E2. rewrite <- E2 in Hfi. cbn in Hfi.
        split; [discriminate|done].
      * by apply Hcells.
Qed.

(** A pseudo-move keeps every bishop on its side of the river. *)
Lemma bishops_at_home_move (b : Board) (s : Side) (m : Move) :
  wf_board b = true -> s <> Side_extra -> bishops_at_home b ->
  m ∈ MovesGen.gen_possible_moves b s ->
  bishops_at_home (move b m).
Proof.
  intros Hwf Hs Hhome Hin.
  pose proof (proj1 (gen_possible_moves_elem b s m) Hin)
    as (fr & fc & Hfi & Hcell).
  pose proof (gen_cell_from b s fr fc m Hcell) as Hfrom.
  pose proof (gen_cell_good b s fr fc m Hwf Hs Hfi Hcell)
    as (_ & Hfs & Hti & _ & _ & _).
  destruct (wf_board_spec b Hwf) as [Hlen _].
  destruct (interior_storage _ _ Hfi) as [Hfr Hfc].
  destruct (interior_storage _ _ Hti) as [Htr Htc].
  intros r c Hi. destruct (interior_storage _ _ Hi) as [Hr Hc].
  rewrite get_move by (rewrite ?Hfrom; done).
  destruct (pos_eqb (mkPos r c) (to m)) eqn:E1.
  - apply pos_eqb_eq in E1.
    assert (r = row (to m)) as -> by (by rewrite <- E1).
    rewrite Hfrom in *. unfold get_pos in *; cbn in *.
    unfold MovesGen.gen_cell in Hcell. rewrite Hfs in Hcell.
    assert (side_eqb s s = true) as Hss by (by apply side_eqb_eq).
    rewrite Hss in Hcell.
    split; intros Hb; rewrite Hb in Hfs, Hcell.
    + change (piece_type P_UB) with Type_bishop in Hcell.
      cbv beta iota in Hcell.
      apply bishop_moves_home in Hcell as [Hup _].
      apply Hup; [done|]. by apply (Hhome fr fc).
    + change (piece_type P_DB) with Type_bishop in Hcell.
      cbv beta iota in Hcell.
      apply bishop_moves_home in Hcell as [_ Hdown].
      apply Hdown; [done|]. by apply (Hhome fr fc).
  - destruct (pos_eqb (mkPos r c) (from m)); [split; discriminate|].
    by apply Hhome.
Qed.

Lemma interior_cells_elem (r c : Z) :
  In (r, c) interior_cells <-> interior r c.
Proof.
  unfold interior_cells, interior. rewrite in_flat_map. unfold_consts. split.
  - intros (r' & Hr & Hin). apply in_map_iff in Hin as (c' & [= -> ->] & Hc).
    apply list_elem_of_In, elem_of_seqZ in Hr.
    apply list_elem_of_In, elem_of_seqZ in Hc. lia.
  - intros [Hr Hc]. exists r.
    split; [apply list_elem_of_In, elem_of_seqZ; lia|].
    apply in_map. apply list_elem_of_In, elem_of_seqZ. lia.
Qed.

Lemma bishops_at_homeb_spec (b : Board) :
  bishops_at_homeb b = true -> bishops_at_home b.
Proof.
  unfold bishops_at_homeb. rewrite forallb_forall.
  intros Hall r c Hi. apply interior_cells_elem in Hi.
  specialize (Hall (r, c) Hi). cbv beta iota in Hall.
  apply andb_true_iff in Hall as [Hup Hdown].
  split; intros Hb.
  - rewrite Hb in Hup. change (piece_eqb P_UB P_UB) with true in Hup.
    cbn [negb orb] in Hup. by apply Z.leb_le in Hup.
  - rewrite Hb in Hdown. change (piece_eqb P_DB P_DB) with true in Hdown.
    cbn [negb orb] in Hdown. apply Z.geb_le in Hdown. lia.
Qed.

Lemma play_invariant (ms : list Move) (b0 b : Board) (s : Side) :
  play b0 s ms = Some b -> s <> Side_extra ->
  wf_board b0 = true -> bishops_at_home b0 ->
  wf_board b = true /\ bishops_at_home b.
Proof.
  revert b0 s. induction ms as [|m ms IH]; intros b0 s Hplay Hs Hwf Hhome.
  - by injection Hplay as <-.
  - simpl in Hplay.
    destruct (existsb _ _) eqn:Hex; [|done].
    apply existsb_exists in Hex as (m' & Hin & Heq).
    apply move_eqb_eq in Heq. subst m'.
    apply list_elem_of_In in Hin.
    apply (IH (move b0 m) (piece_side_reverse s)); try done.
    + by destruct s.
    + apply (wf_move b0 s); try done.
      by apply pseudo_moves_good.
    + by apply (bishops_at_home_move b0 s).
Qed.

(** In every position reachable in play the board is well formed and the
    bishops stand on their own side of the river, so the premises of the
    generator properties hold there. *)
Lemma reachable_invariant (b : Board) :
  reachable b -> wf_board b = true /\ bishops_at_home b.
Proof.
  intros (s & ms & Hs & Hplay).
  apply (play_invariant ms new_board b s); try done.
  apply bishops_at_homeb_spec. vm_compute. reflexivity.
Qed.

Lemma reachable_bishop_never_crosses (b : Board) (s : Side) (m : Move) :
  reachable b -> s <> Side_extra ->
  m ∈ MovesGen.gen_possible_moves b s ->
  (get_pos b (from m) = P_UB -> row (to m) <= river_up)
  /\ (get_pos b (from m) = P_DB -> row (to m) >= river_down).
Proof.
  intros Hreach Hs Hin.
  destruct (reachable_invariant b Hreach) as [Hwf Hhome].
  pose proof (bishops_at_home_move b s m Hwf Hs Hhome Hin) as Hafter.
  pose proof (pseudo_moves_good b s m Hwf Hs Hin)
    as (Hfi & _ & Hti & _ & _ & Hne).
  destruct (wf_board_spec b Hwf) as [Hlen _].
  destruct (interior_storage _ _ Hfi) as [Hfr Hfc].
  destruct (interior_storage _ _ Hti) as [Htr Htc].
  specialize (Hafter (row (to m)) (col (to m)) Hti).
  rewrite get_move in Hafter by done.
  assert (pos_eqb (mkPos (row (to m)) (col (to m))) (to m) = true) as Heq
    by (apply pos_eqb_eq; by destruct (to m)).
  by rewrite Heq in Hafter.
Qed.

Lemma piece_type_bishop (p : Piece) :
  piece_type p = Type_bishop -> p = P_UB \/ p = P_DB.
Proof.
  unfold piece_type.
  repeat match goal with
         | |- context [piece_eqb p ?q] =>
             let E := fresh "E" in
             destruct (piece_eqb p q) eqn:E;
             [apply piece_eqb_eq in E; subst p; cbn [orb]
             |cbn [orb]]
         end; try discriminate; try tauto.
Qed.

(** C8. In every position reachable in play, for every bishop on the board:
    each move generated for it is a step of exactly two cells along a
    diagonal, generated only if the middle cell, the elephant eye, is
    empty, and it never lands across the river.  A move of an upper bishop
    ends on a row at most [river_up], and an upper bishop that stands on
    row [river_up] has no forward move; a move of a lower bishop ends on a
    row at least [river_down], and a lower bishop on row [river_down] has
    no forward move. *)
Theorem bishop_moves_keep_river (b : Board) (r c : Z) (side : Side)
    (m : Move) :
  reachable b -> interior r c ->
  piece_type (get b r c) = Type_bishop -> piece_side (get b r c) = side ->
  m ∈ MovesGen.gen_moves_bishop b r c side ->
  exists dr dc,
    (dr = 1 \/ dr = -1) /\ (dc = 1 \/ dc = -1)
    /\ m = Move4 r c (r + 2 * dr) (c + 2 * dc)
    /\ get b (r + dr) (c + dc) = P_EE
    /\ accepted b r c (r + 2 * dr) (c + 2 * dc)
    /\ (side = Side_up ->
        row (to m) <= river_up /\ (r = river_up -> dr = -1))
    /\ (side = Side_down ->
        row (to m) >= river_down /\ (r = river_down -> dr = 1)).
Proof.
  intros Hreach Hi Htype Hside Hin.
  destruct (reachable_invariant b Hreach) as [_ Hhome].
  destruct (Hhome r c Hi) as [Hup Hdown].
  pose proof (bishop_moves_home b r c side m Hin) as [Hup' Hdown'].
  apply bishop_elem in Hin
    as (dr & dc & Hdr & Hdc & Hm & Heye & Hacc & Hfu & Hfd).
  exists dr, dc. split_and!; try done; intros Hs.
  - assert (get b r c = P_UB) as Hb.
    { destruct (piece_type_bishop _ Htype) as [Hp|Hp]; [done|].
      rewrite Hp in Hside. subst side. discriminate. }
    split; [by auto|].
    intros Hr. destruct Hdr as [-> | ->]; [|done].
    specialize (Hfu Hs eq_refl). lia.
  - assert (get b r c = P_DB) as Hb.
    { destruct (piece_type_bishop _ Htype) as [Hp|Hp]; [|done].
      rewrite Hp in Hside. subst side. discriminate. }
    split; [by auto|].
    intros Hr. destruct Hdr as [-> | ->]; [done|].
    specialize (Hfd Hs eq_refl). lia.
Qed.

Lemma bishop_moves_keep_river_witness :
  exists dr dc,
    (dr = 1 \/ dr = -1) /\ (dc = 1 \/ dc = -1)
    /\ Move4 6 8 4 10 = Move4 6 8 (6 + 2 * dr) (8 + 2 * dc)
    /\ get (apply_moves new_board bishop_river_game) (6 + dr) (8 + dc) = P_EE
    /\ accepted (apply_moves new_board bishop_river_game) 6 8
         (6 + 2 * dr) (8 + 2 * dc)
    /\ (Side_up = Side_up ->
        row (to (Move4 6 8 4 10)) <= river_up /\ (6 = river_up -> dr = -1))
    /\ (Side_up = Side_down ->
        row (to (Move4 6 8 4 10)) >= river_down
        /\ (6 = river_down -> dr = 1)).
Proof.
  apply (bishop_moves_keep_river (apply_moves new_board bishop_river_game)
           6 8 Side_up (Move4 6 8 4 10)).
  - exists Side_up, bishop_river_game.
    split; [discriminate|vm_compute; reflexivity].
  - solve_interior.
  - vm_compute. reflexivity.
  - vm_compute. reflexivity.
  - apply list_elem_of_In. vm_compute. tauto.
Defined.

(** ** The parallel root search on the upper side *)

Lemma max_loop_ext (rec rec' : Board -> Z -> Z -> Z * Board) :
  (forall b a be, rec b a be = rec' b a be) ->
  forall beta moves board maxValue alpha,
    max_loop rec beta moves board maxValue alpha
    = max_loop rec' beta moves board maxValue alpha.
Proof.
  intros Hext beta moves.
  induction moves as [|m moves IH]; intros board maxValue alpha; simpl; [done|].
  rewrite Hext. destruct (rec' (move board m) alpha beta) as [v b'].
  destruct (_ >=? _); [done|apply IH].
Qed.

Lemma min_loop_ext (rec rec' : Board -> Z -> Z -> Z * Board) :
  (forall b a be, rec b a be = rec' b a be) ->
  forall alpha moves board minValue beta,
    min_loop rec alpha moves board minValue beta
    = min_loop rec' alpha moves board minValue beta.
Proof.
  intros Hext alpha moves.
  induction moves as [|m moves IH]; intros board minValue beta; simpl; [done|].
  rewrite Hext. destruct (rec' (move board m) alpha beta) as [v b'].
  destruct (_ >=? _); [done|apply IH].
Qed.

Lemma root_min_loop_ext (rec rec' : Board -> Z -> Z -> Z * Board) :
  (forall b a be, rec b a be = rec' b a be) ->
  forall alpha beta moves board minValue bestMove,
    root_min_loop rec alpha beta moves board minValue bestMove
    = root_min_loop rec' alpha beta moves board minValue bestMove.
Proof.
  intros Hext alpha beta moves.
  induction moves as [|m moves IH]; intros board minValue bestMove; simpl;
    [done|].
  rewrite Hext. destruct (rec' (move board m) alpha beta) as [v b'].
  destruct (_ <=? _); apply IH.
Qed.

(** The two copies of [min_max] are one function. *)
Lemma parallel_min_max_eq (tb : Tables) (searchDepth : nat) (board : Board)
    (alpha beta : Z) (isMax : bool) :
  BestMoveGenParallel.min_max tb searchDepth board alpha beta isMax
  = BestMoveGen.min_max tb searchDepth board alpha beta isMax.
Proof.
  revert board alpha beta isMax.
  induction searchDepth as [|d IH]; intros board alpha beta isMax; simpl; [done|].
  destruct isMax.
  - apply max_loop_ext. intros; apply IH.
  - apply min_loop_ext. intros; apply IH.
Qed.

Lemma last_min_unique (f : Move -> Z) (l : list Move) (v v' : Z) (m m' : Move) :
  last_min f l v m -> last_min f l v' m' -> v = v' /\ m = m'.
Proof.
  intros (i & Hi & -> & Hall & Hlater) (i' & Hi' & -> & Hall' & Hlater').
  assert (i = i') as ->.
  { destruct (Nat.lt_total i i') as [Hlt|[->|Hlt]]; [|done|].
    - specialize (Hlater i' m' Hi' Hlt). specialize (Hall' i m Hi). lia.
    - specialize (Hlater' i m Hi Hlt). specialize (Hall i' m' Hi'). lia. }
  rewrite Hi in Hi'. by injection Hi' as ->.
Qed.

Lemma last_min_app (f : Move -> Z) (l1 l2 : list Move) (v1 v2 : Z)
    (m1 m2 : Move) :
  last_min f l1 v1 m1 -> last_min f l2 v2 m2 ->
  last_min f (l1 ++ l2) (if v2 <=? v1 then v2 else v1)
           (if v2 <=? v1 then m2 else m1).
Proof.
  intros (i1 & Hi1 & -> & Hall1 & Hlater1) (i2 & Hi2 & -> & Hall2 & Hlater2).
  pose proof (lookup_lt_Some _ _ _ Hi1) as Hlt1.
  destruct (f m2 <=? f m1) eqn:Hcmp;
    [apply Z.leb_le in Hcmp | apply Z.leb_gt in Hcmp].
  - exists (length l1 + i2)%nat. split_and!; try done.
    + rewrite lookup_app_r by lia.
      by replace (length l1 + i2 - length l1)%nat with i2 by lia.
    + intros j mv [Hj|[Hge Hj]]%lookup_app_Some.
      * specialize (Hall1 j mv Hj). lia.
      * by apply (Hall2 _ _ Hj).
    + intros j mv [Hj|[Hge Hj]]%lookup_app_Some Hlt.
      * apply lookup_lt_Some in Hj. lia.
      * apply (Hlater2 _ _ Hj). lia.
  - exists i1. split_and!; try done.
    + by apply lookup_app_l_Some.
    + intros j mv [Hj|[Hge Hj]]%lookup_app_Some.
      * by apply (Hall1 _ _ Hj).
      * specialize (Hall2 _ _ Hj). lia.
    + intros j mv [Hj|[Hge Hj]]%lookup_app_Some Hlt.
      * by apply (Hlater1 _ _ Hj).
      * specialize (Hall2 _ _ Hj). lia.
Qed.

(** The chunks of [split_vector] are not empty and cover the list in
    order. *)
Lemma chunks_cover (vec : list Move) (k L : nat) :
  (1 <= L)%nat -> (S k * L <= length vec)%nat ->
  concat (map (fun counter => take L (drop (counter * L) vec)) (seq 0 k)
          ++ [drop (k * L) vec]) = vec
  /\ Forall (fun chunk => chunk <> [])
       (map (fun counter => take L (drop (counter * L) vec)) (seq 0 k)
        ++ [drop (k * L) vec]).
Proof.
  intros HL Hlen. split.
  - rewrite concat_app. simpl. rewrite app_nil_r.
    assert (forall k', (k' <= k)%nat ->
              concat (map (fun counter => take L (drop (counter * L) vec))
                          (seq 0 k')) = take (k' * L) vec) as Hpre.
    { induction k' as [|k' IH]; intros Hk'; [done|].
      rewrite seq_S, map_app, concat_app, IH by lia. simpl.
      rewrite app_nil_r, take_take_drop. f_equal. lia. }
    rewrite Hpre by lia. apply take_drop.
  - apply Forall_app. split.
    + apply Forall_forall. intros chunk Hin%list_elem_of_In.
      apply list_elem_of_fmap in Hin as (counter & -> & Hc).
      apply list_elem_of_In, in_seq in Hc.
      intros Hnil. apply (f_equal length) in Hnil.
      rewrite length_take, length_drop in Hnil. simpl in Hnil. nia.
    + apply Forall_singleton. intros Hnil. apply (f_equal length) in Hnil.
      rewrite length_drop in Hnil. simpl in Hnil. nia.
Qed.

Lemma split_vector_spec (vec : list Move) (chunkNum : nat) :
  vec <> [] -> (0 < chunkNum)%nat ->
  exists chunks,
    BestMoveGenParallel.split_vector vec chunkNum = Some chunks
    /\ chunks <> [] /\ concat chunks = vec
    /\ Forall (fun chunk => chunk <> []) chunks.
Proof.
  intros Hne Hnum. unfold BestMoveGenParallel.split_vector.
  assert (0 < length vec)%nat as Hlen by (destruct vec; [done|simpl; lia]).
  destruct (length vec / chunkNum =? 0)%nat eqn:E.
  - destruct (length vec) as [|k] eqn:El; [lia|].
    destruct (chunks_cover vec k 1) as [Hcat Hall]; [lia|lia|].
    eexists. split; [done|]. split_and!; try done.
    by destruct (map _ _).
  - apply Nat.eqb_neq in E.
    destruct chunkNum as [|k]; [lia|].
    destruct (chunks_cover vec k (length vec / S k)) as [Hcat Hall]; [lia| |].
    { apply Nat.Div0.mul_div_le. }
    eexists. split; [done|]. split_and!; try done.
    by destruct (map _ _).
Qed.

Lemma float_of_int32_exact (z : Z) :
  Z.abs z < 2 ^ 24 -> BestMoveGenParallel.float_of_int32 z = z.
Proof.
  intros Hz. unfold BestMoveGenParallel.float_of_int32.
  destruct (Z.abs z <? 2 ^ 24) eqn:E; [done|]. apply Z.ltb_ge in E. lia.
Qed.

Section UpperAgreement.

Variables (tb : Tables) (board : Board) (searchDepth : nat).

Local Abbreviation score := (child_score tb board Side_up searchDepth).

(** A root loop started afresh on a list that is not empty ends with the
    last move of least score. *)
Lemma root_min_loop_fresh (l : list Move) :
  l <> [] ->
  exists v m,
    root_min_loop
      (fun b a be => BestMoveGen.min_max tb searchDepth b a be true)
      INT32_MIN INT32_MAX l board INT32_MAX Move0 = (v, m, board)
    /\ last_min score l v m.
Proof.
  intros Hne.
  destruct (root_min_loop_spec
              (fun b a be => BestMoveGen.min_max tb searchDepth b a be true)
              (fun b a be => min_max_board tb searchDepth b a be true)
              INT32_MIN INT32_MAX board l INT32_MAX Move0)
    as (v & m & Heq & Hcases).
  exists v, m. split; [done|].
  destruct Hcases as [(_ & _ & Hall)|(i & Hi & -> & _ & Hall & Hlater)].
  - exfalso. destruct l as [|m1 l]; [done|].
    specialize (Hall m1 ltac:(left)). unfold root_score in Hall.
    pose proof (min_max_range tb searchDepth (move board m1)
                  INT32_MIN INT32_MAX true). lia.
  - by exists i.
Qed.

Lemma task_up_spec (chunk : list Move) :
  chunk <> [] ->
  exists v m,
    BestMoveGenParallel.task_up tb board searchDepth chunk = (m, v)
    /\ last_min score chunk v m.
Proof.
  intros Hne. unfold BestMoveGenParallel.task_up.
  rewrite (root_min_loop_ext _
             (fun b a be => BestMoveGen.min_max tb searchDepth b a be true))
    by (intros; apply parallel_min_max_eq).
  destruct (root_min_loop_fresh chunk Hne) as (v & m & -> & Hlast).
  by exists v, m.
Qed.

Lemma last_min_elem (l : list Move) (v : Z) (m : Move) :
  last_min score l v m -> m ∈ l /\ v = score m.
Proof.
  intros (i & Hi & -> & _). split; [|done]. by eapply list_elem_of_lookup_2.
Qed.

(** The reducer, once it holds the result for the chunks [pre], ends with
    the result for all the chunks, provided the scores convert to [float]
    without rounding. *)
Lemma reduce_min_spec (rest pre : list (list Move)) (v : Z) (m : Move)
    (k : nat) :
  Forall (fun chunk => chunk <> []) rest ->
  (forall mv, mv ∈ concat (pre ++ rest) -> Z.abs (score mv) < 2 ^ 24) ->
  last_min score (concat pre) v m ->
  map (BestMoveGenParallel.task_up tb board searchDepth) pre !! k = Some (m, v) ->
  exists v' m' k',
    snd (BestMoveGenParallel.reduce_min
           (map snd (map (BestMoveGenParallel.task_up tb board searchDepth) rest))
           (length pre) v (Some k)) = Some k'
    /\ map (BestMoveGenParallel.task_up tb board searchDepth) (pre ++ rest) !! k'
       = Some (m', v')
    /\ last_min score (concat (pre ++ rest)) v' m'.
Proof.
  revert pre v m k.
  induction rest as [|chunk rest IH]; intros pre v m k Hne Hexact Hlast Hk.
  - exists v, m, k. rewrite app_nil_r. simpl. done.
  - apply Forall_cons_1 in Hne as [Hchunk Hne].
    destruct (task_up_spec chunk Hchunk) as (vc & mc & Htask & Hlastc).
    destruct (last_min_elem _ _ _ Hlastc) as [Hmc Hvc].
    assert (BestMoveGenParallel.float_of_int32 vc = vc) as Hfloat.
    { apply float_of_int32_exact. rewrite Hvc. apply Hexact.
      rewrite concat_app. simpl. rewrite !elem_of_app. by right; left. }
    replace (pre ++ chunk :: rest) with ((pre ++ [chunk]) ++ rest) in *
      by (by rewrite <- app_assoc).
    assert (concat (pre ++ [chunk]) = concat pre ++ chunk) as Hcat
      by (rewrite concat_app; simpl; by rewrite app_nil_r).
    pose proof (last_min_app score _ _ _ _ _ _ Hlast Hlastc) as Happ.
    rewrite <- Hcat in Happ.
    simpl. rewrite Htask. simpl. rewrite Hfloat.
    replace (S (length pre)) with (length (pre ++ [chunk]))
      by (rewrite length_app; simpl; lia).
    destruct (vc <=? v) eqn:Hcmp.
    + apply (IH (pre ++ [chunk]) vc mc (length pre)); try done.
      rewrite map_app. simpl. rewrite Htask.
      rewrite lookup_app_r by (rewrite length_map; lia).
      rewrite length_map. by replace (length pre - length pre)%nat with 0%nat by lia.
    + apply (IH (pre ++ [chunk]) v m k); try done.
      rewrite map_app. by apply lookup_app_l_Some.
Qed.

End UpperAgreement.

Lemma reduce_min_cons (v : Z) (vals : list Z) (i : nat) (minVal : Z)
    (idx : option nat) :
  BestMoveGenParallel.reduce_min (v :: vals) i minVal idx
  = if BestMoveGenParallel.float_of_int32 v <=? minVal
    then BestMoveGenParallel.reduce_min vals (S i)
           (BestMoveGenParallel.float_of_int32 v) (Some i)
    else BestMoveGenParallel.reduce_min vals (S i) minVal idx.
Proof. reflexivity. Qed.

(** On the upper side, when no score of a root move is rounded by the
    conversion to [float], the parallel search returns the move and the
    value of the sequential search. *)
Lemma parallel_agrees_for_upper (tb : Tables) (board : Board) (searchDepth : nat) :
  MovesGen.gen_possible_moves board Side_up <> [] ->
  (forall mv, mv ∈ MovesGen.gen_possible_moves board Side_up ->
              Z.abs (child_score tb board Side_up searchDepth mv) < 2 ^ 24) ->
  BestMoveGenParallel.gen_search tb board Side_up searchDepth
  = Some (BestMoveGen.gen tb board Side_up searchDepth,
          fst (fst (BestMoveGen.gen_search tb board Side_up searchDepth))).
Proof.
  intros Hne Hexact.
  destruct (root_min_loop_fresh tb board searchDepth _ Hne)
    as (vs & ms & Hseq & Hlasts).
  unfold BestMoveGen.gen, BestMoveGen.gen_search. cbv zeta. rewrite Hseq.
  cbn [fst snd].
  unfold BestMoveGenParallel.gen_search.
  destruct (split_vector_spec _ BestMoveGenParallel.split_chunk_num Hne)
    as (chunks & -> & Hchunks & Hcat & Hall);
    [unfold BestMoveGenParallel.split_chunk_num; lia|].
  cbn [mbind option_bind].
  destruct chunks as [|chunk rest]; [done|].
  apply Forall_cons_1 in Hall as [Hchunk Hall].
  destruct (task_up_spec tb board searchDepth chunk Hchunk)
    as (vc & mc & Htask & Hlastc).
  destruct (last_min_elem tb board searchDepth _ _ _ Hlastc) as [Hmc Hvc].
  assert (Z.abs vc < 2 ^ 24) as Hb.
  { rewrite Hvc. apply Hexact. rewrite <- Hcat.
    change (concat (chunk :: rest)) with (chunk ++ concat rest).
    rewrite elem_of_app. by left. }
  assert (forall mv, mv ∈ concat ([chunk] ++ rest) ->
            Z.abs (child_score tb board Side_up searchDepth mv) < 2 ^ 24)
    as Hexact'.
  { intros mv Hin. apply Hexact. rewrite <- Hcat. exact Hin. }
  assert (last_min (child_score tb board Side_up searchDepth)
            (concat [chunk]) vc mc) as Hlast1
    by (simpl; by rewrite app_nil_r).
  assert (map (BestMoveGenParallel.task_up tb board searchDepth) [chunk] !! 0%nat
          = Some (mc, vc)) as Hk1
    by (simpl; by rewrite Htask).
  destruct (reduce_min_spec tb board searchDepth rest [chunk] vc mc 0
              Hall Hexact' Hlast1 Hk1)
    as (v' & m' & k' & Hred & Hk' & Hlast').
  change ([chunk] ++ rest) with (chunk :: rest) in Hk', Hlast'.
  rewrite Hcat in Hlast'.
  destruct (last_min_unique _ _ _ _ _ _ Hlasts Hlast') as [-> ->].
  rewrite !map_cons, reduce_min_cons, Htask. cbn [snd].
  rewrite (float_of_int32_exact vc Hb).
  assert ((vc <=? BestMoveGenParallel.float_of_int32 INT32_MAX) = true) as ->.
  { apply Z.leb_le.
    change (BestMoveGenParallel.float_of_int32 INT32_MAX) with (2 ^ 31). lia. }
  change (length [chunk]) with 1%nat in Hred. rewrite Hred.
  cbn [mbind option_bind].
  rewrite <- Htask, <- map_cons. exact Hk'.
Qed.

Lemma gen_returns_last_optimum_witness :
  let moves := MovesGen.gen_possible_moves guarded_pawn_board Side_down in
  let score := child_score material_tables guarded_pawn_board Side_down 1 in
  let best := BestMoveGen.gen material_tables guarded_pawn_board Side_down 1 in
  BestMoveGen.gen_search material_tables guarded_pawn_board Side_down 1
  = (score best, best, guarded_pawn_board)
  /\ exists i : nat,
       moves !! i = Some best
       /\ (forall (j : nat) mv, moves !! j = Some mv ->
             match Side_down with
             | Side_up => score best <= score mv
             | _ => score mv <= score best
             end)
       /\ (forall (j : nat) mv, moves !! j = Some mv -> (i < j)%nat ->
             match Side_down with
             | Side_up => score best < score mv
             | _ => score mv < score best
             end).
Proof.
  apply (gen_returns_last_optimum material_tables guarded_pawn_board
           Side_down 1).
  - discriminate.
  - vm_compute. discriminate.
Defined.

(** C2. The parallel root search does not compute the score of the
    sequential one for the lower side: its tasks search every child as a
    maximizing node.  On [guarded_pawn_board] with the material tables the
    sequential search values the position at -3 and keeps the rook, while
    the parallel search values it at 7 (depth 1) or 9 (depth 3) and takes
    the guarded pawn, a move the sequential search scores -11. *)
Theorem parallel_root_search_differs :
  fst (BestMoveGen.gen_search material_tables guarded_pawn_board Side_down 1)
  = (-3, Move4 11 7 11 6)
  /\ BestMoveGenParallel.gen_search material_tables guarded_pawn_board Side_down 1
     = Some (Move4 8 2 5 2, 7)
  /\ child_score material_tables guarded_pawn_board Side_down 1 (Move4 8 2 5 2)
     = -11
  /\ fst (BestMoveGen.gen_search material_tables guarded_pawn_board Side_down 3)
     = (-3, Move4 11 7 11 6)
  /\ BestMoveGenParallel.gen_search material_tables guarded_pawn_board Side_down 3
     = Some (Move4 8 2 5 2, 9)
  /\ child_score material_tables guarded_pawn_board Side_down 3 (Move4 8 2 5 2)
     = -11.
Proof. vm_compute. split_and!; reflexivity. Qed.

(** ** Frontend *)

Lemma char_between_file (ch : ascii) :
  GameOps.char_between "a" "i" ch = true <-> is_file ch.
Proof.
  unfold GameOps.char_between, is_file.
  rewrite andb_true_iff, !N.leb_le. tauto.
Qed.

Lemma char_between_rank (ch : ascii) :
  GameOps.char_between "0" "9" ch = true <-> is_rank ch.
Proof.
  unfold GameOps.char_between, is_rank.
  rewrite andb_true_iff, !N.leb_le. tauto.
Qed.

Lemma is_input_a_move_spec (input : string) :
  GameOps.is_input_a_move input = true <-> move_form_prefix input.
Proof.
  unfold move_form_prefix.
  destruct input as [|c0 [|c1 [|c2 [|c3 rest]]]];
    try (split; [discriminate | intros (?&?&?&?&?& [=] & _)]).
  unfold GameOps.is_input_a_move. cbn.
  rewrite !andb_true_iff, !char_between_file, !char_between_rank.
  split.
  - intros [[[? ?] ?] ?]. by exists c0, c1, c2, c3, rest.
  - intros (?&?&?&?&?& [= -> -> -> -> ->] & ? & ? & ? & ?). done.
Qed.

(** The reading "recognized iff exactly four characters" fails: a fifth
    character does not stop an input from being taken as a move. *)
Lemma is_input_a_move_exact_counterexample :
  ~ (forall input : string,
       GameOps.is_input_a_move input = true <-> exact_move_form input).
Proof.
  intros H.
  assert (exact_move_form "b2e2x") as (f1 & r1 & f2 & r2 & Heq & _)
    by (apply H; reflexivity).
  discriminate Heq.
Qed.

(** C9 (amended). An input is recognized as a move exactly when it has at
    least four characters of which the first four are file, rank, file,
    rank with files a to i and ranks 0 to 9; what follows them is ignored,
    also by the conversion to a move.  An input that is not recognized is
    answered with the unknown-command message and the game, its board
    included, is left as it was. *)
Theorem is_input_a_move_prefix (tb : Tables) (g : Game) (input : string) :
  (GameOps.is_input_a_move input = true <-> move_form_prefix input)
  /\ (forall f1 r1 f2 r2 rest,
        GameOps.input_to_move
          (String f1 (String r1 (String f2 (String r2 rest))))
        = GameOps.input_to_move
            (String f1 (String r1 (String f2 (String r2 EmptyString)))))
  /\ (GameOps.is_input_a_move input = false ->
      GameOps.handle_move tb g input = (g, unknown_command)).
Proof.
  split_and!.
  - apply is_input_a_move_spec.
  - reflexivity.
  - intros Hno. unfold GameOps.handle_move. by rewrite Hno.
Qed.

(** ** Win detection *)

(** C1. A game from the opening in which the sides alternate and play only
    pseudo-moves reaches a position where the upper general faces the lower
    general on an open file.  The capture is among the pseudo-moves of the
    upper side and its destination holds the lower general, yet after it
    [is_win] answers [false] for the upper side (and for the lower side):
    the lower general is gone, and the upper general now stands in the
    lower palace, where the scan for it does not look. *)
Theorem flying_general_win_missed :
  exists b : Board,
    play new_board Side_down open_file_game = Some b
    /\ reachable b
    /\ flying_capture ∈ MovesGen.gen_possible_moves b Side_up
    /\ get_pos b (to flying_capture) = P_DG
    /\ GameOps.is_win (move b flying_capture) Side_up = false
    /\ GameOps.is_win (move b flying_capture) Side_down = false
    /\ GameOps.palace_has (move b flying_capture)
         nine_palace_down_top nine_palace_down_left P_DG = false
    /\ GameOps.palace_has (move b flying_capture)
         nine_palace_down_top nine_palace_down_left P_UG = true
    /\ GameOps.palace_has (move b flying_capture)
         nine_palace_up_top nine_palace_up_left P_UG = false.
Proof.
  eexists. split; [vm_compute; reflexivity|].
  split; [exists Side_down, open_file_game; split; [discriminate|vm_compute; reflexivity]|].
  split; [apply list_elem_of_In; vm_compute; tauto|].
  split_and!; vm_compute; reflexivity.
Qed.

(** ** Alpha-beta against minimax *)

Lemma fold_max_ge (g : Move -> Z) (l : list Move) (M : Z) :
  M <= fold_left (fun acc m => Z.max acc (g m)) l M.
Proof.
  revert M. induction l as [|m l IH]; intros M; simpl; [lia|].
  specialize (IH (Z.max M (g m))). lia.
Qed.

Lemma fold_min_le (g : Move -> Z) (l : list Move) (M : Z) :
  fold_left (fun acc m => Z.min acc (g m)) l M <= M.
Proof.
  revert M. induction l as [|m l IH]; intros M; simpl; [lia|].
  specialize (IH (Z.min M (g m))). lia.
Qed.

Section PruningLoops.

Variable rec : Board -> Z -> Z -> Z * Board.
Variable exact : Board -> Z.
Hypothesis rec_board : forall b a be, snd (rec b a be) = b.
Hypothesis rec_bounds :
  forall b a be, INT32_MIN <= a -> a < be -> be <= INT32_MAX ->
                 window_bounds (fst (rec b a be)) (exact b) a be.

Variables (board : Board) (alpha0 beta0 : Z).
Hypothesis alpha0_min : INT32_MIN <= alpha0.
Hypothesis beta0_max : beta0 <= INT32_MAX.

Lemma max_loop_bounds (moves : list Move) (maxValue alpha M : Z) :
  alpha = Z.max alpha0 maxValue -> alpha < beta0 ->
  (M <= alpha0 -> M <= maxValue <= alpha0) ->
  (alpha0 < M -> maxValue = M) ->
  window_bounds
    (fst (max_loop rec beta0 moves board maxValue alpha))
    (fold_left (fun acc m => Z.max acc (exact (move board m))) moves M)
    alpha0 beta0.
Proof using rec_board rec_bounds alpha0_min beta0_max.
  revert maxValue alpha M.
  induction moves as [|m moves IH]; intros maxValue alpha M Halpha Hlt Hlow Hin.
  - cbn [max_loop fold_left fst]. unfold window_bounds. lia.
  - cbn [max_loop fold_left].
    pose proof (rec_board (move board m) alpha beta0) as Hb.
    pose proof (rec_bounds (move board m) alpha beta0 ltac:(lia) Hlt beta0_max)
      as (Hc1 & Hc2 & Hc3).
    destruct (rec (move board m) alpha beta0) as [v b']. cbn [fst snd] in Hb, Hc1, Hc2, Hc3.
    subst b'. rewrite undo_move.
    pose proof (fold_max_ge (fun m => exact (move board m)) moves
                  (Z.max M (exact (move board m)))) as Hge.
    cbv beta in Hge.
    destruct (Z.max alpha (Z.max maxValue v) >=? beta0) eqn:Hcut.
    + apply Z.geb_le in Hcut. cbn [fst]. unfold window_bounds. lia.
    + rewrite Z.geb_leb in Hcut. apply Z.leb_gt in Hcut.
      apply IH; lia.
Qed.

Lemma min_loop_bounds (moves : list Move) (minValue beta M : Z) :
  beta = Z.min beta0 minValue -> alpha0 < beta ->
  (beta0 <= M -> beta0 <= minValue <= M) ->
  (M < beta0 -> minValue = M) ->
  window_bounds
    (fst (min_loop rec alpha0 moves board minValue beta))
    (fold_left (fun acc m => Z.min acc (exact (move board m))) moves M)
    alpha0 beta0.
Proof using rec_board rec_bounds alpha0_min beta0_max.
  revert minValue beta M.
  induction moves as [|m moves IH]; intros minValue beta M Hbeta Hlt Hhigh Hin.
  - cbn [min_loop fold_left fst]. unfold window_bounds. lia.
  - cbn [min_loop fold_left].
    pose proof (rec_board (move board m) alpha0 beta) as Hb.
    pose proof (rec_bounds (move board m) alpha0 beta alpha0_min Hlt ltac:(lia))
      as (Hc1 & Hc2 & Hc3).
    destruct (rec (move board m) alpha0 beta) as [v b']. cbn [fst snd] in Hb, Hc1, Hc2, Hc3.
    subst b'. rewrite undo_move.
    pose proof (fold_min_le (fun m => exact (move board m)) moves
                  (Z.min M (exact (move board m)))) as Hle.
    cbv beta in Hle.
    destruct (alpha0 >=? Z.min beta (Z.min minValue v)) eqn:Hcut.
    + apply Z.geb_le in Hcut. cbn [fst]. unfold window_bounds. lia.
    + rewrite Z.geb_leb in Hcut. apply Z.leb_gt in Hcut.
      apply IH; lia.
Qed.

End PruningLoops.

Lemma fold_left_pointwise (f g : Z -> Move -> Z) (l : list Move) (a : Z) :
  (forall acc m, f acc m = g acc m) -> fold_left f l a = fold_left g l a.
Proof.
  intros Hfg. revert a. induction l as [|m l IH]; intros a; simpl; [done|].
  by rewrite Hfg, IH.
Qed.

Lemma fold_max_range (g : Move -> Z) (l : list Move) (M : Z) :
  INT32_MIN <= M <= INT32_MAX ->
  (forall m, INT32_MIN <= g m <= INT32_MAX) ->
  INT32_MIN <= fold_left (fun acc m => Z.max acc (g m)) l M <= INT32_MAX.
Proof.
  intros HM Hg. revert M HM. induction l as [|m l IH]; intros M HM; simpl;
    [done|].
  apply IH. specialize (Hg m). lia.
Qed.

Lemma fold_min_range (g : Move -> Z) (l : list Move) (M : Z) :
  INT32_MIN <= M <= INT32_MAX ->
  (forall m, INT32_MIN <= g m <= INT32_MAX) ->
  INT32_MIN <= fold_left (fun acc m => Z.min acc (g m)) l M <= INT32_MAX.
Proof.
  intros HM Hg. revert M HM. induction l as [|m l IH]; intros M HM; simpl;
    [done|].
  apply IH. specialize (Hg m). lia.
Qed.

Lemma minimax_range (tb : Tables) (depth : nat) (board : Board) (isMax : bool) :
  INT32_MIN <= minimax tb depth board isMax <= INT32_MAX.
Proof.
  revert board isMax. induction depth as [|d IH]; intros board isMax; simpl.
  - apply evaluate_range.
  - destruct isMax.
    + apply (fold_max_range (fun m => minimax tb d (move board m) false));
        [unfold INT32_MIN, INT32_MAX; lia|intros; apply IH].
    + apply (fold_min_range (fun m => minimax tb d (move board m) true));
        [unfold INT32_MIN, INT32_MAX; lia|intros; apply IH].
Qed.

Lemma alpha_beta_bounds (tb : Tables) (depth : nat) (board : Board)
    (alpha beta : Z) (isMax : bool) :
  INT32_MIN <= alpha -> alpha < beta -> beta <= INT32_MAX ->
  window_bounds (fst (BestMoveGen.min_max tb depth board alpha beta isMax))
                (minimax tb depth board isMax) alpha beta.
Proof.
  revert board alpha beta isMax.
  induction depth as [|d IH]; intros board alpha beta isMax Hmin Hlt Hmax.
  - simpl. unfold window_bounds. lia.
  - cbn [BestMoveGen.min_max minimax]. destruct isMax.
    + apply (max_loop_bounds
               (fun b a be => BestMoveGen.min_max tb d b a be (negb true))
               (fun b => minimax tb d b false)); try done;
        try (intros; apply min_max_board); try (intros; by apply IH);
        unfold INT32_MIN, INT32_MAX in *; lia.
    + apply (min_loop_bounds
               (fun b a be => BestMoveGen.min_max tb d b a be (negb false))
               (fun b => minimax tb d b true)); try done;
        try (intros; apply min_max_board); try (intros; by apply IH);
        unfold INT32_MIN, INT32_MAX in *; lia.
Qed.

Lemma full_window_exact (tb : Tables) (depth : nat) (board : Board)
    (isMax : bool) :
  fst (BestMoveGen.min_max tb depth board INT32_MIN INT32_MAX isMax)
  = minimax tb depth board isMax.
Proof.
  pose proof (alpha_beta_bounds tb depth board INT32_MIN INT32_MAX isMax)
    as Hb.
  pose proof (minimax_range tb depth board isMax) as Hr.
  destruct Hb as (H1 & H2 & H3); unfold INT32_MIN, INT32_MAX in *; lia.
Qed.

(** X1. Alpha-beta pruning is sound for every window inside the [int32_t]
    range: the value [min_max] returns for ([alpha], [beta]) equals the
    minimax value when that value lies strictly inside the window; when the
    minimax value is at most [alpha] the returned value lies between it and
    [alpha], and when it is at least [beta] the returned value lies between
    [beta] and it. *)
Theorem min_max_window_sound (tb : Tables) (depth : nat) (board : Board)
    (alpha beta : Z) (isMax : bool) :
  INT32_MIN <= alpha -> alpha < beta -> beta <= INT32_MAX ->
  let v := fst (BestMoveGen.min_max tb depth board alpha beta isMax) in
  let t := minimax tb depth board isMax in
  (t <= alpha -> t <= v <= alpha)
  /\ (beta <= t -> beta <= v <= t)
  /\ (alpha < t < beta -> v = t).
Proof.
  intros Hmin Hlt Hmax. by apply alpha_beta_bounds.
Qed.

Lemma min_max_window_sound_witness :
  let v := fst (BestMoveGen.min_max material_tables 1 guarded_pawn_board
                  (-5) 5 true) in
  let t := minimax material_tables 1 guarded_pawn_board true in
  (t <= -5 -> t <= v <= -5)
  /\ (5 <= t -> 5 <= v <= t)
  /\ (-5 < t < 5 -> v = t).
Proof.
  apply (min_max_window_sound material_tables 1 guarded_pawn_board (-5) 5 true).
  - unfold INT32_MIN. lia.
  - lia.
  - unfold INT32_MAX. lia.
Defined.

Lemma root_min_loop_value (rec : Board -> Z -> Z -> Z * Board)
    (alpha beta : Z) (board : Board) (moves : list Move) (v0 : Z) (m0 : Move) :
  (forall b a be, snd (rec b a be) = b) ->
  fst (fst (root_min_loop rec alpha beta moves board v0 m0))
  = fold_left (fun acc m => Z.min acc (fst (rec (move board m) alpha beta)))
              moves v0.
Proof.
  intros Hboard. revert v0 m0.
  induction moves as [|m moves IH]; intros v0 m0; cbn [root_min_loop fold_left];
    [done|].
  pose proof (Hboard (move board m) alpha beta) as Hb.
  destruct (rec (move board m) alpha beta) as [temp b']. cbn [fst snd] in *.
  subst b'. rewrite undo_move.
  destruct (temp <=? v0) eqn:E; rewrite IH; f_equal;
    [apply Z.leb_le in E | apply Z.leb_gt in E]; lia.
Qed.

Lemma root_max_loop_value (rec : Board -> Z -> Z -> Z * Board)
    (alpha beta : Z) (board : Board) (moves : list Move) (v0 : Z) (m0 : Move) :
  (forall b a be, snd (rec b a be) = b) ->
  fst (fst (root_max_loop rec alpha beta moves board v0 m0))
  = fold_left (fun acc m => Z.max acc (fst (rec (move board m) alpha beta)))
              moves v0.
Proof.
  intros Hboard. revert v0 m0.
  induction moves as [|m moves IH]; intros v0 m0; cbn [root_max_loop fold_left];
    [done|].
  pose proof (Hboard (move board m) alpha beta) as Hb.
  destruct (rec (move board m) alpha beta) as [temp b']. cbn [fst snd] in *.
  subst b'. rewrite undo_move.
  destruct (temp >=? v0) eqn:E; rewrite IH; f_equal;
    [apply Z.geb_le in E | rewrite Z.geb_leb in E; apply Z.leb_gt in E]; lia.
Qed.

(** X2. Pruning never changes what the sequential root sees: the score of
    every root move is the minimax value of the position after it, and the
    value the root search ends with is the minimax value of the position
    one ply deeper than [searchDepth] (a minimizing node for the upper
    side, a maximizing node otherwise). *)
Theorem root_search_is_minimax (tb : Tables) (board : Board) (s : Side)
    (searchDepth : nat) :
  (forall m,
     child_score tb board s searchDepth m
     = minimax tb searchDepth (move board m) (side_eqb s Side_up))
  /\ fst (fst (BestMoveGen.gen_search tb board s searchDepth))
     = minimax tb (S searchDepth) board (negb (side_eqb s Side_up)).
Proof.
  split.
  - intros m. apply full_window_exact.
  - unfold BestMoveGen.gen_search. cbv zeta.
    destruct s; cbn [side_eqb negb minimax].
    + rewrite root_min_loop_value by (intros; apply min_max_board).
      apply fold_left_pointwise. intros acc m. by rewrite full_window_exact.
    + rewrite root_max_loop_value by (intros; apply min_max_board).
      apply fold_left_pointwise. intros acc m. by rewrite full_window_exact.
    + rewrite root_max_loop_value by (intros; apply min_max_board).
      apply fold_left_pointwise. intros acc m. by rewrite full_window_exact.
Qed.

(** X3. The search gives the board back as it received it, history
    included: [min_max] at every depth and window, and the sequential root
    search for either side. *)
Theorem search_restores_board (tb : Tables) (board : Board) (s : Side)
    (searchDepth : nat) (alpha beta : Z) (isMax : bool) :
  snd (BestMoveGen.min_max tb searchDepth board alpha beta isMax) = board
  /\ snd (BestMoveGen.gen_search tb board s searchDepth) = board.
Proof.
  split; [apply min_max_board|].
  unfold BestMoveGen.gen_search. cbv zeta. destruct s.
  - destruct (root_min_loop_spec
                (fun b a be => BestMoveGen.min_max tb searchDepth b a be true)
                (fun b a be => min_max_board tb searchDepth b a be true)
                INT32_MIN INT32_MAX board
                (MovesGen.gen_possible_moves board Side_up) INT32_MAX Move0)
      as (v & m & -> & _). done.
  - destruct (root_max_loop_spec
                (fun b a be => BestMoveGen.min_max tb searchDepth b a be false)
                (fun b a be => min_max_board tb searchDepth b a be false)
                INT32_MIN INT32_MAX board
                (MovesGen.gen_possible_moves board Side_down) INT32_MIN Move0)
      as (v & m & -> & _). done.
  - destruct (root_max_loop_spec
                (fun b a be => BestMoveGen.min_max tb searchDepth b a be false)
                (fun b a be => min_max_board tb searchDepth b a be false)
                INT32_MIN INT32_MAX board
                (MovesGen.gen_possible_moves board Side_down) INT32_MIN Move0)
      as (v & m & -> & _). done.
Qed.

(** ** Board: cells after a move, and undoing a game *)

(** X4. A move between two different interior cells of a board with its
    full storage empties the cell it leaves, puts the piece that stood
    there on the cell it reaches, leaves every other cell of the storage as
    it was, and appends one record, with the two pieces it read, to the
    history. *)
Theorem move_changes_two_cells (b : Board) (m : Move) :
  length (data b) = storage_size ->
  interior (row (from m)) (col (from m)) ->
  interior (row (to m)) (col (to m)) ->
  from m <> to m ->
  get_pos (move b m) (from m) = P_EE
  /\ get_pos (move b m) (to m) = get_pos b (from m)
  /\ (forall r c, 0 <= r < row_num -> 0 <= c < col_num ->
        mkPos r c <> from m -> mkPos r c <> to m ->
        get (move b m) r c = get b r c)
  /\ history (move b m)
     = history b ++ [mkHistoryNode m (get_pos b (from m)) (get_pos b (to m))]
  /\ length (data (move b m)) = storage_size.
Proof.
  intros Hlen Hfi Hti Hne.
  destruct (interior_storage _ _ Hfi) as [Hfr Hfc].
  destruct (interior_storage _ _ Hti) as [Htr Htc].
  assert (forall p q : Pos, p <> q -> pos_eqb p q = false) as Hneq.
  { intros p q Hpq. destruct (pos_eqb p q) eqn:E; [|done].
    by apply pos_eqb_eq in E. }
  split_and!.
  - unfold get_pos. rewrite get_move by done.
    replace (mkPos (row (from m)) (col (from m))) with (from m)
      by (by destruct (from m)).
    rewrite (Hneq _ _ Hne). by rewrite (proj2 (pos_eqb_eq _ _) eq_refl).
  - unfold get_pos at 1. rewrite get_move by done.
    replace (mkPos (row (to m)) (col (to m))) with (to m)
      by (by destruct (to m)).
    by rewrite (proj2 (pos_eqb_eq _ _) eq_refl).
  - intros r c Hr Hc Hnf Hnt. rewrite get_move by done.
    by rewrite (Hneq _ _ Hnt), (Hneq _ _ Hnf).
  - done.
  - destruct b as [d h], m as [[fr fc] [tr tc]].
    unfold move, set, set_data; cbn in *.
    destruct (cell_index tr tc), (cell_index fr fc);
      rewrite ?length_insert; done.
Qed.

Lemma move_changes_two_cells_witness :
  get_pos (move new_board (Move4 9 3 2 3)) (from (Move4 9 3 2 3)) = P_EE
  /\ get_pos (move new_board (Move4 9 3 2 3)) (to (Move4 9 3 2 3))
     = get_pos new_board (from (Move4 9 3 2 3))
  /\ (forall r c, 0 <= r < row_num -> 0 <= c < col_num ->
        mkPos r c <> from (Move4 9 3 2 3) -> mkPos r c <> to (Move4 9 3 2 3) ->
        get (move new_board (Move4 9 3 2 3)) r c = get new_board r c)
  /\ history (move new_board (Move4 9 3 2 3))
     = history new_board
       ++ [mkHistoryNode (Move4 9 3 2 3)
             (get_pos new_board (from (Move4 9 3 2 3)))
             (get_pos new_board (to (Move4 9 3 2 3)))]
  /\ length (data (move new_board (Move4 9 3 2 3))) = storage_size.
Proof.
  apply (move_changes_two_cells new_board (Move4 9 3 2 3)).
  - reflexivity.
  - solve_interior.
  - solve_interior.
  - discriminate.
Defined.

Lemma undo_times_apply (ms : list Move) (b : Board) :
  undo_times (length ms) (apply_moves b ms) = b.
Proof.
  revert b. induction ms as [|m ms IH]; intros b; [done|].
  change (undo (undo_times (length ms) (apply_moves (move b m) ms)) = b).
  rewrite IH. apply undo_move.
Qed.

(** X5. Undoing as many times as moves were made gives back the board the
    moves started from, cells and history, whatever the moves were; and
    [undo] on a board whose history is empty changes nothing. *)
Theorem undo_all_moves (b : Board) (ms : list Move) :
  undo_times (length ms) (apply_moves b ms) = b
  /\ (history b = [] -> undo b = b)
  /\ (history b = [] ->
      forall n, undo_times (length ms + n) (apply_moves b ms) = b).
Proof.
  assert (history b = [] -> undo b = b) as Hempty.
  { intros Hh. unfold undo. by rewrite Hh. }
  split_and!; [apply undo_times_apply|done|].
  intros Hh n. unfold undo_times.
  replace (length ms + n)%nat with (n + length ms)%nat by lia.
  rewrite Nat.iter_add. fold (undo_times (length ms) (apply_moves b ms)).
  rewrite undo_times_apply.
  induction n as [|n IH]; [done|].
  change (undo (Nat.iter n undo b) = b). rewrite IH. by apply Hempty.
Qed.

(** ** Frontend: the wire form, the legality gate and the undo command *)

Lemma char_of_int_code (ch : ascii) : char_of_int (char_code ch) = ch.
Proof.
  unfold char_of_int, char_code.
  pose proof (N_ascii_bounded ch) as Hb.
  rewrite Z.mod_small by lia. rewrite N2Z.id. apply ascii_N_embedding.
Qed.

Lemma char_code_of_int (z : Z) : 0 <= z < 256 -> char_code (char_of_int z) = z.
Proof.
  intros Hz. unfold char_of_int, char_code.
  rewrite Z.mod_small by lia.
  rewrite N_ascii_embedding by lia. lia.
Qed.

Lemma is_file_code (ch : ascii) : is_file ch <-> 97 <= char_code ch <= 105.
Proof. unfold is_file, char_code. cbn. lia. Qed.

Lemma is_rank_code (ch : ascii) : is_rank ch <-> 48 <= char_code ch <= 57.
Proof. unfold is_rank, char_code. cbn. lia. Qed.

(** X6. The text [desc_move] writes for a move between interior cells is
    recognized as a move and is read back by [input_to_move] as the same
    move. *)
Theorem desc_move_read_back (m : Move) :
  interior (row (from m)) (col (from m)) ->
  interior (row (to m)) (col (to m)) ->
  GameOps.is_input_a_move (desc_move m) = true
  /\ GameOps.input_to_move (desc_move m) = m.
Proof.
  destruct m as [[fr fc] [tr tc]]. unfold interior; cbn [row col from to].
  unfold_consts. intros [Hfr Hfc] [Htr Htc].
  assert (char_code "a" = 97 /\ char_code "0" = 48) as [Ha H0] by done.
  split.
  - apply is_input_a_move_spec. unfold desc_move, move_form_prefix.
    cbn [row col from to]. unfold_consts. rewrite Ha, H0.
    do 5 eexists. split; [reflexivity|].
    rewrite !is_file_code, !is_rank_code, !char_code_of_int by lia. lia.
  - unfold GameOps.input_to_move, desc_move, GameOps.char_at, GameOps.char_diff.
    cbn [String.get row col from to default]. unfold_consts.
    fold (char_code "a") (char_code "0").
    repeat match goal with
           | |- context [Z.of_N (N_of_ascii ?ch)] => fold (char_code ch)
           end.
    unfold id. rewrite Ha, H0, !char_code_of_int by lia.
    unfold Move4. repeat f_equal; lia.
Qed.

Lemma desc_move_read_back_witness :
  GameOps.is_input_a_move (desc_move (Move4 9 3 9 6)) = true
  /\ GameOps.input_to_move (desc_move (Move4 9 3 9 6)) = Move4 9 3 9 6.
Proof.
  apply (desc_move_read_back (Move4 9 3 9 6)); solve_interior.
Defined.

(** X7. An input that is recognized as a move is read as a move between two
    interior cells, and [desc_move] writes that move as the first four
    characters of the input. *)
Theorem input_to_move_interior (input : string) :
  GameOps.is_input_a_move input = true ->
  interior (row (from (GameOps.input_to_move input)))
           (col (from (GameOps.input_to_move input)))
  /\ interior (row (to (GameOps.input_to_move input)))
              (col (to (GameOps.input_to_move input)))
  /\ desc_move (GameOps.input_to_move input) = substring 0 4 input.
Proof.
  intros (f1 & r1 & f2 & r2 & rest & -> & Hf1 & Hr1 & Hf2 & Hr2)%is_input_a_move_spec.
  apply is_file_code in Hf1, Hf2. apply is_rank_code in Hr1, Hr2.
  assert (char_code "a" = 97 /\ char_code "0" = 48) as [Ha H0] by done.
  unfold GameOps.input_to_move, GameOps.char_at, GameOps.char_diff, desc_move.
  cbn [String.get row col from to default Move4].
  repeat match goal with
         | |- context [Z.of_N (N_of_ascii ?ch)] => fold (char_code ch)
         end.
  rewrite Ha, H0. unfold interior, id. unfold_consts.
  split_and!; try lia.
  replace (2 + (char_code f1 - 97) - 2 + 97) with (char_code f1) by lia.
  replace (9 - (2 + 9 - (char_code r1 - 48) - 2) + 48) with (char_code r1) by lia.
  replace (2 + (char_code f2 - 97) - 2 + 97) with (char_code f2) by lia.
  replace (9 - (2 + 9 - (char_code r2 - 48) - 2) + 48) with (char_code r2) by lia.
  rewrite !char_of_int_code. cbn. by destruct rest.
Qed.

Lemma input_to_move_interior_witness :
  interior (row (from (GameOps.input_to_move "b2e2x")))
           (col (from (GameOps.input_to_move "b2e2x")))
  /\ interior (row (to (GameOps.input_to_move "b2e2x")))
              (col (to (GameOps.input_to_move "b2e2x")))
  /\ desc_move (GameOps.input_to_move "b2e2x") = substring 0 4 "b2e2x".
Proof.
  apply (input_to_move_interior "b2e2x"). reflexivity.
Defined.

Lemma check_rule_elem (g : Game) (m : Move) :
  GameOps.check_rule g m = true
  <-> m ∈ MovesGen.gen_possible_moves (board g) (userSide g).
Proof.
  unfold GameOps.check_rule. rewrite existsb_exists, list_elem_of_In. split.
  - intros (m' & Hin & Heq). apply move_eqb_eq in Heq. by subst m'.
  - intros Hin. exists m. split; [done|]. by apply move_eqb_eq.
Qed.

(** X8. [handle_move] changes the game only through a pseudo-move of the
    user: either the game is returned as it was, with one of the three
    rejection messages, or the input is recognized, the move it denotes
    starts on a piece of the user and is in the pseudo-move list of the
    user's side, and the new board is the old one after that move (the user
    has won, or the engine found no move), or after that move and one move
    of the engine; the sides and the search depth are never changed. *)
Theorem handle_move_gate (tb : Tables) (g g' : Game) (input : string)
    (o : Outcome) :
  GameOps.handle_move tb g input = (g', o) ->
  (g' = g /\ (o = unknown_command \/ o = not_your_piece \/ o = not_fit_rule))
  \/ (GameOps.is_input_a_move input = true
      /\ piece_side (get_pos (board g) (from (GameOps.input_to_move input)))
         = userSide g
      /\ GameOps.input_to_move input
         ∈ MovesGen.gen_possible_moves (board g) (userSide g)
      /\ (((o = user_wins \/ o = search_failed)
           /\ board g' = move (board g) (GameOps.input_to_move input))
          \/ exists em,
               (o = elysia_moved em \/ o = elysia_wins)
               /\ board g'
                  = move (move (board g) (GameOps.input_to_move input)) em)
      /\ searchDepth g' = searchDepth g
      /\ userSide g' = userSide g /\ elysiaSide g' = elysiaSide g).
Proof.
  unfold GameOps.handle_move.
  destruct (GameOps.is_input_a_move input) eqn:Hmove; cbn [negb];
    [|intros [= <- <-]; left; tauto].
  destruct (side_eqb _ _) eqn:Hside; cbn [negb];
    [|intros [= <- <-]; left; tauto].
  apply side_eqb_eq in Hside.
  destruct (GameOps.check_rule g _) eqn:Hrule; cbn [negb];
    [|intros [= <- <-]; left; tauto].
  apply check_rule_elem in Hrule.
  intros Hres. right. split_and!; try done;
    destruct (GameOps.is_win _ (userSide g));
    try (injection Hres as <- <-; cbn; tauto);
    destruct (BestMoveGenParallel.gen _ _ _ _) as [em|];
    try (injection Hres as <- <-; cbn; tauto);
    destruct (GameOps.is_win _ (elysiaSide g)) eqn:Hwin;
    injection Hres as <- <-; cbn; try tauto;
    right; exists em; tauto.
Qed.

Lemma handle_move_gate_witness :
  (endgame_game = endgame_game
   /\ (not_fit_rule = unknown_command \/ not_fit_rule = not_your_piece
       \/ not_fit_rule = not_fit_rule))
  \/ (GameOps.is_input_a_move "a3b4" = true
      /\ piece_side (get_pos (board endgame_game)
                       (from (GameOps.input_to_move "a3b4")))
         = userSide endgame_game
      /\ GameOps.input_to_move "a3b4"
         ∈ MovesGen.gen_possible_moves (board endgame_game)
             (userSide endgame_game)
      /\ (((not_fit_rule = user_wins \/ not_fit_rule = search_failed)
           /\ board endgame_game
              = move (board endgame_game) (GameOps.input_to_move "a3b4"))
          \/ exists em,
               (not_fit_rule = elysia_moved em \/ not_fit_rule = elysia_wins)
               /\ board endgame_game
                  = move (move (board endgame_game)
                            (GameOps.input_to_move "a3b4")) em)
      /\ searchDepth endgame_game = searchDepth endgame_game
      /\ userSide endgame_game = userSide endgame_game
      /\ elysiaSide endgame_game = elysiaSide endgame_game).
Proof.
  apply (handle_move_gate material_tables endgame_game endgame_game "a3b4"
           not_fit_rule).
  vm_compute. reflexivity.
Defined.

(** X9. After a turn in which the user's move was applied and the engine
    replied, the undo command of the loop takes both moves back: the game
    is again exactly the one before the user's input, board and history
    included. *)
Theorem undo_command_restores (tb : Tables) (g g' : Game) (input : string)
    (em : Move) :
  GameOps.handle_move tb g input = (g', elysia_moved em) ->
  run_command tb g' "undo" = (g, reply_undone).
Proof.
  unfold GameOps.handle_move.
  destruct (GameOps.is_input_a_move input); cbn [negb]; [|discriminate].
  destruct (side_eqb _ _); cbn [negb]; [|discriminate].
  destruct (GameOps.check_rule g _); cbn [negb]; [|discriminate].
  destruct (GameOps.is_win _ (userSide g)); [discriminate|].
  destruct (BestMoveGenParallel.gen _ _ _ _) as [em'|]; [|discriminate].
  destruct (GameOps.is_win _ (elysiaSide g)); [discriminate|].
  intros [= <- <-].
  unfold run_command.
  change (String.eqb "undo" "help") with false.
  change (String.eqb "undo" "undo") with true.
  cbv beta iota. destruct g as [b d us es run].
  unfold GameOps.with_board. cbn [board searchDepth userSide elysiaSide running].
  by rewrite !undo_move.
Qed.

Lemma undo_command_restores_witness :
  run_command material_tables
    (fst (GameOps.handle_move material_tables endgame_game "a3a4")) "undo"
  = (endgame_game, reply_undone).
Proof.
  apply (undo_command_restores material_tables endgame_game _ "a3a4"
           (Move4 5 2 6 2)).
  vm_compute. reflexivity.
Defined.

(** ** Move generator: geometry, rook, palace pieces *)

Lemma ride_shape (fuel : nat) (cb : Board) (r c row col rGap cGap : Z) :
  (exists k, 0 <= k
     /\ fst (fst (snd (MovesGen.ride fuel cb r c row col rGap cGap)))
        = row + k * rGap
     /\ snd (fst (snd (MovesGen.ride fuel cb r c row col rGap cGap)))
        = col + k * cGap)
  /\ forall m, m ∈ fst (MovesGen.ride fuel cb r c row col rGap cGap) ->
       exists k, 0 <= k /\ m = Move4 r c (row + k * rGap) (col + k * cGap).
Proof.
  revert row col. induction fuel as [|fuel IH]; intros row col; simpl.
  - split; [exists 0; split_and!; [lia|lia|lia]|].
    intros m H. by apply elem_of_nil in H.
  - destruct (piece_eqb _ _).
    + specialize (IH (row + rGap) (col + cGap)).
      destruct (MovesGen.ride fuel cb r c (row + rGap) (col + cGap) rGap cGap)
        as [ms [[row' col'] p]]. simpl in *.
      destruct IH as [(k & Hk & -> & ->) Hms]. split.
      * exists (k + 1). split_and!; lia.
      * intros m [->|Hin]%elem_of_cons.
        -- exists 0. split; [lia|]. apply Move4_inj; lia.
        -- destruct (Hms m Hin) as (k' & Hk' & ->).
           exists (k' + 1). split; [lia|]. apply Move4_inj; lia.
    + simpl. split; [exists 0; split_and!; lia|].
      intros m H. by apply elem_of_nil in H.
Qed.

Lemma jump_shape (fuel : nat) (cb : Board) (r c row col rGap cGap : Z)
    (side : Side) (m : Move) :
  m ∈ MovesGen.jump fuel cb r c row col rGap cGap side ->
  exists k, 0 <= k /\ m = Move4 r c (row + k * rGap) (col + k * cGap).
Proof.
  revert row col. induction fuel as [|fuel IH]; intros row col; simpl.
  - intros H. by apply elem_of_nil in H.
  - destruct (piece_eqb _ _).
    + intros (k & Hk & ->)%IH. exists (k + 1). split; [lia|].
      apply Move4_inj; lia.
    + destruct (side_eqb _ _); [|intros H; by apply elem_of_nil in H].
      intros ->%list_elem_of_singleton. exists 0. split; [lia|].
      apply Move4_inj; lia.
Qed.

Lemma line_move_geometry (r c rGap cGap k : Z) :
  cardinal rGap cGap -> 1 <= k ->
  let m := Move4 r c (r + k * rGap) (c + k * cGap) in
  (move_dr m = 0 /\ move_dc m <> 0) \/ (move_dc m = 0 /\ move_dr m <> 0).
Proof.
  intros Hcard Hk. unfold move_dr, move_dc; cbn.
  destruct Hcard as [[-> ->]|[[-> ->]|[[-> ->]|[-> ->]]]]; lia.
Qed.

Lemma cannon_line (cb : Board) (r c rGap cGap : Z) (side : Side) (m : Move) :
  m ∈ MovesGen.gen_moves_cannon_one_direction cb r c rGap cGap side ->
  exists k, 1 <= k /\ m = Move4 r c (r + k * rGap) (c + k * cGap).
Proof.
  unfold MovesGen.gen_moves_cannon_one_direction.
  pose proof (ride_shape MovesGen.walk_fuel cb r c (r + rGap) (c + cGap)
                rGap cGap) as [Hend Hms].
  destruct (MovesGen.ride _ _ _ _ _ _ _ _) as [ms [[row col] p]].
  cbn [fst snd] in *. destruct Hend as (k0 & Hk0 & -> & ->).
  intros [Hin|Hin]%elem_of_app.
  - destruct (Hms m Hin) as (k & Hk & ->). exists (k + 1).
    split; [lia|]. apply Move4_inj; lia.
  - destruct (negb _); [|by apply elem_of_nil in Hin].
    apply jump_shape in Hin as (k & Hk & ->). exists (k0 + 1 + k + 1).
    split; [lia|]. apply Move4_inj; lia.
Qed.

Lemma rook_line (cb : Board) (r c rGap cGap : Z) (side : Side) (m : Move) :
  m ∈ MovesGen.gen_moves_rook_one_direction cb r c rGap cGap side ->
  exists k, 1 <= k /\ m = Move4 r c (r + k * rGap) (c + k * cGap).
Proof.
  unfold MovesGen.gen_moves_rook_one_direction.
  pose proof (ride_shape MovesGen.walk_fuel cb r c (r + rGap) (c + cGap)
                rGap cGap) as [Hend Hms].
  destruct (MovesGen.ride _ _ _ _ _ _ _ _) as [ms [[row col] p]].
  cbn [fst snd] in *. destruct Hend as (k0 & Hk0 & -> & ->).
  intros [Hin|Hin]%elem_of_app.
  - destruct (Hms m Hin) as (k & Hk & ->). exists (k + 1).
    split; [lia|]. apply Move4_inj; lia.
  - destruct (side_eqb _ _); [|by apply elem_of_nil in Hin].
    apply list_elem_of_singleton in Hin as ->. exists (k0 + 1).
    split; [lia|]. apply Move4_inj; lia.
Qed.

Lemma gen_cell_geometry (cb : Board) (s : Side) (r c : Z) (m : Move) :
  m ∈ MovesGen.gen_cell cb s r c ->
  obeys_geometry s (piece_type (get cb r c)) r (move_dr m) (move_dc m).
Proof.
  intros Hin. unfold MovesGen.gen_cell in Hin.
  destruct (side_eqb _ _); [|by apply elem_of_nil in Hin].
  assert (forall tr tc,
            m ∈ MovesGen.check_possible_move_and_insert cb r c tr tc ->
            move_dr m = tr - r /\ move_dc m = tc - c) as Hcheck
    by (intros tr tc [-> _]%elem_of_check; done).
  assert (forall rGap cGap k, cardinal rGap cGap -> 1 <= k ->
            m = Move4 r c (r + k * rGap) (c + k * cGap) ->
            (move_dr m = 0 /\ move_dc m <> 0)
            \/ (move_dc m = 0 /\ move_dr m <> 0)) as Hline
    by (intros rGap cGap k Hc Hk ->; by apply line_move_geometry).
  destruct (piece_type (get cb r c)); cbn [obeys_geometry].
  - unfold MovesGen.gen_moves_pawn in Hin.
    destruct s; [| |by apply elem_of_nil in Hin];
      repeat match goal with
             | H : _ ∈ _ ++ _ |- _ => apply elem_of_app in H as [H|H]
             | H : _ ∈ (if _ then _ else []) |- _ =>
                 apply elem_of_if in H as [Hriver H]
             end;
      apply Hcheck in Hin; unfold_consts; lia.
  - unfold MovesGen.gen_moves_cannon in Hin. split_moves;
      apply cannon_line in Hin as (k & Hk & Hm);
      (eapply Hline; [|exact Hk|exact Hm]); unfold cardinal; lia.
  - unfold MovesGen.gen_moves_rook in Hin. split_moves;
      apply rook_line in Hin as (k & Hk & Hm);
      (eapply Hline; [|exact Hk|exact Hm]); unfold cardinal; lia.
  - unfold MovesGen.gen_moves_knight in Hin.
    split_moves; apply Hcheck in Hin; lia.
  - unfold MovesGen.gen_moves_bishop, MovesGen.bishop_step in Hin.
    destruct s; [| |by apply elem_of_nil in Hin];
      split_moves; apply Hcheck in Hin; lia.
  - unfold MovesGen.gen_moves_advisor in Hin.
    destruct s; [| |by apply elem_of_nil in Hin];
      split_moves; apply Hcheck in Hin; lia.
  - unfold MovesGen.gen_moves_general in Hin.
    destruct s; [| |by apply elem_of_nil in Hin];
      split_moves; try (apply Hcheck in Hin; lia);
      apply facing_elem in Hin as (k & Hk & -> & _);
      unfold move_dr, move_dc; cbn; lia.
  - by apply elem_of_nil in Hin.
  - by apply elem_of_nil in Hin.
Qed.

(** X10. Every pseudo-move obeys the step of the piece it moves, on every
    board: a pawn goes one cell forward, or one cell sideways once it stands
    beyond the river, and never backward; a cannon or a rook stays on its
    rank or its file; a knight makes an L-shaped step; a bishop goes two
    cells along a diagonal and an advisor one; a general goes one cell along
    a rank or a file, or forward along its file. *)
Theorem pseudo_moves_obey_geometry (cb : Board) (s : Side) (m : Move) :
  m ∈ MovesGen.gen_possible_moves cb s ->
  obeys_geometry s (piece_type (get_pos cb (from m))) (row (from m))
                 (move_dr m) (move_dc m).
Proof.
  intros (r & c & _ & Hin)%gen_possible_moves_elem.
  pose proof (gen_cell_from cb s r c m Hin) as Hfrom.
  apply gen_cell_geometry in Hin. by rewrite Hfrom.
Qed.

Lemma pseudo_moves_obey_geometry_witness :
  obeys_geometry Side_down (piece_type (get_pos new_board (from (Move4 9 3 2 3))))
                 (row (from (Move4 9 3 2 3)))
                 (move_dr (Move4 9 3 2 3)) (move_dc (Move4 9 3 2 3)).
Proof.
  apply (pseudo_moves_obey_geometry new_board Side_down (Move4 9 3 2 3)).
  apply list_elem_of_In. vm_compute. tauto.
Defined.

(** X11. On a well-formed board a rook on an interior cell, walking in one
    of the four directions, meets a first cell that is not empty, [k1]
    steps away; it is given the [k1 - 1] empty cells before it, nearest
    first, and then that cell itself exactly when it holds a piece of the
    opposing side; nothing beyond it. *)
Theorem rook_one_direction_blocked (cb : Board) (r c rGap cGap : Z)
    (side : Side) :
  wf_board cb = true -> interior r c -> cardinal rGap cGap ->
  exists k1 : nat,
    (1 <= k1)%nat
    /\ (forall k, 1 <= k < Z.of_nat k1 -> cell_at cb r c rGap cGap k = P_EE)
    /\ cell_at cb r c rGap cGap (Z.of_nat k1) <> P_EE
    /\ MovesGen.gen_moves_rook_one_direction cb r c rGap cGap side
       = rides r c rGap cGap (k1 - 1)
         ++ (if side_eqb (piece_side (cell_at cb r c rGap cGap (Z.of_nat k1)))
                         (piece_side_reverse side)
             then [move_at r c rGap cGap (Z.of_nat k1)]
             else []).
Proof.
  intros Hwf Hi Hcard.
  destruct (rook_walk cb r c rGap cGap side Hwf Hi Hcard)
    as (D & k1 & Hk1 & _ & _ & _ & Hbefore & Hat & Hgen).
  exists k1. split_and!; try done. lia.
Qed.

Lemma rook_one_direction_blocked_witness :
  exists k1 : nat,
    (1 <= k1)%nat
    /\ (forall k, 1 <= k < Z.of_nat k1 -> cell_at new_board 2 2 1 0 k = P_EE)
    /\ cell_at new_board 2 2 1 0 (Z.of_nat k1) <> P_EE
    /\ MovesGen.gen_moves_rook_one_direction new_board 2 2 1 0 Side_up
       = rides 2 2 1 0 (k1 - 1)
         ++ (if side_eqb (piece_side (cell_at new_board 2 2 1 0 (Z.of_nat k1)))
                         (piece_side_reverse Side_up)
             then [move_at 2 2 1 0 (Z.of_nat k1)]
             else []).
Proof.
  apply (rook_one_direction_blocked new_board 2 2 1 0 Side_up).
  - vm_compute; reflexivity.
  - solve_interior.
  - unfold cardinal. right. left. split; reflexivity.
Defined.

Lemma facing_spec (n : nat) (cb : Board) (r c row step : Z) (target : Piece)
    (m : Move) :
  target <> P_EE ->
  m ∈ MovesGen.facing n cb r c row step target
  <-> exists k, 0 <= k < Z.of_nat n
        /\ m = Move4 r c (row + k * step) c
        /\ get cb (row + k * step) c = target
        /\ forall j, 0 <= j < k -> get cb (row + j * step) c = P_EE.
Proof.
  intros Htarget. revert row. induction n as [|n IH]; intros row; simpl MovesGen.facing.
  - rewrite elem_of_nil. split; [done|]. intros (k & Hk & _). lia.
  - destruct (piece_eqb (get cb row c) P_EE) eqn:He.
    + apply piece_eqb_eq in He. rewrite IH. split.
      * intros (k & Hk & -> & Hget & Hbefore). exists (k + 1).
        replace (row + (k + 1) * step) with (row + step + k * step) by lia.
        split_and!; try done; try lia.
        intros j Hj. destruct (decide (j = 0)) as [->|].
        -- by rewrite Z.add_0_r.
        -- replace (row + j * step) with (row + step + (j - 1) * step) by lia.
           apply Hbefore. lia.
      * intros (k & Hk & -> & Hget & Hbefore).
        destruct (decide (k = 0)) as [->|].
        { rewrite Z.add_0_r in Hget. congruence. }
        exists (k - 1).
        replace (row + step + (k - 1) * step) with (row + k * step) by lia.
        split_and!; try done; try lia.
        intros j Hj.
        replace (row + step + j * step) with (row + (j + 1) * step) by lia.
        apply Hbefore. lia.
    + apply piece_eqb_neq in He.
      destruct (piece_eqb (get cb row c) target) eqn:Ht.
      * apply piece_eqb_eq in Ht. rewrite list_elem_of_singleton. split.
        -- intros ->. exists 0. rewrite Z.add_0_r.
           split_and!; try done; lia.
        -- intros (k & Hk & -> & Hget & Hbefore).
           destruct (decide (k = 0)) as [->|]; [by rewrite Z.add_0_r|].
           specialize (Hbefore 0 ltac:(lia)). rewrite Z.add_0_r in Hbefore.
           done.
      * apply piece_eqb_neq in Ht. rewrite elem_of_nil. split; [done|].
        intros (k & Hk & -> & Hget & Hbefore).
        destruct (decide (k = 0)) as [->|].
        -- rewrite Z.add_0_r in Hget. done.
        -- specialize (Hbefore 0 ltac:(lia)). rewrite Z.add_0_r in Hbefore.
           done.
Qed.

Ltac choose_case :=
  first [ solve [split_and!; first [done | lia]]
        | left; choose_case
        | right; choose_case ].

(** X12. An advisor that stands in the palace of its side is given exactly
    the one-cell diagonal steps that end inside that palace on a cell that
    is accepted (not the sentinel, no piece of its own side): it never
    leaves the palace. *)
Theorem advisor_moves_in_palace (cb : Board) (r c : Z) (s : Side) (m : Move) :
  s <> Side_extra -> in_palace s r c ->
  m ∈ MovesGen.gen_moves_advisor cb r c s
  <-> exists tr tc,
        m = Move4 r c tr tc
        /\ Z.abs (tr - r) = 1 /\ Z.abs (tc - c) = 1
        /\ in_palace s tr tc
        /\ accepted cb r c tr tc.
Proof.
  intros Hs Hin. unfold MovesGen.gen_moves_advisor, in_palace in *.
  destruct s; [| |done];
    cbn [MovesGen.palace_top MovesGen.palace_bottom MovesGen.palace_left
         MovesGen.palace_right] in *;
    rewrite !elem_of_app, !elem_of_if, !elem_of_check, !andb_true_iff,
      !Z.leb_le, !Z.geb_le; unfold_consts; (split;
    [ intros H;
      repeat match goal with
             | H : _ \/ _ |- _ => destruct H as [H|H]
             | H : _ /\ _ |- _ => destruct H as [? H]
             end;
      match goal with
      | Hm : m = Move4 r c ?tr ?tc |- _ => exists tr, tc
      end; split_and!; first [done | lia]
    | intros (tr & tc & -> & Hr & Hc & Hpal & Hacc);
      assert (tr = r + 1 \/ tr = r - 1) as [-> | ->] by lia;
      assert (tc = c + 1 \/ tc = c - 1) as [-> | ->] by lia;
      choose_case ]).
Qed.

Lemma advisor_moves_in_palace_witness :
  Move4 2 5 3 6 ∈ MovesGen.gen_moves_advisor new_board 2 5 Side_up
  <-> exists tr tc,
        Move4 2 5 3 6 = Move4 2 5 tr tc
        /\ Z.abs (tr - 2) = 1 /\ Z.abs (tc - 5) = 1
        /\ in_palace Side_up tr tc
        /\ accepted new_board 2 5 tr tc.
Proof.
  apply (advisor_moves_in_palace new_board 2 5 Side_up (Move4 2 5 3 6)).
  - discriminate.
  - unfold in_palace; cbn; unfold_consts; lia.
Defined.

(** X13. A general that stands in the palace of its side is given exactly
    two kinds of moves: the one-cell steps along a rank or a file that end
    inside the palace on an accepted cell, and the capture of the opposing
    general standing ahead on the same file, on the board, with only empty
    cells in between. *)
Theorem general_moves_in_palace (cb : Board) (r c : Z) (s : Side) (m : Move) :
  s <> Side_extra -> in_palace s r c ->
  m ∈ MovesGen.gen_moves_general cb r c s
  <-> (exists tr tc,
         m = Move4 r c tr tc
         /\ Z.abs (tr - r) + Z.abs (tc - c) = 1
         /\ in_palace s tr tc
         /\ accepted cb r c tr tc)
      \/ (exists k,
            1 <= k
            /\ row_begin <= r + k * forward s <= row_end
            /\ m = Move4 r c (r + k * forward s) c
            /\ get cb (r + k * forward s) c = general_of (piece_side_reverse s)
            /\ forall j, 1 <= j < k -> get cb (r + j * forward s) c = P_EE).
Proof.
  intros Hs Hin. unfold MovesGen.gen_moves_general, in_palace in *.
  destruct s; [| |done];
    cbn [MovesGen.palace_top MovesGen.palace_bottom MovesGen.palace_left
         MovesGen.palace_right forward general_of piece_side_reverse] in *;
    rewrite !elem_of_app, !elem_of_if, !elem_of_check, !Z.leb_le, ?Z.geb_le,
      facing_spec by discriminate; unfold_consts.
  - split.
    + intros H.
      repeat match goal with
             | H : _ \/ _ |- _ => destruct H as [H|H]
             end;
        try (destruct H as (Hb & Hm & Hacc); left;
             match goal with
             | Hm : m = Move4 r c ?tr ?tc |- _ => exists tr, tc
             end; split_and!; first [done | lia]).
      destruct H as (k & Hk & -> & Hget & Hbefore). right. exists (k + 1).
      replace (r + (k + 1) * 1) with (r + 1 + k * 1) by lia.
      split_and!; try done; try lia.
      intros j Hj. replace (r + j * 1) with (r + 1 + (j - 1) * 1) by lia.
      apply Hbefore. lia.
    + intros [(tr & tc & -> & Hd & Hpal & Hacc)|(k & Hk & Hrow & -> & Hget & Hbefore)].
      * assert ((tr = r + 1 /\ tc = c) \/ (tr = r - 1 /\ tc = c)
                \/ (tr = r /\ tc = c + 1) \/ (tr = r /\ tc = c - 1))
          as [[-> ->]|[[-> ->]|[[-> ->]|[-> ->]]]] by lia; choose_case.
      * do 4 right. exists (k - 1).
        replace (r + 1 + (k - 1) * 1) with (r + k * 1) by lia.
        split_and!; try done; try lia.
        intros j Hj. replace (r + 1 + j * 1) with (r + (j + 1) * 1) by lia.
        apply Hbefore. lia.
  - split.
    + intros H.
      repeat match goal with
             | H : _ \/ _ |- _ => destruct H as [H|H]
             end;
        try (destruct H as (Hb & Hm & Hacc); left;
             match goal with
             | Hm : m = Move4 r c ?tr ?tc |- _ => exists tr, tc
             end; split_and!; first [done | lia]).
      destruct H as (k & Hk & -> & Hget & Hbefore). right. exists (k + 1).
      replace (r + (k + 1) * -1) with (r - 1 + k * -1) by lia.
      split_and!; try done; try lia.
      intros j Hj. replace (r + j * -1) with (r - 1 + (j - 1) * -1) by lia.
      apply Hbefore. lia.
    + intros [(tr & tc & -> & Hd & Hpal & Hacc)|(k & Hk & Hrow & -> & Hget & Hbefore)].
      * assert ((tr = r + 1 /\ tc = c) \/ (tr = r - 1 /\ tc = c)
                \/ (tr = r /\ tc = c + 1) \/ (tr = r /\ tc = c - 1))
          as [[-> ->]|[[-> ->]|[[-> ->]|[-> ->]]]] by lia; choose_case.
      * do 4 right. exists (k - 1).
        replace (r - 1 + (k - 1) * -1) with (r + k * -1) by lia.
        split_and!; try done; try lia.
        intros j Hj. replace (r - 1 + j * -1) with (r + (j + 1) * -1) by lia.
        apply Hbefore. lia.
Qed.

Lemma general_moves_in_palace_witness :
  Move4 2 6 3 6 ∈ MovesGen.gen_moves_general new_board 2 6 Side_up
  <-> (exists tr tc,
         Move4 2 6 3 6 = Move4 2 6 tr tc
         /\ Z.abs (tr - 2) + Z.abs (tc - 6) = 1
         /\ in_palace Side_up tr tc
         /\ accepted new_board 2 6 tr tc)
      \/ (exists k,
            1 <= k
            /\ row_begin <= 2 + k * forward Side_up <= row_end
            /\ Move4 2 6 3 6 = Move4 2 6 (2 + k * forward Side_up) 6
            /\ get new_board (2 + k * forward Side_up) 6
               = general_of (piece_side_reverse Side_up)
            /\ forall j, 1 <= j < k ->
                 get new_board (2 + j * forward Side_up) 6 = P_EE).
Proof.
  apply (general_moves_in_palace new_board 2 6 Side_up (Move4 2 6 3 6)).
  - discriminate.
  - unfold in_palace; cbn; unfold_consts; lia.
Defined.

Lemma sideless_piece_type (p : Piece) :
  piece_side p = Side_extra ->
  piece_type p = Type_empty \/ piece_type p = Type_out.
Proof.
  intros Hside. unfold piece_type.
  repeat match goal with
         | |- context [piece_eqb p ?q] =>
             let E := fresh "E" in
             destruct (piece_eqb p q) eqn:E;
             [apply piece_eqb_eq in E; subst p; discriminate Hside
             |cbn [orb]]
         end.
  all: try tauto.
  destruct (piece_eqb p P_EE); tauto.
Qed.

(** X14. [piece_side] and [piece_type] sort the pieces alike: a piece has a
    side, upper or lower, exactly when its type is one of the seven the
    generator has a function for.  So a cell that passes the side test of
    [gen_possible_moves] never falls to the default branch of its switch,
    and an empty or sentinel cell never passes the side test. *)
Theorem piece_side_matches_type (p : Piece) :
  (piece_side p = Side_extra
   <-> piece_type p = Type_empty \/ piece_type p = Type_out)
  /\ (piece_side p <> Side_extra
      <-> In (piece_type p)
             [Type_pawn; Type_cannon; Type_rook; Type_knight; Type_bishop;
              Type_advisor; Type_general]).
Proof.
  assert (piece_type p = Type_empty \/ piece_type p = Type_out ->
          piece_side p = Side_extra) as Hback.
  { unfold piece_type.
    repeat match goal with
           | |- context [piece_eqb p ?q] =>
               let E := fresh "E" in
               destruct (piece_eqb p q) eqn:E;
               [cbn [orb]; intros [?|?]; discriminate
               |cbn [orb]]
           end.
    intros _.
    destruct p as [[] [] [] [] [] [] [] []]; try reflexivity; exfalso;
      repeat match goal with
             | H : piece_eqb _ _ = false |- _ =>
                 vm_compute in H; try discriminate H; clear H
             end. }
  split; [split; [apply sideless_piece_type|apply Hback]|].
  split.
  - intros Hside. destruct (piece_type p) eqn:E; cbn; try tauto;
      exfalso; apply Hside, Hback; tauto.
  - intros Hin Hside.
    destruct (sideless_piece_type p Hside) as [E|E]; rewrite E in Hin;
      cbn in Hin; intuition discriminate.
Qed.

(** ** Parallel search, reachable positions and win detection *)

(** X15. For a positive number of chunks, [split_vector] gives no result on
    an empty list; on any other list it cuts the list into consecutive
    chunks, none of them empty, whose concatenation is the list, and there
    are as many chunks as asked for, or as many as moves when the moves are
    fewer. *)
Theorem split_vector_chunks (vec : list Move) (chunkNum : nat) :
  (0 < chunkNum)%nat ->
  (vec = [] -> BestMoveGenParallel.split_vector vec chunkNum = None)
  /\ (vec <> [] ->
      exists chunks,
        BestMoveGenParallel.split_vector vec chunkNum = Some chunks
        /\ concat chunks = vec
        /\ Forall (fun chunk => chunk <> []) chunks
        /\ length chunks = Nat.min (length vec) chunkNum).
Proof.
  intros Hnum. split.
  - intros ->. unfold BestMoveGenParallel.split_vector. simpl.
    by rewrite Nat.Div0.div_0_l.
  - intros Hne. unfold BestMoveGenParallel.split_vector.
    assert (0 < length vec)%nat as Hlen by (destruct vec; [done|simpl; lia]).
    destruct (length vec / chunkNum =? 0)%nat eqn:E.
    + apply Nat.eqb_eq in E. apply Nat.div_small_iff in E; [|lia].
      destruct (length vec) as [|k] eqn:El; [lia|].
      destruct (chunks_cover vec k 1) as [Hcat Hall]; [lia|lia|].
      eexists. split; [done|]. split_and!; try done.
      rewrite length_app, length_map, length_seq. cbn [length]. lia.
    + apply Nat.eqb_neq in E.
      assert (chunkNum <= length vec)%nat as Hle.
      { destruct (Nat.le_gt_cases chunkNum (length vec)) as [|Hgt]; [done|].
        apply Nat.div_small in Hgt. lia. }
      destruct chunkNum as [|k]; [lia|].
      destruct (chunks_cover vec k (length vec / S k)) as [Hcat Hall]; [lia| |].
      { apply Nat.Div0.mul_div_le. }
      eexists. split; [done|]. split_and!; try done.
      rewrite length_app, length_map, length_seq. cbn [length]. lia.
Qed.

Lemma split_vector_chunks_witness :
  ([Move4 8 2 7 2; Move4 8 2 6 2] = [] ->
   BestMoveGenParallel.split_vector [Move4 8 2 7 2; Move4 8 2 6 2] 32 = None)
  /\ ([Move4 8 2 7 2; Move4 8 2 6 2] <> [] ->
      exists chunks,
        BestMoveGenParallel.split_vector [Move4 8 2 7 2; Move4 8 2 6 2] 32
        = Some chunks
        /\ concat chunks = [Move4 8 2 7 2; Move4 8 2 6 2]
        /\ Forall (fun chunk => chunk <> []) chunks
        /\ length chunks
           = Nat.min (length [Move4 8 2 7 2; Move4 8 2 6 2]) 32).
Proof.
  apply (split_vector_chunks [Move4 8 2 7 2; Move4 8 2 6 2] 32). lia.
Defined.

(** X16. For the upper side the parallel root search returns the move and
    the value of the sequential root search, whenever the side has a
    pseudo-move and the score of every root move is below 2^24 in absolute
    value, so that the [float] accumulator of the reducer holds it
    exactly. *)
Theorem parallel_search_agrees_upper (tb : Tables) (board : Board)
    (searchDepth : nat) :
  MovesGen.gen_possible_moves board Side_up <> [] ->
  (forall mv, mv ∈ MovesGen.gen_possible_moves board Side_up ->
              Z.abs (child_score tb board Side_up searchDepth mv) < 2 ^ 24) ->
  BestMoveGenParallel.gen tb board Side_up searchDepth
  = Some (BestMoveGen.gen tb board Side_up searchDepth)
  /\ BestMoveGenParallel.gen_search tb board Side_up searchDepth
     = Some (BestMoveGen.gen tb board Side_up searchDepth,
             fst (fst (BestMoveGen.gen_search tb board Side_up searchDepth))).
Proof.
  intros Hne Hexact.
  pose proof (parallel_agrees_for_upper tb board searchDepth Hne Hexact) as H.
  split; [|done]. unfold BestMoveGenParallel.gen. by rewrite H.
Qed.

Lemma parallel_search_agrees_upper_witness :
  BestMoveGenParallel.gen material_tables guarded_pawn_board Side_up 1
  = Some (BestMoveGen.gen material_tables guarded_pawn_board Side_up 1)
  /\ BestMoveGenParallel.gen_search material_tables guarded_pawn_board Side_up 1
     = Some (BestMoveGen.gen material_tables guarded_pawn_board Side_up 1,
             fst (fst (BestMoveGen.gen_search material_tables
                         guarded_pawn_board Side_up 1))).
Proof.
  apply (parallel_search_agrees_upper material_tables guarded_pawn_board 1).
  - vm_compute. discriminate.
  - assert (forallb
              (fun mv =>
                 Z.abs (child_score material_tables guarded_pawn_board
                          Side_up 1 mv) <? 2 ^ 24)
              (MovesGen.gen_possible_moves guarded_pawn_board Side_up) = true)
      as Hall by (vm_compute; reflexivity).
    intros mv Hin. apply Z.ltb_lt.
    apply (proj1 (forallb_forall _ _) Hall). by apply list_elem_of_In.
Defined.

(** X17. Every position reachable from the opening, by moves taken in turn
    from the pseudo-move lists, is well formed: the storage has its size,
    the border holds the sentinel and no interior cell does; its bishops
    stand on their own side of the river; and every pseudo-move from it
    leads to a well-formed board again. *)
Theorem reachable_positions_well_formed (b : Board) :
  reachable b ->
  wf_board b = true
  /\ bishops_at_home b
  /\ forall s m, s <> Side_extra -> m ∈ MovesGen.gen_possible_moves b s ->
       wf_board (move b m) = true.
Proof.
  intros Hreach. destruct (reachable_invariant b Hreach) as [Hwf Hhome].
  split_and!; try done.
  intros s m Hs Hin. apply (wf_move b s); try done.
  by apply pseudo_moves_good.
Qed.

Lemma reachable_positions_well_formed_witness :
  wf_board (apply_moves new_board open_file_game) = true
  /\ bishops_at_home (apply_moves new_board open_file_game)
  /\ forall s m, s <> Side_extra ->
       m ∈ MovesGen.gen_possible_moves
             (apply_moves new_board open_file_game) s ->
       wf_board (move (apply_moves new_board open_file_game) m) = true.
Proof.
  apply (reachable_positions_well_formed
           (apply_moves new_board open_file_game)).
  exists Side_down, open_file_game.
  split; [discriminate|vm_compute; reflexivity].
Defined.

Lemma palace_has_spec (b : Board) (top left : Z) (p : Piece) :
  GameOps.palace_has b top left p = true
  <-> exists r c, top <= r < top + 3 /\ left <= c < left + 3 /\ get b r c = p.
Proof.
  unfold GameOps.palace_has. rewrite existsb_exists. split.
  - intros (r & Hr%list_elem_of_In%elem_of_seqZ
              & (c & Hc%list_elem_of_In%elem_of_seqZ & Hp%piece_eqb_eq)%existsb_exists).
    by exists r, c.
  - intros (r & c & Hr & Hc & Hp). exists r.
    split; [by apply list_elem_of_In, elem_of_seqZ|].
    apply existsb_exists. exists c.
    split; [by apply list_elem_of_In, elem_of_seqZ|]. by apply piece_eqb_eq.
Qed.

(** X18. Win detection after a capture that is not made by the general: on
    a well-formed board, when the general of the moving side stands in its
    palace, the piece moved is not that general, and the only place where
    the opposing general stands in its palace is the destination of the
    pseudo-move, then after the move [is_win] answers [true] for the moving
    side and [false] for the other. *)
Theorem is_win_after_capture (b : Board) (s : Side) (m : Move) :
  wf_board b = true -> s <> Side_extra ->
  m ∈ MovesGen.gen_possible_moves b s ->
  GameOps.palace_has b (MovesGen.palace_top s) (MovesGen.palace_left s)
    (general_of s) = true ->
  get_pos b (from m) <> general_of s ->
  (forall r c, in_palace (piece_side_reverse s) r c ->
     get b r c = general_of (piece_side_reverse s) -> mkPos r c = to m) ->
  GameOps.is_win (move b m) s = true
  /\ GameOps.is_win (move b m) (piece_side_reverse s) = false.
Proof.
  intros Hwf Hs Hin Hown Hnotgen Honly.
  pose proof (pseudo_moves_good b s m Hwf Hs Hin)
    as (Hfi & Hfs & Hti & Hto & Hts & Hne).
  destruct (wf_board_spec b Hwf) as [Hlen _].
  destruct (interior_storage _ _ Hfi) as [Hfr Hfc].
  destruct (interior_storage _ _ Hti) as [Htr Htc].
  assert (GameOps.palace_has (move b m) (MovesGen.palace_top s)
            (MovesGen.palace_left s) (general_of s) = true) as Hown'.
  { apply palace_has_spec in Hown as (r & c & Hr & Hc & Hg).
    apply palace_has_spec. exists r, c. split; [done|]. split; [done|].
    rewrite get_move; try done;
      [|destruct s; cbn in Hr, Hc; unfold_consts; lia
       |destruct s; cbn in Hr, Hc; unfold_consts; lia].
    destruct (pos_eqb (mkPos r c) (to m)) eqn:E1.
    - apply pos_eqb_eq in E1. exfalso. apply Hts.
      unfold get_pos. rewrite <- E1. cbn. rewrite Hg. by destruct s.
    - destruct (pos_eqb (mkPos r c) (from m)) eqn:E2; [|done].
      apply pos_eqb_eq in E2. exfalso. apply Hnotgen.
      unfold get_pos. rewrite <- E2. done. }
  assert (GameOps.palace_has (move b m)
            (MovesGen.palace_top (piece_side_reverse s))
            (MovesGen.palace_left (piece_side_reverse s))
            (general_of (piece_side_reverse s)) = false) as Hopp'.
  { destruct (GameOps.palace_has (move b m)
                (MovesGen.palace_top (piece_side_reverse s))
                (MovesGen.palace_left (piece_side_reverse s))
                (general_of (piece_side_reverse s))) eqn:E; [|done]. exfalso.
    apply palace_has_spec in E as (r & c & Hr & Hc & Hg).
    assert (in_palace (piece_side_reverse s) r c) as Hpal.
    { unfold in_palace. clear -Hr Hc Hs.
      destruct s; [| |done];
        cbn [piece_side_reverse MovesGen.palace_top MovesGen.palace_bottom
             MovesGen.palace_left MovesGen.palace_right] in *;
        unfold_consts; lia. }
    rewrite get_move in Hg; try done;
      [|destruct s; cbn in Hr, Hc; unfold_consts; lia
       |destruct s; cbn in Hr, Hc; unfold_consts; lia].
    destruct (pos_eqb (mkPos r c) (to m)) eqn:E1.
    - rewrite Hg in Hfs. destruct s; cbn in Hfs; congruence.
    - destruct (pos_eqb (mkPos r c) (from m)) eqn:E2.
      + destruct s; discriminate Hg.
      + pose proof (Honly r c Hpal Hg) as Heq.
        apply pos_eqb_eq in Heq. congruence. }
  unfold GameOps.is_win.
  destruct s; [| |done]; cbn [MovesGen.palace_top MovesGen.palace_left
    general_of piece_side_reverse] in Hown', Hopp';
    fold nine_palace_up_top nine_palace_up_left nine_palace_down_top
         nine_palace_down_left in Hown', Hopp';
    rewrite Hown', Hopp'; done.
Qed.

Lemma is_win_after_capture_witness :
  GameOps.is_win (move rook_check_board (Move4 5 6 2 6)) Side_down = true
  /\ GameOps.is_win (move rook_check_board (Move4 5 6 2 6))
       (piece_side_reverse Side_down) = false.
Proof.
  apply (is_win_after_capture rook_check_board Side_down (Move4 5 6 2 6)).
  - vm_compute; reflexivity.
  - discriminate.
  - apply list_elem_of_In. vm_compute. tauto.
  - vm_compute; reflexivity.
  - vm_compute. discriminate.
  - intros r c [Hr Hc]. cbn in Hr, Hc. unfold_consts.
    assert (r = 2 \/ r = 3 \/ r = 4) as [-> |[-> | ->]] by lia;
      assert (c = 5 \/ c = 6 \/ c = 7) as [-> |[-> | ->]] by lia;
      vm_compute; first [discriminate | reflexivity | congruence].
Defined.

(** ** Generation order and the evaluator *)

Lemma in_scan_order_app (l1 l2 : list Move) :
  in_scan_order l1 -> in_scan_order l2 ->
  (forall m1 m2, m1 ∈ l1 -> m2 ∈ l2 -> from_index m1 <= from_index m2) ->
  in_scan_order (l1 ++ l2).
Proof.
  intros H1 H2 H12 i j mi mj Hlt Hi Hj.
  apply lookup_app_Some in Hi as [Hi|[Hgi Hi]];
    apply lookup_app_Some in Hj as [Hj|[Hgj Hj]].
  - by apply (H1 i j).
  - apply H12; by eapply list_elem_of_lookup_2.
  - apply lookup_lt_Some in Hj. lia.
  - apply (H2 (i - length l1)%nat (j - length l1)%nat); [lia|done|done].
Qed.

Lemma in_scan_order_flat_map (f : Z -> list Move) (lo hi : Z -> Z) (n : nat)
    (a : Z) :
  (forall x, in_scan_order (f x)) ->
  (forall x m, m ∈ f x -> lo x <= from_index m <= hi x) ->
  (forall x y, x < y -> hi x < lo y) ->
  in_scan_order (flat_map f (seqZ a (Z.of_nat n)))
  /\ forall m, m ∈ flat_map f (seqZ a (Z.of_nat n)) ->
       exists x, a <= x < a + Z.of_nat n /\ lo x <= from_index m <= hi x.
Proof.
  intros Hord Hrange Hmono. revert a.
  induction n as [|n IH]; intros a.
  - simpl. split.
    + intros i j mi mj _ Hi. done.
    + intros m Hin. by apply elem_of_nil in Hin.
  - rewrite (seqZ_cons a (Z.of_nat (S n))) by lia.
    replace (Z.pred (Z.of_nat (S n))) with (Z.of_nat n) by lia.
    cbn [flat_map]. destruct (IH (Z.succ a)) as [IHord IHrange]. split.
    + apply in_scan_order_app; [apply Hord|done|].
      intros m1 m2 Hm1 Hm2.
      destruct (IHrange m2 Hm2) as (x & Hx & Hm2').
      specialize (Hrange a m1 Hm1). specialize (Hmono a x ltac:(lia)). lia.
    + intros m [Hin|Hin]%elem_of_app.
      * exists a. split; [lia|]. by apply Hrange.
      * destruct (IHrange m Hin) as (x & Hx & Hm). exists x. split; [lia|done].
Qed.

Lemma gen_cell_scan_order (cb : Board) (s : Side) (r c : Z) :
  in_scan_order (MovesGen.gen_cell cb s r c)
  /\ forall m, m ∈ MovesGen.gen_cell cb s r c ->
       r * col_num + c <= from_index m <= r * col_num + c.
Proof.
  assert (forall m, m ∈ MovesGen.gen_cell cb s r c ->
            from_index m = r * col_num + c) as Hkey.
  { intros m Hin. apply gen_cell_from in Hin. unfold from_index.
    by rewrite Hin. }
  split.
  - intros i j mi mj _ Hi Hj.
    apply list_elem_of_lookup_2 in Hi, Hj. rewrite (Hkey mi), (Hkey mj); done.
  - intros m Hin. rewrite (Hkey m Hin). lia.
Qed.

(** X19. [gen_possible_moves] lists the moves in the order of the scan of
    the board: of two moves of the list, the earlier one leaves a cell of
    an earlier row, or of the same row and the same or an earlier column. *)
Theorem gen_possible_moves_scan_order (cb : Board) (s : Side) (i j : nat)
    (mi mj : Move) :
  (i < j)%nat ->
  MovesGen.gen_possible_moves cb s !! i = Some mi ->
  MovesGen.gen_possible_moves cb s !! j = Some mj ->
  row (from mi) < row (from mj)
  \/ (row (from mi) = row (from mj) /\ col (from mi) <= col (from mj)).
Proof.
  intros Hlt Hi Hj.
  assert (forall m, m ∈ MovesGen.gen_possible_moves cb s ->
            col_begin <= col (from m) <= col_end) as Hcol.
  { intros m (r & c & [_ Hc] & Hin)%gen_possible_moves_elem.
    apply gen_cell_from in Hin. by rewrite Hin. }
  pose proof (Hcol mi (list_elem_of_lookup_2 _ _ _ Hi)) as Hci.
  pose proof (Hcol mj (list_elem_of_lookup_2 _ _ _ Hj)) as Hcj.
  assert (in_scan_order (MovesGen.gen_possible_moves cb s)) as Hord.
  { unfold MovesGen.gen_possible_moves.
    change real_row_num with (Z.of_nat 10).
    apply (in_scan_order_flat_map _ (fun r => r * col_num + col_begin)
             (fun r => r * col_num + col_end)).
    - intros r. change real_col_num with (Z.of_nat 9).
      apply (in_scan_order_flat_map _ (fun c => r * col_num + c)
               (fun c => r * col_num + c)).
      + intros c. apply (proj1 (gen_cell_scan_order cb s r c)).
      + intros c m Hin. by apply (proj2 (gen_cell_scan_order cb s r c)).
      + intros x y Hxy. lia.
    - intros r m Hin. change real_col_num with (Z.of_nat 9) in Hin.
      assert (forall x y : Z, x < y -> r * col_num + x < r * col_num + y)
        as Hmono by (intros; lia).
      destruct (proj2 (in_scan_order_flat_map
                         (fun c => MovesGen.gen_cell cb s r c)
                         (fun c => r * col_num + c) (fun c => r * col_num + c)
                         9 col_begin
                         (fun c => proj1 (gen_cell_scan_order cb s r c))
                         (fun c m => proj2 (gen_cell_scan_order cb s r c) m)
                         Hmono) m Hin) as (c & Hc & Hm).
      unfold_consts. lia.
    - intros x y Hxy. unfold_consts. lia. }
  specialize (Hord i j mi mj Hlt Hi Hj). unfold from_index in Hord.
  unfold_consts. lia.
Qed.

Lemma gen_possible_moves_scan_order_witness :
  row (from (Move4 2 2 3 2)) < row (from (Move4 4 3 3 3))
  \/ (row (from (Move4 2 2 3 2)) = row (from (Move4 4 3 3 3))
      /\ col (from (Move4 2 2 3 2)) <= col (from (Move4 4 3 3 3))).
Proof.
  apply (gen_possible_moves_scan_order new_board Side_up 0 15
           (Move4 2 2 3 2) (Move4 4 3 3 3)).
  - lia.
  - vm_compute. reflexivity.
  - vm_compute. reflexivity.
Defined.

Lemma interior_forallb (f : Z -> Z -> bool) :
  forallb (fun '(r, c) => f r c) interior_cells = true ->
  forall r c, interior r c -> f r c = true.
Proof.
  rewrite forallb_forall. intros Hall r c Hi.
  apply (Hall (r, c)). by apply interior_cells_elem.
Qed.

Lemma fold_left_agree {A : Type} (f g : Z -> A -> Z) (l : list A) (a : Z) :
  (forall acc x, In x l -> f acc x = g acc x) ->
  fold_left f l a = fold_left g l a.
Proof.
  revert a. induction l as [|x l IH]; intros a Hfg; simpl; [done|].
  rewrite Hfg by (by left). apply IH. intros acc y Hy. apply Hfg. by right.
Qed.

(** X20. The evaluation reads the interior cells and, for each cell that is
    not empty, the two table entries of the piece on it, and nothing else:
    two boards that agree on the interior cells get the same score from two
    tables that agree on those entries, whatever their borders, their
    histories and the other entries are. *)
Theorem evaluate_reads_interior (tb tb' : Tables) (b b' : Board) :
  (forall r c, interior r c -> get b r c = get b' r c) ->
  (forall r c, interior r c -> get b r c <> P_EE ->
     piece_value_mapping tb (get b r c) = piece_value_mapping tb' (get b r c)
     /\ piece_pos_value_mapping tb (get b r c) (r - row_begin) (c - col_begin)
        = piece_pos_value_mapping tb' (get b r c) (r - row_begin)
            (c - col_begin)) ->
  ScoreEvaluator.evaluate tb b = ScoreEvaluator.evaluate tb' b'.
Proof.
  intros Hcells Htables. unfold ScoreEvaluator.evaluate.
  apply fold_left_agree. intros acc [r c] Hin%interior_cells_elem.
  rewrite <- (Hcells r c Hin).
  destruct (piece_eqb (get b r c) P_EE) eqn:E; cbn [negb]; [done|].
  apply piece_eqb_neq in E.
  destruct (Htables r c Hin E) as [-> ->]. done.
Qed.

Lemma evaluate_reads_interior_witness :
  ScoreEvaluator.evaluate material_tables transposed_position_a
  = ScoreEvaluator.evaluate off_path_tables transposed_position_b.
Proof.
  apply (evaluate_reads_interior material_tables off_path_tables
           transposed_position_a transposed_position_b).
  - intros r c Hi. apply piece_eqb_eq.
    apply (interior_forallb
             (fun r c => piece_eqb (get transposed_position_a r c)
                                   (get transposed_position_b r c)));
      [vm_compute; reflexivity|done].
  - intros r c Hi Hne.
    pose proof (interior_forallb
                  (fun r c =>
                     let p := get transposed_position_a r c in
                     piece_eqb p P_EE
                     || ((piece_value_mapping material_tables p
                          =? piece_value_mapping off_path_tables p)
                         && (piece_pos_value_mapping material_tables p
                               (r - row_begin) (c - col_begin)
                             =? piece_pos_value_mapping off_path_tables p
                                  (r - row_begin) (c - col_begin))))
                  ltac:(vm_compute; reflexivity) r c Hi) as Hcell.
    cbv beta zeta in Hcell.
    destruct (piece_eqb (get transposed_position_a r c) P_EE) eqn:E.
    + apply piece_eqb_eq in E. by destruct Hne.
    + cbn [orb] in Hcell. apply andb_true_iff in Hcell as [Hv Hp].
      apply Z.eqb_eq in Hv, Hp. done.
Defined.
